(** * PlateScanner (src/app.js)

    A shallow embedding of the plate scanner of the parking desk front end:
    [normalisePlate] with the two UK plate patterns it applies, the scan timer
    ([scheduleScan], [stopCamera]), the capture cycle ([captureAndRead],
    [handleOCRResult]) and the booking lookup ([lookupByReg], [mockFetch],
    [renderBooking]).

    The later parts embed the rest of the file: [Validation], the complaints
    desk ([AppState], the handlers of [ComplaintsDeskApp], [addEvidence] and
    [setTicketStatus]), [Utils.debounce] and [Utils.sanitizeHtml], and the
    preview and the calendar of [MessagingBackend].

    Conventions.
    - A JavaScript string is the list of its code units.  Code units are 8-bit
      here ([ascii]): the embedding covers ASCII and Latin-1 text.
    - [null] and [undefined] are [None].
    - A number is [NaN], an infinity or the rational a finite double denotes.
    - An [async] method is a function that runs up to its first [await] and
      returns the suspended rest as a [Task]; the rest reads the state it is
      resumed in, as the source reads [this].
    - The page is the scanner page after [init]: its elements are there.  Of
      the page the state keeps what the methods read (the form controls) and
      what they show (last plate, log, booking box, buttons, frames drawn,
      alerts); the permission badge, the warning banner and the options of
      the camera select are left out. *)

From Stdlib Require Import String Ascii Bool Arith ZArith QArith Qround Qabs Lia List Sorted.
Import ListNotations.

Close Scope Q_scope.
Open Scope nat_scope.
Open Scope list_scope.

(** ** Strings *)

Definition jsstring := list ascii.

(** A string literal as a list of code units. *)
Definition str (s : string) : jsstring := list_ascii_of_string s.

Definition code (c : ascii) : nat := nat_of_ascii c.

Definition in_range (lo hi : nat) (c : ascii) : bool :=
  (lo <=? code c) && (code c <=? hi).

(** [[A-Z]] *)
Definition is_upper : ascii -> bool := in_range 65 90.
(** [[a-z]] *)
Definition is_lower : ascii -> bool := in_range 97 122.
(** [\d], that is [[0-9]] *)
Definition is_digit : ascii -> bool := in_range 48 57.

(** [\s]: tab, line feed, vertical tab, form feed, carriage return, space and
    the no-break space (the 8-bit members of WhiteSpace and LineTerminator). *)
Definition is_space (c : ascii) : bool :=
  in_range 9 13 c || (code c =? 32) || (code c =? 160).

(** [\w], that is [[A-Za-z0-9_]] *)
Definition is_word (c : ascii) : bool :=
  is_upper c || is_lower c || is_digit c || (code c =? 95).

(** [String.prototype.toUpperCase], one code unit at a time.  The sharp s (223)
    becomes "SS"; a-z and the accented Latin-1 letters move down by 32 (247 is
    the division sign).  The micro sign (181) and y with diaeresis (255) have
    capitals beyond 8 bits and are kept.  [normalisePlate] deletes them and
    their capitals alike, as both lie outside [[A-Z0-9 ]]; a statement about
    the upper-cased text itself is made for texts without the two. *)
Definition upper_unit (c : ascii) : jsstring :=
  if is_lower c then [ascii_of_nat (code c - 32)]
  else if code c =? 223 then ["S"; "S"]%char
  else if in_range 224 254 c && negb (code c =? 247)
       then [ascii_of_nat (code c - 32)]
  else [c].

Definition toUpperCase (s : jsstring) : jsstring := flat_map upper_unit s.

(** [s.replace(/\s/g, '')] *)
Definition strip_spaces (s : jsstring) : jsstring :=
  filter (fun c => negb (is_space c)) s.

(** ** Regular expressions

    The two patterns of [UK_REGEXES] are sequences of word-boundary assertions
    and greedy bounded repetitions of a character class.  Their one capture
    group encloses everything but the two assertions, so [m[1]] is the whole
    match. *)

Inductive atom : Type :=
| WordBoundary                                       (* \b *)
| Repeat (cls : ascii -> bool) (lo hi : nat).        (* cls{lo,hi} *)

Definition regex := list atom.

(** [\b] holds where exactly one of the code units before and after the
    position is a word character; outside the string counts as not one. *)
Definition word_boundary (prev : option ascii) (s : jsstring) : bool :=
  xorb (match prev with Some c => is_word c | None => false end)
       (match s with c :: _ => is_word c | [] => false end).

(** The continuation of a match: the last code unit consumed and the rest of
    the input, to the code units the rest of the pattern matches. *)
Definition cont := option ascii -> jsstring -> option jsstring.

(** Backtracking for [cls{lo,hi}]: one more iteration is tried first; the
    continuation [k] runs when that fails and [lo] iterations are done. *)
Fixpoint greedy (cls : ascii -> bool) (lo hi : nat) (k : cont)
    (prev : option ascii) (s : jsstring) : option jsstring :=
  let stop := if lo =? 0 then k prev s else None in
  match hi, s with
  | S hi', c :: s' =>
      if cls c then
        match greedy cls (pred lo) hi' k (Some c) s' with
        | Some m => Some (c :: m)
        | None => stop
        end
      else stop
  | _, _ => stop
  end.

(** The match of [re] that starts at the head of [s], if any. *)
Fixpoint match_here (re : regex) : cont :=
  match re with
  | [] => fun _ _ => Some []
  | WordBoundary :: re' =>
      fun prev s => if word_boundary prev s then match_here re' prev s else None
  | Repeat cls lo hi :: re' => greedy cls lo hi (match_here re')
  end.

(** A match object: [m.index] and [m[1]]. *)
Record RegExpMatch : Type := { index : nat; group1 : jsstring }.

(** The matches of a global pattern from left to right.  [skip] counts the
    code units still covered by the last match, [idx] is the position of the
    head of [s] and [prev] the code unit before it.  After an empty match the
    search moves one position on. *)
Fixpoint matchAll_from (re : regex) (skip idx : nat) (prev : option ascii)
    (s : jsstring) : list RegExpMatch :=
  match s with
  | [] =>
      match skip with
      | O => match match_here re prev [] with
             | Some m => [{| index := idx; group1 := m |}]
             | None => []
             end
      | S _ => []
      end
  | c :: s' =>
      match skip with
      | S k => matchAll_from re k (S idx) (Some c) s'
      | O =>
          match match_here re prev s with
          | Some m => {| index := idx; group1 := m |}
                      :: matchAll_from re (pred (length m)) (S idx) (Some c) s'
          | None => matchAll_from re 0 (S idx) (Some c) s'
          end
      end
  end.

(** [[...t.matchAll(re)]] *)
Definition matchAll (re : regex) (t : jsstring) : list RegExpMatch :=
  matchAll_from re 0 0 None t.

(** ** Array.prototype.sort

    The sort is stable (ECMAScript 2019), so for a comparator that orders by a
    key every implementation returns the same array; insertion sort is the
    model.  An element goes before the first one it does not come after. *)
Fixpoint insert {A : Type} (cmp : A -> A -> Z) (x : A) (l : list A) : list A :=
  match l with
  | [] => [x]
  | y :: l' => if (cmp x y <=? 0)%Z then x :: l else y :: insert cmp x l'
  end.

Definition sort {A : Type} (cmp : A -> A -> Z) (l : list A) : list A :=
  fold_right (insert cmp) [] l.

(** ** normalisePlate *)

(** [Math.abs(7 - a.length)] *)
Definition distance_to_7 (a : jsstring) : Z :=
  Z.abs (7 - Z.of_nat (length a)).

(** [(a, b) => Math.abs(7 - a.length) - Math.abs(7 - b.length)] *)
Definition by_closeness (a b : jsstring) : Z :=
  (distance_to_7 a - distance_to_7 b)%Z.

(** [/\b([A-Z]{2}\d{2}\s?[A-Z]{3})\b/g] *)
Definition current_format : regex :=
  [WordBoundary; Repeat is_upper 2 2; Repeat is_digit 2 2;
   Repeat is_space 0 1; Repeat is_upper 3 3; WordBoundary].

(** [/\b([A-Z]{1,3}\d{1,4}\s?[A-Z]{1,3})\b/g] *)
Definition cherished_formats : regex :=
  [WordBoundary; Repeat is_upper 1 3; Repeat is_digit 1 4;
   Repeat is_space 0 1; Repeat is_upper 1 3; WordBoundary].

Definition UK_REGEXES : list regex := [current_format; cherished_formats].

(** [.replace(/\n/g, ' ')] *)
Definition newlines_to_spaces (s : jsstring) : jsstring :=
  map (fun c => if code c =? 10 then " "%char else c) s.

(** [.replace(/[^A-Z0-9 ]/g, '')] *)
Definition keep_plate_units (s : jsstring) : jsstring :=
  filter (fun c => is_upper c || is_digit c || (code c =? 32)) s.

(** [.replace(/O/g, '0')] *)
Definition O_to_zero (s : jsstring) : jsstring :=
  map (fun c => if code c =? 79 then "0"%char else c) s.

(** The text [t] the patterns are applied to. *)
Definition cleaned (text : jsstring) : jsstring :=
  O_to_zero (keep_plate_units (newlines_to_spaces (toUpperCase text))).

(** [[...t.matchAll(re)].map(m => m[1].replace(/\s/g, ''))] *)
Definition candidates (re : regex) (t : jsstring) : list jsstring :=
  map (fun m => strip_spaces (group1 m)) (matchAll re t).

(** The [for (const re of this.UK_REGEXES)] loop. *)
Fixpoint first_pattern (res : list regex) (t : jsstring) : option jsstring :=
  match res with
  | [] => None
  | re :: rest =>
      match candidates re t with
      | [] => first_pattern rest t
      | matches => hd_error (sort by_closeness matches)
      end
  end.

Definition normalisePlate (text : option jsstring) : option jsstring :=
  match text with
  | None | Some [] => None
  | Some text => first_pattern UK_REGEXES (cleaned text)
  end.


(** ** Numbers

    A finite double is the rational it denotes.  [Math.max], [Math.round],
    [||] and [>=] are exact on doubles; the one place where a double is made
    from a text is [Number], which rounds ([double_of]). *)
Inductive number : Type :=
| NaN
| Infinity (negative : bool)
| Num (q : Q).

(** ToBoolean on a number: [0] and [NaN] are falsy. *)
Definition truthy (n : number) : bool :=
  match n with
  | NaN => false
  | Infinity _ => true
  | Num q => negb (Qeq_bool q 0%Q)
  end.

(** [n || d] on numbers. *)
Definition or_else (n d : number) : number := if truthy n then n else d.

(** [a >= b] *)
Definition ge (a b : number) : bool :=
  match a, b with
  | NaN, _ | _, NaN => false
  | Infinity false, _ => true
  | _, Infinity true => true
  | Infinity true, _ => false
  | _, Infinity false => false
  | Num x, Num y => Qle_bool y x
  end.

(** [Math.max(a, b)] *)
Definition Math_max (a b : number) : number :=
  match a, b with
  | NaN, _ | _, NaN => NaN
  | _, _ => if ge a b then a else b
  end.

(** [Math.round(n)]: the nearest integer, a half rounds up. *)
Definition Math_round (n : number) : number :=
  match n with
  | Num q => Num (inject_Z (Qfloor (q + (1 # 2))%Q))
  | _ => n
  end.

(** [ToInt32]: the integer part, wrapped into 32 bits; 0 for what is not
    finite. *)
Definition ToInt32 (n : number) : Z :=
  match n with
  | Num q =>
      let t := if Qle_bool 0 q then Qfloor q else Qceiling q in
      ((t + 2147483648) mod 4294967296 - 2147483648)%Z
  | _ => 0%Z
  end.

(** *** The double nearest to a real

    The Number value for a rational: the nearest double, a tie going to the
    one with the even significand; what is too small becomes 0 and what
    rounds beyond the largest double an infinity. *)

(** [2^e] *)
Definition pow2 (e : Z) : Q := Qpower (2 # 1) e.

(** For a positive [a], the [e] with [2^e <= a < 2^(e+1)]. *)
Definition floor_log2 (a : Q) : Z :=
  let e := (Z.log2 (Qnum a) - Z.log2 (Zpos (Qden a)))%Z in
  if Qle_bool (pow2 e) a then e else (e - 1)%Z.

(** The integer nearest to [x], the even one of two that are as near. *)
Definition round_half_even (x : Q) : Z :=
  let f := Qfloor x in
  match Qcompare (x - inject_Z f) (1 # 2) with
  | Lt => f
  | Gt => (f + 1)%Z
  | Eq => if Z.even f then f else (f + 1)%Z
  end.

Definition double_of (q : Q) : number :=
  if Qeq_bool q 0 then Num 0%Q else
  let a := Qabs q in
  let e := Z.max (floor_log2 a) (-1022) in
  let ulp := pow2 (e - 52) in
  let v := Qred (inject_Z (round_half_even (a / ulp)) * ulp) in
  let negative := negb (Qle_bool 0 q) in
  if Qle_bool (pow2 1024) v then Infinity negative
  else Num (if negative then - v else v)%Q.

(** *** Number(string) *)

Fixpoint skip_spaces (s : jsstring) : jsstring :=
  match s with
  | c :: s' => if is_space c then skip_spaces s' else s
  | [] => []
  end.

(** [String.prototype.trim] *)
Definition trim (s : jsstring) : jsstring :=
  rev (skip_spaces (rev (skip_spaces s))).

(** The longest prefix of units in [cls], and the rest. *)
Fixpoint span (cls : ascii -> bool) (s : jsstring) : jsstring * jsstring :=
  match s with
  | c :: s' =>
      if cls c then let (run, rest) := span cls s' in (c :: run, rest)
      else ([], s)
  | [] => ([], [])
  end.

(** The value of a digit in a radix up to 16, if it is one. *)
Definition digit_in (radix : nat) (c : ascii) : option Z :=
  let v := if in_range 48 57 c then Some (code c - 48)%nat
           else if in_range 97 102 c then Some (code c - 87)%nat
           else if in_range 65 70 c then Some (code c - 55)%nat
           else None in
  match v with
  | Some n => if n <? radix then Some (Z.of_nat n) else None
  | None => None
  end.

(** The value of a non-empty run of digits of the radix. *)
Fixpoint digits_value (radix : nat) (acc : Z) (s : jsstring) : option Z :=
  match s with
  | [] => Some acc
  | c :: s' =>
      match digit_in radix c with
      | Some v => digits_value radix (Z.of_nat radix * acc + v)%Z s'
      | None => None
      end
  end.

Definition numeral (radix : nat) (s : jsstring) : option Z :=
  match s with
  | [] => None
  | _ => digits_value radix 0 s
  end.

(** ExponentPart, or nothing: the power of ten it denotes. *)
Definition exponent_part (s : jsstring) : option Z :=
  match s with
  | [] => Some 0%Z
  | c :: s' =>
      if (code c =? 101) || (code c =? 69) then
        match s' with
        | "+"%char :: ds => numeral 10 ds
        | "-"%char :: ds => option_map Z.opp (numeral 10 ds)
        | ds => numeral 10 ds
        end
      else None
  end.

(** StrUnsignedDecimalLiteral *)
Definition unsigned_decimal (s : jsstring) : number :=
  if list_eq_dec ascii_dec s (str "Infinity") then Infinity false else
  let (int_part, r) := span is_digit s in
  let '(frac_part, r') :=
    match r with
    | "."%char :: x => let (f, y) := span is_digit x in (f, y)
    | _ => ([], r)
    end in
  match int_part ++ frac_part, exponent_part r' with
  | (_ :: _) as ds, Some e =>
      match numeral 10 ds with
      | Some n =>
          double_of (inject_Z n * Qpower (10 # 1) (e - Z.of_nat (length frac_part)))%Q
      | None => NaN
      end
  | _, _ => NaN
  end.

Definition negate (n : number) : number :=
  match n with
  | NaN => NaN
  | Infinity b => Infinity (negb b)
  | Num q => Num (- q)%Q
  end.

Definition of_numeral (n : option Z) : number :=
  match n with Some z => double_of (inject_Z z) | None => NaN end.

(** [Number(s)] for a string: StringToNumber.  White space is trimmed, the
    empty string is 0, what is not a StringNumericLiteral is NaN, and the
    value of a literal is rounded to a double. *)
Definition Number (s : jsstring) : number :=
  match trim s with
  | [] => Num 0%Q
  | "+"%char :: t => unsigned_decimal t
  | "-"%char :: t => negate (unsigned_decimal t)
  | "0"%char :: x :: t =>
      if (code x =? 120) || (code x =? 88) then of_numeral (numeral 16 t)
      else if (code x =? 111) || (code x =? 79) then of_numeral (numeral 8 t)
      else if (code x =? 98) || (code x =? 66) then of_numeral (numeral 2 t)
      else unsigned_decimal (trim s)
  | t => unsigned_decimal t
  end.


(** ** URLs *)

(** The units [encodeURIComponent] leaves as they are. *)
Definition unreserved (c : ascii) : bool :=
  is_upper c || is_lower c || is_digit c
  || existsb (Ascii.eqb c) (str "-_.!~*'()").

Definition hex_digit (n : nat) : ascii :=
  nth n (str "0123456789ABCDEF") "0"%char.

(** [%XX] *)
Definition percent (byte : nat) : jsstring :=
  ["%"%char; hex_digit (byte / 16); hex_digit (byte mod 16)].

(** A unit above 127 is escaped as the two bytes of its UTF-8 form. *)
Definition encode_unit (c : ascii) : jsstring :=
  if unreserved c then [c]
  else if code c <? 128 then percent (code c)
  else percent (192 + code c / 64) ++ percent (128 + code c mod 64).

Definition encodeURIComponent (s : jsstring) : jsstring :=
  flat_map encode_unit s.

(** The bytes of a form-encoded piece: [+] is a space and [%XX] a byte. *)
Fixpoint percent_decode (s : jsstring) : jsstring :=
  match s with
  | [] => []
  | c :: s' =>
      if code c =? 43 then " "%char :: percent_decode s'
      else if code c =? 37 then
        match s' with
        | h :: l :: s'' =>
            match digit_in 16 h, digit_in 16 l with
            | Some a, Some b =>
                ascii_of_nat (Z.to_nat (16 * a + b)) :: percent_decode s''
            | _, _ => c :: percent_decode s'
            end
        | _ => c :: percent_decode s'
        end
      else c :: percent_decode s'
  end.

(** UTF-8 decoding of the two-byte forms of the units 128 to 255.  Other
    sequences denote units beyond 8 bits; [encodeURIComponent] does not
    produce them here, and their bytes are kept. *)
Fixpoint utf8_decode (s : jsstring) : jsstring :=
  match s with
  | [] => []
  | b :: s' =>
      if in_range 194 195 b then
        match s' with
        | t :: s'' =>
            if in_range 128 191 t
            then ascii_of_nat ((code b - 192) * 64 + (code t - 128)) :: utf8_decode s''
            else b :: utf8_decode s'
        | [] => [b]
        end
      else b :: utf8_decode s'
  end.

Fixpoint split_on (sep : ascii) (s : jsstring) : list jsstring :=
  match s with
  | [] => [[]]
  | c :: s' =>
      if Ascii.eqb c sep then [] :: split_on sep s'
      else match split_on sep s' with
           | piece :: rest => (c :: piece) :: rest
           | [] => [[c]]
           end
  end.

(** The text before the first [sep], and the text after it if there is one. *)
Fixpoint cut_at (sep : ascii) (s : jsstring) : jsstring * option jsstring :=
  match s with
  | [] => ([], None)
  | c :: s' =>
      if Ascii.eqb c sep then ([], Some s')
      else let (before, after) := cut_at sep s' in (c :: before, after)
  end.

Definition form_decode (piece : jsstring) : jsstring :=
  utf8_decode (percent_decode piece).

(** The leading C0 controls and spaces of a text, dropped. *)
Fixpoint skip_c0 (s : jsstring) : jsstring :=
  match s with
  | c :: s' => if code c <=? 32 then skip_c0 s' else s
  | [] => []
  end.

(** What the URL parser does to its input first: the C0 controls and spaces
    at both ends go, and so does every tab, line feed and carriage return. *)
Definition url_input (s : jsstring) : jsstring :=
  filter (fun c => negb ((code c =? 9) || (code c =? 10) || (code c =? 13)))
         (rev (skip_c0 (rev (skip_c0 s)))).

(** [new URL(url, location.origin).searchParams.get(name)] for a relative
    [url]: the first pair of the query with that name. *)
Definition searchParams_get (name url : jsstring) : option jsstring :=
  match snd (cut_at "?"%char (fst (cut_at "#"%char (url_input url)))) with
  | None => None
  | Some query =>
      let pairs :=
        map (fun piece => let (n, v) := cut_at "="%char piece in
                          (form_decode n, form_decode (match v with Some v => v | None => [] end)))
            (filter (fun piece => negb (length piece =? 0)) (split_on "&"%char query)) in
      option_map snd
        (find (fun nv => if list_eq_dec ascii_dec (fst nv) name then true else false) pairs)
  end.

(** ** The values that cross the scanner's interfaces *)

(** A rejection: an error with its [name] and [message]. *)
Module Error.
Record t : Type := { name : jsstring; message : jsstring }.
End Error.

(** How a promise settles. *)
Inductive Settled (A : Type) : Type :=
| Fulfilled (a : A)
| Rejected (e : Error.t).
Arguments Fulfilled {A} a.
Arguments Rejected {A} e.

(** What [worker.recognize] resolves with, [data]. *)
Module OcrData.
Record t : Type := { text : option jsstring; confidence : option number }.
End OcrData.

(** A booking as the service describes it.  [arrival] is the instant its
    ISO-8601 string denotes, in milliseconds. *)
Module Booking.
Record t : Type := {
  reg : option jsstring;
  status : option jsstring;
  customer : option jsstring;
  bookingId : option jsstring;
  product : option jsstring;
  terminal : option jsstring;
  arrival : option Z;
  phone : option jsstring
}.
End Booking.

(** What [response.json()] resolves with.  Reading a field of a value that is
    neither null nor an object gives undefined, as for an object without the
    field, so [JObject] stands for every value but null. *)
Inductive Json : Type :=
| JNull
| JObject (b : Booking.t).

(** The body of a response: the value it parses to, or [NotJson] when
    [response.json()] rejects. *)
Inductive Body : Type :=
| JsonBody (v : Json)
| NotJson.

Module Response.
Record t : Type := { status : Z; body : Body }.
(** [response.ok] *)
Definition ok (r : t) : bool := (200 <=? status r)%Z && (status r <=? 299)%Z.
End Response.

Record MediaStream : Type := { deviceId : option jsstring }.

(** ** The state *)

(** A line of the log.  [Detected] is the template
    [`Detected ${plate} conf ${confidence}`]; the time stamp is left out. *)
Inductive LogLine : Type :=
| Line (msg : jsstring)
| Detected (plate : jsstring) (confidence : number).

(** What [renderBooking] writes: the interpolated values of its template. *)
Module Card.
Record t : Type := {
  reg : jsstring;
  status : jsstring;
  customer : jsstring;
  bookingId : jsstring;
  product : jsstring;
  terminal : jsstring;
  arrival : option Z;
  phone : jsstring
}.
End Card.

(** [bookingBox.innerHTML]: as the page loads, the "No booking found" notice
    for a plate, or a booking card. *)
Inductive BookingBox : Type :=
| Untouched
| NoBookingFound (reg : jsstring)
| BookingShown (card : Card.t).

(** The form controls the methods read. *)
Record Inputs : Type := {
  autoCapture_checked : bool;
  intervalEl_value : jsstring;
  confidenceEl_value : jsstring;
  mockToggle_checked : bool;
  manualPlate_value : jsstring;
  cameraSelect_value : jsstring
}.

(** What the methods show: the elements they write, the frames drawn on the
    [frame] canvas and the alerts raised. *)
Record Display : Type := {
  lastPlateEl_textContent : jsstring;
  logEl : list LogLine;                 (* newest first *)
  bookingBox : BookingBox;
  startBtn_disabled : bool;
  stopBtn_disabled : bool;
  frame_draws : nat;
  alerts : list jsstring
}.

(** The window: the timeouts that are armed with their waits, the next timer
    id, the clock, what the environment offers and the streams whose tracks
    were stopped. *)
Record Browser : Type := {
  armed : list (positive * number);
  next_timer : positive;
  clock : Z;
  isSecureContext : bool;
  mediaDevices : bool;
  visible : bool;
  stopped_streams : list MediaStream
}.

(** A [PlateScanner] on the scanner page, after [init].  The elements of the
    page are all there. *)
Record PlateScanner : Type := {
  stream : option MediaStream;
  timer : option positive;
  worker : bool;
  inputs : Inputs;
  display : Display;
  browser : Browser
}.

Definition set_stream (v : option MediaStream) (s : PlateScanner) : PlateScanner :=
  {| stream := v; timer := timer s; worker := worker s;
     inputs := inputs s; display := display s; browser := browser s |}.

Definition set_timer (v : option positive) (s : PlateScanner) : PlateScanner :=
  {| stream := stream s; timer := v; worker := worker s;
     inputs := inputs s; display := display s; browser := browser s |}.

Definition set_worker (v : bool) (s : PlateScanner) : PlateScanner :=
  {| stream := stream s; timer := timer s; worker := v;
     inputs := inputs s; display := display s; browser := browser s |}.

Definition set_inputs (v : Inputs) (s : PlateScanner) : PlateScanner :=
  {| stream := stream s; timer := timer s; worker := worker s;
     inputs := v; display := display s; browser := browser s |}.

Definition set_display (v : Display) (s : PlateScanner) : PlateScanner :=
  {| stream := stream s; timer := timer s; worker := worker s;
     inputs := inputs s; display := v; browser := browser s |}.

Definition set_browser (v : Browser) (s : PlateScanner) : PlateScanner :=
  {| stream := stream s; timer := timer s; worker := worker s;
     inputs := inputs s; display := display s; browser := v |}.

Definition set_lastPlate (v : jsstring) (s : PlateScanner) : PlateScanner :=
  let d := display s in
  set_display
    {| lastPlateEl_textContent := v; logEl := logEl d; bookingBox := bookingBox d;
       startBtn_disabled := startBtn_disabled d; stopBtn_disabled := stopBtn_disabled d;
       frame_draws := frame_draws d; alerts := alerts d |} s.

Definition set_bookingBox (v : BookingBox) (s : PlateScanner) : PlateScanner :=
  let d := display s in
  set_display
    {| lastPlateEl_textContent := lastPlateEl_textContent d; logEl := logEl d;
       bookingBox := v;
       startBtn_disabled := startBtn_disabled d; stopBtn_disabled := stopBtn_disabled d;
       frame_draws := frame_draws d; alerts := alerts d |} s.

(** [startBtn.disabled = start; stopBtn.disabled = stop] *)
Definition set_buttons (start stop : bool) (s : PlateScanner) : PlateScanner :=
  let d := display s in
  set_display
    {| lastPlateEl_textContent := lastPlateEl_textContent d; logEl := logEl d;
       bookingBox := bookingBox d;
       startBtn_disabled := start; stopBtn_disabled := stop;
       frame_draws := frame_draws d; alerts := alerts d |} s.

(** [ctx.drawImage(this.video, 0, 0, width, height)] on the [frame] canvas. *)
Definition drawImage (s : PlateScanner) : PlateScanner :=
  let d := display s in
  set_display
    {| lastPlateEl_textContent := lastPlateEl_textContent d; logEl := logEl d;
       bookingBox := bookingBox d;
       startBtn_disabled := startBtn_disabled d; stopBtn_disabled := stopBtn_disabled d;
       frame_draws := S (frame_draws d); alerts := alerts d |} s.

Definition alert (msg : jsstring) (s : PlateScanner) : PlateScanner :=
  let d := display s in
  set_display
    {| lastPlateEl_textContent := lastPlateEl_textContent d; logEl := logEl d;
       bookingBox := bookingBox d;
       startBtn_disabled := startBtn_disabled d; stopBtn_disabled := stopBtn_disabled d;
       frame_draws := frame_draws d; alerts := alerts d ++ [msg] |} s.

(** [log(msg)]: the line is prepended to the log. *)
Definition log (line : LogLine) (s : PlateScanner) : PlateScanner :=
  let d := display s in
  set_display
    {| lastPlateEl_textContent := lastPlateEl_textContent d; logEl := line :: logEl d;
       bookingBox := bookingBox d;
       startBtn_disabled := startBtn_disabled d; stopBtn_disabled := stopBtn_disabled d;
       frame_draws := frame_draws d; alerts := alerts d |} s.

(** [clearTimeout(id)] *)
Definition clearTimeout (id : positive) (s : PlateScanner) : PlateScanner :=
  let b := browser s in
  set_browser
    {| armed := filter (fun t => negb (Pos.eqb (fst t) id)) (armed b);
       next_timer := next_timer b; clock := clock b;
       isSecureContext := isSecureContext b; mediaDevices := mediaDevices b;
       visible := visible b; stopped_streams := stopped_streams b |} s.

(** The wait of a timer set with [delay]: the delay as a 32-bit integer, and
    0 when that is negative. *)
Definition timer_wait (delay : number) : number :=
  Num (inject_Z (Z.max 0 (ToInt32 delay))).

(** [setTimeout(() => this.captureAndRead(), delay)]: the id of the new timer,
    which no earlier timer had.  The window keeps the wait. *)
Definition setTimeout (delay : number) (s : PlateScanner) : positive * PlateScanner :=
  let b := browser s in
  (next_timer b,
   set_browser
     {| armed := armed b ++ [(next_timer b, timer_wait delay)];
        next_timer := Pos.succ (next_timer b); clock := clock b;
        isSecureContext := isSecureContext b; mediaDevices := mediaDevices b;
        visible := visible b; stopped_streams := stopped_streams b |} s).

(** [stream.getTracks().forEach(track => track.stop())] *)
Definition stop_tracks (st : MediaStream) (s : PlateScanner) : PlateScanner :=
  let b := browser s in
  set_browser
    {| armed := armed b; next_timer := next_timer b; clock := clock b;
       isSecureContext := isSecureContext b; mediaDevices := mediaDevices b;
       visible := visible b; stopped_streams := stopped_streams b ++ [st] |} s.

(** ** Suspended methods

    [Await req k] is an [async] method stopped at an [await]: [req] is what it
    waits for and [k] the rest of the method, run with the answer on the state
    of that later moment.  A method returns the state it leaves and the tasks
    it leaves suspended: its own rest, and the [async] calls it did not
    await. *)

Inductive Request : Type -> Type :=
| Tick : Request unit                              (* a promise that is settled already *)
| Recognize : Request (Settled OcrData.t)          (* worker.recognize(canvas) *)
| Fetch (url : jsstring) : Request (Settled Response.t)
| EnumerateDevices : Request (Settled (list jsstring))  (* the deviceIds of the video inputs *)
| GetUserMedia (device : option jsstring) : Request (Settled MediaStream)
| Play : Request (Settled unit)                    (* video.play() *)
| CreateWorker : Request (Settled unit)            (* Tesseract.createWorker() *)
| LoadLanguage : Request (Settled unit)            (* worker.loadLanguage('eng') *)
| Initialize : Request (Settled unit)              (* worker.initialize('eng') *)
| CreateImageBitmap : Request (Settled unit).      (* createImageBitmap(file) *)

Local Unset Elimination Schemes.
Inductive Task : Type :=
| Await {A : Type} (req : Request A)
        (k : A -> PlateScanner -> PlateScanner * list Task).
Local Set Elimination Schemes.

Definition Outcome : Type := PlateScanner * list Task.

Definition done (s : PlateScanner) : Outcome := (s, []).

(** ** The methods of PlateScanner *)

(** [scheduleScan()] *)
Definition scheduleScan (s : PlateScanner) : PlateScanner :=
  let s1 := match timer s with
            | Some id => clearTimeout id s
            | None => s
            end in
  let interval :=
    Math_max (Num 300) (or_else (Number (intervalEl_value (inputs s1))) (Num 1500)) in
  let (id, s2) := setTimeout interval s1 in
  set_timer (Some id) s2.

(** [stopCamera()] *)
Definition stopCamera (s : PlateScanner) : PlateScanner :=
  let s1 := match timer s with
            | Some id => set_timer None (clearTimeout id s)
            | None => s
            end in
  let s2 := match stream s1 with
            | Some st => set_stream None (stop_tracks st s1)
            | None => s1
            end in
  log (Line (str "Camera stopped")) (set_buttons false true s2).

(** [x || ''] and [x || d] on a field that may be missing. *)
Definition or_text (x : option jsstring) (d : jsstring) : jsstring :=
  match x with
  | Some (c :: v) => c :: v
  | _ => d
  end.

(** [renderBooking(booking)] *)
Definition renderBooking (booking : Booking.t) (s : PlateScanner) : PlateScanner :=
  let arrivalDate := Booking.arrival booking in
  set_bookingBox
    (BookingShown
       {| Card.reg := or_text (Booking.reg booking) [];
          Card.status := or_text (Booking.status booking) (str "unknown");
          Card.customer := or_text (Booking.customer booking) [];
          Card.bookingId := or_text (Booking.bookingId booking) [];
          Card.product := or_text (Booking.product booking) [];
          Card.terminal := or_text (Booking.terminal booking) [];
          Card.arrival := arrivalDate;
          Card.phone := or_text (Booking.phone booking) [] |}) s.

Definition validRegs : list jsstring :=
  [str "AB12CDE"; str "REZ123"; str "STAR001"; str "GF12ABC"].

(** [validRegs.includes(reg)] *)
Definition includes (l : list jsstring) (x : jsstring) : bool :=
  existsb (fun y => if list_eq_dec ascii_dec y x then true else false) l.

(** [mockFetch(url)], the response its promise resolves with; [clock] is
    [Date.now()].  The body of the 404 is the text "not found". *)
Definition mockFetch (url : jsstring) (clock : Z) : Response.t :=
  let reg := toUpperCase (or_text (searchParams_get (str "reg") url) []) in
  let found := includes validRegs reg in
  if found then
    {| Response.status := 200;
       Response.body := JsonBody (JObject
         {| Booking.reg := Some reg;
            Booking.status := Some (str "due in");
            Booking.customer := Some (str "Test User");
            Booking.product := Some (str "Meet and Greet");
            Booking.terminal := Some (str "T3");
            Booking.arrival := Some (clock + 3600000)%Z;
            Booking.phone := Some (str "+44 7700 900123");
            Booking.bookingId := Some (str "SP-TEST") |}) |}
  else {| Response.status := 404; Response.body := NotJson |}.

(** The [catch] of [lookupByReg]: the "No booking found" notice. *)
Definition lookupByReg_catch (reg : jsstring) (s : PlateScanner) : PlateScanner :=
  set_bookingBox (NoBookingFound reg) s.

(** [lookupByReg] from [await response.json()] on.  Rendering null throws. *)
Definition lookupByReg_json (reg : jsstring) (response : Response.t)
    (_ : unit) (s : PlateScanner) : Outcome :=
  match Response.body response with
  | JsonBody (JObject data) => done (renderBooking data s)
  | JsonBody JNull | NotJson => done (lookupByReg_catch reg s)
  end.

(** [lookupByReg] from the answer of the fetch on. *)
Definition lookupByReg_response (reg : jsstring) (r : Settled Response.t)
    (s : PlateScanner) : Outcome :=
  match r with
  | Rejected _ => done (lookupByReg_catch reg s)
  | Fulfilled response =>
      if negb (Response.ok response) then done (lookupByReg_catch reg s)
      else (s, [Await Tick (lookupByReg_json reg response)])
  end.

Definition bookings_url (reg : jsstring) : jsstring :=
  str "/api/bookings?reg=" ++ encodeURIComponent reg.

(** [lookupByReg(reg)] *)
Definition lookupByReg (reg : jsstring) (s : PlateScanner) : Outcome :=
  let url := bookings_url reg in
  if mockToggle_checked (inputs s) then
    let response := mockFetch url (clock (browser s)) in
    (s, [Await Tick (fun _ => lookupByReg_response reg (Fulfilled response))])
  else (s, [Await (Fetch url) (lookupByReg_response reg)]).

(** [text.replace(/(.{2})(.{2})(.{3})/, '$1$2 $3')]: a space enters after
    the fourth of the first seven units in a row that hold no line
    terminator. *)
Fixpoint spaced (s : jsstring) : jsstring :=
  match s with
  | [] => []
  | c :: s' =>
      if (7 <=? length s)
         && forallb (fun u => negb ((code u =? 10) || (code u =? 13))) (firstn 7 s)
      then firstn 4 s ++ " "%char :: skipn 4 s
      else c :: spaced s'
  end.

(** [handleOCRResult(data)] *)
Definition handleOCRResult (data : OcrData.t) (s : PlateScanner) : Outcome :=
  match normalisePlate (OcrData.text data) with
  | Some (c :: p) =>
      let plate := c :: p in
      let s1 := set_lastPlate (spaced plate) s in
      let confidence := Math_round (or_else
        (match OcrData.confidence data with Some n => n | None => NaN end) (Num 55)) in
      let s2 := log (Detected plate confidence) s1 in
      let threshold := or_else (Number (confidenceEl_value (inputs s2))) (Num 45) in
      if ge confidence threshold then lookupByReg plate s2 else done s2
  | _ => done (log (Line (str "No plate matched")) s)
  end.

(** [captureAndRead] from the answer of [worker.recognize] on: the [try], its
    [catch] and its [finally]. *)
Definition captureAndRead_resume (r : Settled OcrData.t) (s : PlateScanner) : Outcome :=
  let (s1, lookups) :=
    match r with
    | Fulfilled data => handleOCRResult data s
    | Rejected _ => done (log (Line (str "OCR error")) s)
    end in
  ((if autoCapture_checked (inputs s1) then scheduleScan s1 else s1), lookups).

(** [captureAndRead()].  The guard's [!this.video] is false on the scanner
    page; the size of the frame is floating point arithmetic on the video's
    dimensions and is left out. *)
Definition captureAndRead (s : PlateScanner) : Outcome :=
  match stream s, worker s with
  | Some _, true => (drawImage s, [Await Recognize captureAndRead_resume])
  | _, _ => done s
  end.

(** [issues.join(' | ')] *)
Fixpoint join (sep : jsstring) (l : list jsstring) : jsstring :=
  match l with
  | [] => []
  | [x] => x
  | x :: l' => x ++ sep ++ join sep l'
  end.

(** [showEnvWarnings()], as far as the log goes. *)
Definition showEnvWarnings (s : PlateScanner) : PlateScanner :=
  let b := browser s in
  let issues :=
    (if isSecureContext b then []
     else [str "This page is not on HTTPS or localhost. Browsers block camera on insecure origins."])
    ++ (if mediaDevices b then []
        else [str "This browser does not support media devices."])
    ++ (if visible b then [] else [str "Tab is not active."]) in
  match issues with
  | [] => s
  | _ => log (Line (str "Environment warning: " ++ join (str " | ") issues)) s
  end.

Definition has_name (e : Error.t) (name : string) : bool :=
  if list_eq_dec ascii_dec (Error.name e) (str name) then true else false.

(** [error.message || error] in a message: the text of the error is its name
    when it has no message. *)
Definition message_or_error (e : Error.t) : jsstring :=
  or_text (Some (Error.message e)) (Error.name e).

(** The [catch] of [startCamera]. *)
Definition startCamera_catch (e : Error.t) (s : PlateScanner) : PlateScanner :=
  if has_name e "NotAllowedError" || has_name e "PermissionDeniedError" then
    alert (str "Camera permission denied by the browser. Use the Upload option or enable camera access in site settings.")
      (log (Line (str "Camera permission denied. Use Upload fallback or allow access in browser settings.")) s)
  else if has_name e "NotFoundError" then
    alert (str "No camera device found. Use Upload fallback.")
      (log (Line (str "No camera device found.")) s)
  else
    alert (str "Camera failed: " ++ message_or_error e)
      (log (Line (str "Camera failed: " ++ message_or_error e)) s).

(** [startCamera] after the worker is there: the last lines of its [try]. *)
Definition startCamera_finish (s : PlateScanner) : PlateScanner :=
  if autoCapture_checked (inputs s) then scheduleScan s else s.

Definition startCamera_initialized (r : Settled unit) (s : PlateScanner) : Outcome :=
  match r with
  | Fulfilled _ => done (startCamera_finish (log (Line (str "OCR ready")) s))
  | Rejected e => done (startCamera_catch e s)
  end.

Definition startCamera_loaded (r : Settled unit) (s : PlateScanner) : Outcome :=
  match r with
  | Fulfilled _ => (s, [Await Initialize startCamera_initialized])
  | Rejected e => done (startCamera_catch e s)
  end.

Definition startCamera_worker (r : Settled unit) (s : PlateScanner) : Outcome :=
  match r with
  | Fulfilled _ => (set_worker true s, [Await LoadLanguage startCamera_loaded])
  | Rejected e => done (startCamera_catch e s)
  end.

Definition startCamera_playing (r : Settled unit) (s : PlateScanner) : Outcome :=
  match r with
  | Fulfilled _ =>
      let s1 := log (Line (str "Camera started")) (set_buttons true false s) in
      if worker s1 then done (startCamera_finish s1)
      else (s1, [Await CreateWorker startCamera_worker])
  | Rejected e => done (startCamera_catch e s)
  end.

Definition startCamera_stream (r : Settled MediaStream) (s : PlateScanner) : Outcome :=
  match r with
  | Fulfilled st => (set_stream (Some st) s, [Await Play startCamera_playing])
  | Rejected e => done (startCamera_catch e s)
  end.

Definition set_cameraSelect (v : jsstring) (s : PlateScanner) : PlateScanner :=
  let i := inputs s in
  set_inputs
    {| autoCapture_checked := autoCapture_checked i;
       intervalEl_value := intervalEl_value i;
       confidenceEl_value := confidenceEl_value i;
       mockToggle_checked := mockToggle_checked i;
       manualPlate_value := manualPlate_value i;
       cameraSelect_value := v |} s.

(** [startCamera] from the answer of [enumerateDevices] on: the rest of
    [listCameras], which fills the select so that its value is the first
    device's id, and the request for the stream. *)
Definition startCamera_listed (r : Settled (list jsstring)) (s : PlateScanner) : Outcome :=
  let s1 := match r with
            | Fulfilled videoDevices => set_cameraSelect (hd [] videoDevices) s
            | Rejected e => log (Line (str "Error listing cameras: " ++ Error.message e)) s
            end in
  let device := match cameraSelect_value (inputs s1) with
                | [] => None
                | id => Some id
                end in
  (s1, [Await (GetUserMedia device) startCamera_stream]).

(** [startCamera] after [await this.updatePermissionState()], which writes
    the permission badge only. *)
Definition startCamera_checks (_ : unit) (s : PlateScanner) : Outcome :=
  if negb (isSecureContext (browser s)) then
    done (alert (str "Browser policy: camera only works on HTTPS or localhost. Use your https domain or run on localhost.") s)
  else if negb (mediaDevices (browser s)) then
    done (alert (str "Camera not supported in this browser") s)
  else (s, [Await EnumerateDevices startCamera_listed]).

(** [startCamera()] *)
Definition startCamera (s : PlateScanner) : Outcome :=
  (showEnvWarnings s, [Await Tick startCamera_checks]).

(** The [catch] of the file input's listener. *)
Definition upload_catch (e : Error.t) (s : PlateScanner) : PlateScanner :=
  log (Line (str "Error processing uploaded image: " ++ Error.message e)) s.

Definition upload_recognized (r : Settled OcrData.t) (s : PlateScanner) : Outcome :=
  match r with
  | Fulfilled data => handleOCRResult data s
  | Rejected e => done (upload_catch e s)
  end.

Definition upload_initialized (r : Settled unit) (s : PlateScanner) : Outcome :=
  match r with
  | Fulfilled _ => (s, [Await Recognize upload_recognized])
  | Rejected e => done (upload_catch e s)
  end.

Definition upload_loaded (r : Settled unit) (s : PlateScanner) : Outcome :=
  match r with
  | Fulfilled _ => (s, [Await Initialize upload_initialized])
  | Rejected e => done (upload_catch e s)
  end.

Definition upload_worker (r : Settled unit) (s : PlateScanner) : Outcome :=
  match r with
  | Fulfilled _ => (set_worker true s, [Await LoadLanguage upload_loaded])
  | Rejected e => done (upload_catch e s)
  end.

(** [doOCRFromImageBitmap(bitmap)] inside the listener's [try]. *)
Definition doOCRFromImageBitmap (r : Settled unit) (s : PlateScanner) : Outcome :=
  match r with
  | Fulfilled _ =>
      if worker s then (s, [Await Recognize upload_recognized])
      else (s, [Await CreateWorker upload_worker])
  | Rejected e => done (upload_catch e s)
  end.

(** ** The listeners *)

Inductive UIEvent : Type :=
| StartClick
| StopClick
| CameraChange (value : jsstring)
| IntervalChange (value : jsstring)
| AutoCaptureChange (checked : bool)
| LookupClick
| FileChange (chosen : bool)
(* controls without a listener *)
| ConfidenceInput (value : jsstring)
| MockToggle (checked : bool)
| ManualPlateInput (value : jsstring).

Definition set_autoCapture (v : bool) (s : PlateScanner) : PlateScanner :=
  let i := inputs s in
  set_inputs
    {| autoCapture_checked := v;
       intervalEl_value := intervalEl_value i;
       confidenceEl_value := confidenceEl_value i;
       mockToggle_checked := mockToggle_checked i;
       manualPlate_value := manualPlate_value i;
       cameraSelect_value := cameraSelect_value i |} s.

Definition set_interval (v : jsstring) (s : PlateScanner) : PlateScanner :=
  let i := inputs s in
  set_inputs
    {| autoCapture_checked := autoCapture_checked i;
       intervalEl_value := v;
       confidenceEl_value := confidenceEl_value i;
       mockToggle_checked := mockToggle_checked i;
       manualPlate_value := manualPlate_value i;
       cameraSelect_value := cameraSelect_value i |} s.

Definition set_confidence (v : jsstring) (s : PlateScanner) : PlateScanner :=
  let i := inputs s in
  set_inputs
    {| autoCapture_checked := autoCapture_checked i;
       intervalEl_value := intervalEl_value i;
       confidenceEl_value := v;
       mockToggle_checked := mockToggle_checked i;
       manualPlate_value := manualPlate_value i;
       cameraSelect_value := cameraSelect_value i |} s.

Definition set_mockToggle (v : bool) (s : PlateScanner) : PlateScanner :=
  let i := inputs s in
  set_inputs
    {| autoCapture_checked := autoCapture_checked i;
       intervalEl_value := intervalEl_value i;
       confidenceEl_value := confidenceEl_value i;
       mockToggle_checked := v;
       manualPlate_value := manualPlate_value i;
       cameraSelect_value := cameraSelect_value i |} s.

Definition set_manualPlate (v : jsstring) (s : PlateScanner) : PlateScanner :=
  let i := inputs s in
  set_inputs
    {| autoCapture_checked := autoCapture_checked i;
       intervalEl_value := intervalEl_value i;
       confidenceEl_value := confidenceEl_value i;
       mockToggle_checked := mockToggle_checked i;
       manualPlate_value := v;
       cameraSelect_value := cameraSelect_value i |} s.

(** The listeners of [initializeEventListeners]; a change event brings the
    control's new value. *)
Definition dispatch (e : UIEvent) (s : PlateScanner) : Outcome :=
  match e with
  | StartClick => startCamera s
  | StopClick => done (stopCamera s)
  | CameraChange v =>
      let s := set_cameraSelect v s in
      match stream s with
      | Some _ => startCamera (stopCamera s)
      | None => done s
      end
  | IntervalChange v =>
      let s := set_interval v s in
      match timer s with
      | Some _ => done (scheduleScan s)
      | None => done s
      end
  | AutoCaptureChange checked =>
      let s := set_autoCapture checked s in
      if checked then done (scheduleScan s)
      else match timer s with
           | Some id => done (set_timer None (clearTimeout id s))
           | None => done s
           end
  | LookupClick =>
      let val := strip_spaces (toUpperCase (trim (manualPlate_value (inputs s)))) in
      match val with
      | [] => done s
      | _ => lookupByReg val (set_lastPlate (spaced val) s)
      end
  | FileChange chosen =>
      if chosen then (s, [Await CreateImageBitmap doOCRFromImageBitmap]) else done s
  | ConfidenceInput v => done (set_confidence v s)
  | MockToggle checked => done (set_mockToggle checked s)
  | ManualPlateInput v => done (set_manualPlate v s)
  end.

(** ** The event loop *)

(** The timer [id] fires: the window disarms it and runs its callback,
    [() => this.captureAndRead()].  A timer that is not armed does not fire. *)
Definition fire (id : positive) (s : PlateScanner) : option Outcome :=
  if existsb (fun t => Pos.eqb (fst t) id) (armed (browser s))
  then Some (captureAndRead (clearTimeout id s))
  else None.

Definition advance_clock (dt : Z) (s : PlateScanner) : PlateScanner :=
  let b := browser s in
  set_browser
    {| armed := armed b; next_timer := next_timer b; clock := (clock b + Z.abs dt)%Z;
       isSecureContext := isSecureContext b; mediaDevices := mediaDevices b;
       visible := visible b; stopped_streams := stopped_streams b |} s.

(** A configuration: the scanner and the suspended tasks. *)
Definition Config : Type := PlateScanner * list Task.

(** One turn of the event loop: a listener runs, an armed timer fires, a
    suspended task goes on with an answer, or time passes. *)
Inductive step : Config -> Config -> Prop :=
| step_ui (e : UIEvent) s pool :
    step (s, pool) (fst (dispatch e s), pool ++ snd (dispatch e s))
| step_timer (id : positive) s pool out :
    fire id s = Some out ->
    step (s, pool) (fst out, pool ++ snd out)
| step_resume {A : Type} (req : Request A) k (a : A) s pool1 pool2 :
    step (s, pool1 ++ Await req k :: pool2)
         (fst (k a s), pool1 ++ pool2 ++ snd (k a s))
| step_clock (dt : Z) s pool :
    step (s, pool) (advance_clock dt s, pool).

(** The scanner as the page loads: no stream, no timer, no worker, nothing
    armed, nothing suspended. *)
Definition fresh (c : Config) : Prop :=
  stream (fst c) = None /\ timer (fst c) = None /\ worker (fst c) = false /\
  armed (browser (fst c)) = [] /\ snd c = [].

Inductive reachable : Config -> Prop :=
| reachable_fresh c : fresh c -> reachable c
| reachable_step c c' : reachable c -> step c c' -> reachable c'.

(** ** runTests *)

Definition testCases : list (jsstring * option jsstring) :=
  [ (str "AB12 CDE", Some (str "AB12CDE"));
    (str "ab12cde", Some (str "AB12CDE"));
    (str "0O12 CDE", Some (str "0012CDE"));
    (str "A1 REZ", Some (str "A1REZ"));
    (str "STAR 1", Some (str "STAR1"));
    (str "bad text no plate", None);
    (str "GF12 ABC parked", Some (str "GF12ABC")) ].

(** [result === expected] *)
Definition same_result (a b : option jsstring) : bool :=
  match a, b with
  | None, None => true
  | Some x, Some y => if list_eq_dec ascii_dec x y then true else false
  | _, _ => false
  end.

(** [runTests()]: the inputs that pass and those that fail, in order. *)
Definition runTests : list jsstring * list jsstring :=
  fold_left
    (fun acc test =>
       let '(input, expected) := test in
       if same_result (normalisePlate (Some input)) expected
       then (fst acc ++ [input], snd acc)
       else (fst acc, snd acc ++ [input]))
    testCases ([], []).

(** ** Validation.rules

    The two patterns are anchored with [^] and [$] and carry no flag, so
    [test] succeeds exactly when the pattern matches from the first unit to
    the last.  Each is a chain of the matcher's continuations: [greedy] for a
    quantified class, [at_end] for [$]. *)

(** [$] *)
Definition at_end : cont :=
  fun _ s => match s with [] => Some [] | _ :: _ => None end.

(** [cls+]: no bound on the iterations but the length of the input. *)
Definition plus (cls : ascii -> bool) (k : cont) : cont :=
  fun prev s => greedy cls 1 (length s) k prev s.

(** A single literal unit. *)
Definition lit (c : ascii) (k : cont) : cont := greedy (Ascii.eqb c) 1 1 k.

(** [re.test(value)] for a pattern that starts with [^]. *)
Definition test (re : cont) (value : jsstring) : bool :=
  match re None value with Some _ => true | None => false end.

(** [[^\s@]] *)
Definition not_space_or_at (c : ascii) : bool :=
  negb (is_space c || (code c =? 64)).

(** [[0-9\s\-\(\)]] *)
Definition phone_unit (c : ascii) : bool :=
  is_digit c || is_space c || (code c =? 45) || (code c =? 40) || (code c =? 41).

(** [required: (value) => value.trim().length > 0] *)
Definition rules_required (value : jsstring) : bool :=
  0 <? length (trim value).

(** [email: (value) => /^[^\s@]+@[^\s@]+\.[^\s@]+$/.test(value)] *)
Definition rules_email (value : jsstring) : bool :=
  test (plus not_space_or_at
          (lit "@" (plus not_space_or_at
                      (lit "." (plus not_space_or_at at_end))))) value.

(** [phone: (value) => /^[\+]?[0-9\s\-\(\)]+$/.test(value)] *)
Definition rules_phone (value : jsstring) : bool :=
  test (greedy (Ascii.eqb "+") 0 1 (plus phone_unit at_end)) value.

(** [minLength: (min) => (value) => value.trim().length >= min] *)
Definition rules_minLength (min : nat) (value : jsstring) : bool :=
  min <=? length (trim value).

(** ** Validation.validateForm *)

(** A required control of the form: [input.name || input.id], [input.type]
    and [input.value]. *)
Module Input.
Record t : Type := { name : jsstring; type : jsstring; value : jsstring }.
End Input.

(** The [errors] object: its own properties, each name once. *)
Definition Errors : Type := list (jsstring * jsstring).

Definition same_text (a b : jsstring) : bool :=
  if list_eq_dec ascii_dec a b then true else false.

(** [errors[name] = message].  An assignment to [__proto__] with a string
    does nothing: the object gets no property. *)
Fixpoint assign (name message : jsstring) (errors : Errors) : Errors :=
  match errors with
  | [] => [(name, message)]
  | (n, m) :: rest =>
      if same_text n name then (n, message) :: rest
      else (n, m) :: assign name message rest
  end.

Definition set_error (name message : jsstring) (errors : Errors) : Errors :=
  if same_text name (str "__proto__") then errors else assign name message errors.

(** The body of the [forEach] of [validateForm], for one control of
    [input[required], textarea[required], select[required]]. *)
Definition validateInput (errors : Errors) (input : Input.t) : Errors :=
  let value := Input.value input in
  let name := Input.name input in
  let errors :=
    if negb (rules_required value)
    then set_error name (str "This field is required") errors else errors in
  let errors :=
    if negb (length value =? 0) && same_text (Input.type input) (str "email")
       && negb (rules_email value)
    then set_error name (str "Please enter a valid email address") errors
    else errors in
  if negb (length value =? 0) && same_text (Input.type input) (str "tel")
     && negb (rules_phone value)
  then set_error name (str "Please enter a valid phone number") errors
  else errors.

(** [validateForm(formElement)], on the required controls of the form in
    document order. *)
Definition validateForm (inputs : list Input.t) : Errors :=
  fold_left validateInput inputs [].
(** ** Vocabulary of the statements about [normalisePlate] *)

(** The code unit before the position reached after [run]. *)
Definition last_unit (prev : option ascii) (run : jsstring) : option ascii :=
  fold_left (fun _ c => Some c) run prev.

(** The shape both plate patterns share. *)
Definition plate_pattern (a1 a2 b1 b2 c1 c2 : nat) : regex :=
  [WordBoundary; Repeat is_upper a1 a2; Repeat is_digit b1 b2;
   Repeat is_space 0 1; Repeat is_upper c1 c2; WordBoundary].

(** Letters, digits and letters again, with the lengths the pattern allows. *)
Definition plate_shape (a1 a2 b1 b2 c1 c2 : nat) (p : jsstring) : Prop :=
  exists l d l',
    p = l ++ d ++ l' /\
    Forall (fun c => is_upper c = true) l /\ a1 <= length l <= a2 /\
    Forall (fun c => is_digit c = true) d /\ b1 <= length d <= b2 /\
    Forall (fun c => is_upper c = true) l' /\ c1 <= length l' <= c2.

(** The pattern yields a match in [t]. *)
Definition yields_match (t : jsstring) (re : regex) : bool :=
  match matchAll re t with [] => false | _ :: _ => true end.

(** [best] is the candidate of a match of [ms] that the sort puts first: no
    candidate has a smaller key, and no match with the same key starts before
    it. *)
Definition first_candidate (ms : list RegExpMatch) (best : jsstring) : Prop :=
  exists m, In m ms /\ best = strip_spaces (group1 m) /\
    forall m', In m' ms ->
      (distance_to_7 best <= distance_to_7 (strip_spaces (group1 m')))%Z /\
      (distance_to_7 (strip_spaces (group1 m')) = distance_to_7 best ->
       index m <= index m').

(** [b] is [s] without its white space: the other units of [s], in their
    order. *)
Inductive without_spaces : jsstring -> jsstring -> Prop :=
| without_spaces_nil : without_spaces [] []
| without_spaces_skip c s b :
    is_space c = true -> without_spaces s b -> without_spaces (c :: s) b
| without_spaces_keep c s b :
    is_space c = false -> without_spaces s b -> without_spaces (c :: s) (c :: b).

(** How far a text is from 7 code units. *)
Definition off_7 (b : jsstring) : Z := Z.abs (Z.of_nat (length b) - 7).

(** [best] holds no white space and is a match of [ms] without its white
    space; without theirs, no match of [ms] is closer to 7 code units, and
    none that is as close starts before it. *)
Definition closest_to_7 (ms : list RegExpMatch) (best : jsstring) : Prop :=
  Forall (fun c => is_space c = false) best /\
  exists m, In m ms /\ without_spaces (group1 m) best /\
    forall m' b', In m' ms -> without_spaces (group1 m') b' ->
      (off_7 best <= off_7 b')%Z /\
      (off_7 b' = off_7 best -> index m <= index m').

(** A code unit of the cleaned text: in [[A-Z0-9 ]] and not the letter O. *)
Definition clean_unit (c : ascii) : Prop :=
  (is_upper c = true \/ is_digit c = true \/ code c = 32) /\ code c <> 79.

(** The first element of the least key. *)
Fixpoint leftmost_min {A : Type} (key : A -> Z) (l : list A) : option A :=
  match l with
  | [] => None
  | x :: l' =>
      match leftmost_min key l' with
      | None => Some x
      | Some y => if (key x <=? key y)%Z then Some x else Some y
      end
  end.

(** ** Vocabulary of the statements about the timer *)

(** At most one timer is armed, and [this.timer] holds the id of the armed
    one. *)
Definition timer_invariant (s : PlateScanner) : Prop :=
  armed (browser s) = [] \/
  exists id delay, armed (browser s) = [(id, delay)] /\ timer s = Some id.

(** Whatever answer the task goes on with, in a state where [P] holds, [P]
    holds in the state it leaves, and the tasks it leaves suspended keep [P]
    as well. *)
Fixpoint keeps (P : PlateScanner -> Prop) (t : Task) : Prop :=
  match t with
  | Await req k =>
      forall a s, P s ->
        P (fst (k a s)) /\
        (fix all (l : list Task) : Prop :=
           match l with
           | [] => True
           | t' :: l' => keeps P t' /\ all l'
           end) (snd (k a s))
  end.

(** ** A session, for the examples

    The scanner page as it loads, with auto-capture on and the mock service
    chosen; then the camera started on it, a scan under way, and the camera
    stopped while the scan is under way. *)

Definition page_inputs : Inputs :=
  {| autoCapture_checked := true;
     intervalEl_value := str "1500";
     confidenceEl_value := str "45";
     mockToggle_checked := true;
     manualPlate_value := [];
     cameraSelect_value := [] |}.

Definition blank_display : Display :=
  {| lastPlateEl_textContent := [];
     logEl := [];
     bookingBox := Untouched;
     startBtn_disabled := false;
     stopBtn_disabled := true;
     frame_draws := 0;
     alerts := [] |}.

Definition secure_window : Browser :=
  {| armed := [];
     next_timer := 1;
     clock := 0;
     isSecureContext := true;
     mediaDevices := true;
     visible := true;
     stopped_streams := [] |}.

Definition loaded_page : PlateScanner :=
  {| stream := None; timer := None; worker := false;
     inputs := page_inputs; display := blank_display; browser := secure_window |}.

Definition rear_camera : MediaStream := {| deviceId := Some (str "cam0") |}.

(** Start is clicked and every step of [startCamera] succeeds. *)
Definition scanning : PlateScanner :=
  let s := fst (startCamera loaded_page) in
  let s := fst (startCamera_checks tt s) in
  let s := fst (startCamera_listed (Fulfilled [str "cam0"]) s) in
  let s := fst (startCamera_stream (Fulfilled rear_camera) s) in
  let s := fst (startCamera_playing (Fulfilled tt) s) in
  let s := fst (startCamera_worker (Fulfilled tt) s) in
  let s := fst (startCamera_loaded (Fulfilled tt) s) in
  fst (startCamera_initialized (Fulfilled tt) s).



(** The answer of the worker: a plate read with confidence 90. *)
Definition plate_read : OcrData.t :=
  {| OcrData.text := Some (str "AB12 CDE"); OcrData.confidence := Some (Num 90) |}.


(** ** Vocabulary of the statements about the confidence gate *)

(** The [confidence] of [handleOCRResult]. *)
Definition gate_confidence (data : OcrData.t) : number :=
  Math_round (or_else
    (match OcrData.confidence data with Some n => n | None => NaN end) (Num 55)).

(** The [threshold] of [handleOCRResult]. *)
Definition gate_threshold (s : PlateScanner) : number :=
  or_else (Number (confidenceEl_value (inputs s))) (Num 45).

(** ** Vocabulary of the statements about the booking lookup *)

(** What the booking box shows when a method has left [o]. *)
Definition box_after (o : Outcome) : BookingBox := bookingBox (display (fst o)).

(** A lookup of [plate] has begun: one task is left suspended, and it waits
    for the fetch of the plate's URL when the mock is off, for the promise of
    [mockFetch], which is settled already, when it is on. *)
Definition lookup_begun (plate : jsstring) (mock : bool) (tasks : list Task) : Prop :=
  match tasks with
  | [Await req _] =>
      match req with
      | Fetch url => mock = false /\ url = bookings_url plate
      | Tick => mock = true
      | _ => False
      end
  | _ => False
  end.

(** A text that cannot begin a numeric literal: its first unit is no white
    space, no digit, no sign, no point and not the I of Infinity. *)
Definition starts_no_number (v : jsstring) : Prop :=
  match v with
  | c :: _ =>
      is_space c = false /\ is_digit c = false /\
      ~ In c ["+"; "-"; "."; "I"]%char
  | [] => False
  end.

(** ** Vocabulary of the further statements *)

(** The bytes of the UTF-8 form of a unit. *)
Definition utf8_bytes (c : ascii) : jsstring :=
  if code c <? 128 then [c]
  else [ascii_of_nat (192 + code c / 64); ascii_of_nat (128 + code c mod 64)].

(** A unit of an escaped component: unreserved, or part of a [%XX]. *)
Definition url_safe (c : ascii) : bool := unreserved c || (code c =? 37).

(** [String.prototype.toLowerCase] on 8-bit units: A-Z and the accented
    capitals of Latin-1 move up by 32 (215 is the multiplication sign).  On
    Latin-1 text the lower-casing of the language is this map, unit by unit;
    beyond Latin-1 it is not (a capital sigma depends on its place in the
    word, and the Kelvin sign becomes k). *)
Definition lower_unit (c : ascii) : ascii :=
  if is_upper c || (in_range 192 222 c && negb (code c =? 215))
  then ascii_of_nat (code c + 32)
  else c.

Definition toLowerCase (s : jsstring) : jsstring := map lower_unit s.

(** A unit [normalisePlate] deletes: not a letter of a-z or A-Z, not a digit,
    not a space or a line feed, and not the sharp s, which upper-cases to
    letters. *)
Definition deleted_unit (c : ascii) : bool :=
  negb (is_upper c || is_lower c || is_digit c
        || (code c =? 32) || (code c =? 10) || (code c =? 223)).

(** The wait of a scan timer armed while the interval field holds [v]. *)
Definition wait_of (v : jsstring) : number :=
  timer_wait (Math_max (Num 300) (or_else (Number v) (Num 1500))).

(** The wait of a scan timer armed while the interval field holds what it
    holds in [s]. *)
Definition scan_wait (s : PlateScanner) : number :=
  wait_of (intervalEl_value (inputs s)).

(** Every armed timer waits what the interval field asks for now. *)
Definition waits_follow_interval (s : PlateScanner) : Prop :=
  Forall (fun t => snd t = scan_wait s) (armed (browser s)).

(** The scanner with the interval field set to 3000000000 and auto-capture
    ticked on the page just loaded. *)
Definition hasty : PlateScanner :=
  fst (dispatch (AutoCaptureChange true)
         (fst (dispatch (IntervalChange (str "3000000000")) loaded_page))).

(** The message [errors[name]], if the object has the property. *)
Fixpoint lookup_error (name : jsstring) (errors : Errors) : option jsstring :=
  match errors with
  | [] => None
  | (n, m) :: rest => if same_text n name then Some m else lookup_error name rest
  end.

(** A required control passes: some unit of its value is not white space, an
    [email] control holds an address and a [tel] control a phone number. *)
Definition input_valid (i : Input.t) : Prop :=
  rules_required (Input.value i) = true /\
  (Input.type i = str "email" -> rules_email (Input.value i) = true) /\
  (Input.type i = str "tel" -> rules_phone (Input.value i) = true).

(** The message a control earns on its own. *)
Definition verdict (i : Input.t) : option jsstring :=
  match Input.value i with
  | [] => Some (str "This field is required")
  | _ :: _ =>
      if same_text (Input.type i) (str "tel") && negb (rules_phone (Input.value i))
      then Some (str "Please enter a valid phone number")
      else if same_text (Input.type i) (str "email")
                && negb (rules_email (Input.value i))
      then Some (str "Please enter a valid email address")
      else if rules_required (Input.value i) then None
      else Some (str "This field is required")
  end.

(** A text of ASCII units.  On these the case mappings of the language are
    the two maps between a-z and A-Z. *)
Definition ascii_text (x : jsstring) : Prop := Forall (fun c => code c < 128) x.




(** * The complaints desk

    [AppState] keeps the tickets; the handlers of [ComplaintsDeskApp] and the
    two global functions change them.  [notify] runs the subscribed
    renderers, which read the state and write the page: the page is not part
    of this model, so a handler is the change it makes to the state and the
    toast it shows.  What a handler reads from a control is an argument of
    its model. *)

(** A text made by [toISOString], known by the instant it denotes
    (milliseconds since the epoch). *)
Definition ISOString : Type := Z.

Module Customer.
Record t : Type :=
  { name : jsstring; email : jsstring; phone : jsstring; address : jsstring }.
End Customer.

Module TicketBooking.
Record t : Type := { reg : jsstring; terminal : jsstring; driverName : jsstring }.
End TicketBooking.

(** [file] is the selected [File], known by its name; [null] and a missing
    property are both [None] (the code never reads it). *)
Module Evidence.
Record t : Type := {
  id : jsstring;
  kind : jsstring;
  name : option jsstring;
  takenAt : option ISOString;
  file : option jsstring
}.
End Evidence.

Module Complaint.
Record t : Type := {
  damageTypes : list jsstring;
  description : jsstring;
  images : list Evidence.t;
  videos : list Evidence.t;
  customerNotifiedDriver : bool;
  incidentDate : jsstring
}.
End Complaint.

Module TicketOutcome.
Record t : Type := {
  decision : jsstring;
  solution : option jsstring;
  rejectReason : option jsstring;
  liabilityAccepted : option bool;
  falseClaimFlag : option bool
}.
End TicketOutcome.

Module Repair.
Record t : Type := {
  repairer : jsstring;
  claimAmount : option number;
  timeframeDays : option number;
  scheduledDate : option jsstring;
  scheduledWindow : jsstring;
  preferredTime : jsstring;
  parkingAvailable : bool;
  powerAvailable : bool
}.
End Repair.

Module Admin.
Record t : Type := {
  findings : option jsstring;
  supportingDocs : list Evidence.t;
  supportingImages : list Evidence.t;
  supportingVideos : list Evidence.t;
  outcome : option TicketOutcome.t;
  repair : option Repair.t
}.
End Admin.

(** An entry of the audit trail; [at_] is its [at]. *)
Module Audit.
Record t : Type := { at_ : ISOString; who : jsstring; action : jsstring }.
End Audit.

Module Ticket.
Record t : Type := {
  id : jsstring;
  createdAt : ISOString;
  nature : jsstring;
  informedTiming : option jsstring;
  customer : Customer.t;
  booking : TicketBooking.t;
  complaint : Complaint.t;
  admin : Admin.t;
  status : jsstring;
  audit : list Audit.t
}.
End Ticket.

(** The fields of [AppState] ([listeners] apart). *)
Record AppState : Type := {
  tickets : list Ticket.t;
  activeTicketId : option jsstring;
  currentTab : jsstring;
  searchQuery : jsstring
}.

Definition set_tickets (l : list Ticket.t) (a : AppState) : AppState :=
  {| tickets := l; activeTicketId := activeTicketId a;
     currentTab := currentTab a; searchQuery := searchQuery a |}.

(** [setState('activeTicketId', value)] *)
Definition setState_activeTicketId (value : option jsstring) (a : AppState) : AppState :=
  {| tickets := tickets a; activeTicketId := value;
     currentTab := currentTab a; searchQuery := searchQuery a |}.

(** [setState('currentTab', value)] *)
Definition setState_currentTab (value : jsstring) (a : AppState) : AppState :=
  {| tickets := tickets a; activeTicketId := activeTicketId a;
     currentTab := value; searchQuery := searchQuery a |}.

(** [setState('searchQuery', value)] *)
Definition setState_searchQuery (value : jsstring) (a : AppState) : AppState :=
  {| tickets := tickets a; activeTicketId := activeTicketId a;
     currentTab := currentTab a; searchQuery := value |}.

(** The constructor with [initializeSeedData], at the instant [now] of
    [Date.now()]. *)
Definition initializeSeedData (now : Z) : AppState :=
  let seedTicket :=
    {| Ticket.id := str "T-1001";
       Ticket.createdAt := (now - 86400000)%Z;
       Ticket.nature := str "Damage";
       Ticket.informedTiming := Some (str "Before leaving official ground");
       Ticket.customer :=
         {| Customer.name := str "John Hamilton";
            Customer.email := str "john@example.com";
            Customer.phone := str "+447700900001";
            Customer.address := str "10 Bay Rd, TW6" |};
       Ticket.booking :=
         {| TicketBooking.reg := str "AB12CDE";
            TicketBooking.terminal := str "T5";
            TicketBooking.driverName := str "A. Singh" |};
       Ticket.complaint :=
         {| Complaint.damageTypes := [str "Scratch"];
            Complaint.description := str "Scratch near rear bumper.";
            Complaint.images :=
              [{| Evidence.id := str "e1"; Evidence.kind := str "image";
                  Evidence.name := Some (str "rear_bumper.jpg");
                  Evidence.takenAt := Some 1758377100000%Z;
                  Evidence.file := None |}];
            Complaint.videos := [];
            Complaint.customerNotifiedDriver := true;
            Complaint.incidentDate := str "2025-09-20" |};
       Ticket.admin :=
         {| Admin.findings := Some (str "Light surface scratch.");
            Admin.supportingDocs := [];
            Admin.supportingImages := [];
            Admin.supportingVideos := [];
            Admin.outcome := None;
            Admin.repair := None |};
       Ticket.status := str "Triage";
       Ticket.audit :=
         [{| Audit.at_ := (now - 86000000)%Z; Audit.who := str "system";
             Audit.action := str "Ticket created" |}] |} in
  {| tickets := [seedTicket];
     activeTicketId := Some (Ticket.id seedTicket);
     currentTab := str "portal";
     searchQuery := [] |}.

(** [addTicket]: [unshift]. *)
Definition addTicket (ticket : Ticket.t) (a : AppState) : AppState :=
  set_tickets (ticket :: tickets a) a.

(** [Array.prototype.findIndex], [None] for -1. *)
Fixpoint findIndex {A} (p : A -> bool) (l : list A) : option nat :=
  match l with
  | [] => None
  | x :: l' => if p x then Some 0 else option_map S (findIndex p l')
  end.

(** [array[index] = value] for an index inside the array. *)
Fixpoint store {A} (index : nat) (value : A) (l : list A) : list A :=
  match l, index with
  | [], _ => []
  | _ :: l', 0 => value :: l'
  | x :: l', S i => x :: store i value l'
  end.

(** [updateTicket]: the updater gets a copy of the first ticket with the id;
    without one nothing happens. *)
Definition updateTicket (ticketId : jsstring) (updater : Ticket.t -> Ticket.t)
    (a : AppState) : AppState :=
  match findIndex (fun t => same_text (Ticket.id t) ticketId) (tickets a) with
  | Some index =>
      match nth_error (tickets a) index with
      | Some ticket => set_tickets (store index (updater ticket) (tickets a)) a
      | None => a
      end
  | None => a
  end.

(** [getTicket]: [find], [None] for [undefined]. *)
Definition getTicket (ticketId : jsstring) (a : AppState) : option Ticket.t :=
  find (fun t => same_text (Ticket.id t) ticketId) (tickets a).

(** [getActiveTicket]; no id equals [null]. *)
Definition getActiveTicket (a : AppState) : option Ticket.t :=
  match activeTicketId a with
  | Some ticketId => getTicket ticketId a
  | None => None
  end.

(** [String.prototype.startsWith] and [String.prototype.includes]. *)
Fixpoint startsWith (needle s : jsstring) : bool :=
  match needle, s with
  | [], _ => true
  | c :: needle', u :: s' => Ascii.eqb c u && startsWith needle' s'
  | _ :: _, [] => false
  end.

Fixpoint includes_text (needle s : jsstring) : bool :=
  startsWith needle s ||
  match s with
  | [] => false
  | _ :: s' => includes_text needle s'
  end.

(** [getFilteredTickets].  Every ticket has a [booking] with a [reg], so
    [ticket.booking?.reg || ''] is the reg. *)
Definition getFilteredTickets (a : AppState) : list Ticket.t :=
  if length (trim (searchQuery a)) =? 0 then tickets a
  else
    let query := toLowerCase (searchQuery a) in
    filter (fun ticket =>
              includes_text query (toLowerCase (Ticket.id ticket)) ||
              includes_text query (toLowerCase (Customer.name (Ticket.customer ticket))) ||
              includes_text query (toLowerCase (TicketBooking.reg (Ticket.booking ticket))) ||
              includes_text query (toLowerCase (Ticket.status ticket)))
           (tickets a).

(** ** The handlers *)

(** The application: its state, the names [n] for which the page has an
    element [n-tab], and the toasts shown so far as message and type. *)
Record Desk : Type := {
  state : AppState;
  tabs : list jsstring;
  toasts : list (jsstring * jsstring)
}.

Definition set_state (a : AppState) (d : Desk) : Desk :=
  {| state := a; tabs := tabs d; toasts := toasts d |}.

(** [NotificationSystem.show(message, type)] *)
Definition show (message type : jsstring) (d : Desk) : Desk :=
  {| state := state d; tabs := tabs d; toasts := toasts d ++ [(message, type)] |}.

(** [switchTab]: the state changes when the tab's element exists. *)
Definition switchTab (tabName : jsstring) (d : Desk) : Desk :=
  if existsb (same_text tabName) (tabs d)
  then set_state (setState_currentTab tabName (state d)) d
  else d.

(** What the complaint form holds at a submission: its required controls
    (for [validateForm]) and the controls [collectComplaintFormData] reads. *)
Module ComplaintForm.
Record t : Type := {
  required : list Input.t;
  nature : jsstring;
  damageTypes : list jsstring;
  informedTiming : option jsstring;
  customer : Customer.t;
  booking : TicketBooking.t;
  description : jsstring;
  incidentDate : jsstring;
  notifiedDriver : bool
}.
End ComplaintForm.

(** [createTicketFromComplaint], with the id [generateTicketId] returned and
    the instants of its two [new Date()]. *)
Definition createTicketFromComplaint (id : jsstring) (createdAt at_ : ISOString)
    (data : ComplaintForm.t) : Ticket.t :=
  {| Ticket.id := id;
     Ticket.createdAt := createdAt;
     Ticket.nature := ComplaintForm.nature data;
     Ticket.informedTiming := ComplaintForm.informedTiming data;
     Ticket.customer := ComplaintForm.customer data;
     Ticket.booking := ComplaintForm.booking data;
     Ticket.complaint :=
       {| Complaint.damageTypes := ComplaintForm.damageTypes data;
          Complaint.description := ComplaintForm.description data;
          Complaint.images := [];
          Complaint.videos := [];
          Complaint.customerNotifiedDriver := ComplaintForm.notifiedDriver data;
          Complaint.incidentDate := ComplaintForm.incidentDate data |};
     Ticket.admin :=
       {| Admin.findings := None;
          Admin.supportingDocs := [];
          Admin.supportingImages := [];
          Admin.supportingVideos := [];
          Admin.outcome := None;
          Admin.repair := None |};
     Ticket.status := str "New";
     Ticket.audit :=
       [{| Audit.at_ := at_; Audit.who := str "customer";
           Audit.action := str "Ticket created via portal" |}] |}.

(** The [errors] of [handleComplaintSubmission]. *)
Definition complaint_errors (form : ComplaintForm.t) : Errors :=
  let errors := validateForm (ComplaintForm.required form) in
  if same_text (ComplaintForm.nature form) (str "Damage")
     && (length (ComplaintForm.damageTypes form) =? 0)
  then set_error (str "damage-types")
         (str "At least one damage type is required for damage complaints") errors
  else errors.

(** [handleComplaintSubmission] *)
Definition handleComplaintSubmission (form : ComplaintForm.t) (id : jsstring)
    (createdAt at_ : ISOString) (d : Desk) : Desk :=
  if 0 <? length (complaint_errors form)
  then show (str "Please correct the errors in the form") (str "error") d
  else
    let newTicket := createTicketFromComplaint id createdAt at_ form in
    let d := set_state (addTicket newTicket (state d)) d in
    let d := set_state (setState_activeTicketId (Some (Ticket.id newTicket)) (state d)) d in
    let d := switchTab (str "desk") d in
    show (str "Ticket " ++ Ticket.id newTicket ++ str " created successfully")
         (str "success") d.

Definition set_admin (admin : Admin.t) (ticket : Ticket.t) : Ticket.t :=
  {| Ticket.id := Ticket.id ticket; Ticket.createdAt := Ticket.createdAt ticket;
     Ticket.nature := Ticket.nature ticket;
     Ticket.informedTiming := Ticket.informedTiming ticket;
     Ticket.customer := Ticket.customer ticket; Ticket.booking := Ticket.booking ticket;
     Ticket.complaint := Ticket.complaint ticket; Ticket.admin := admin;
     Ticket.status := Ticket.status ticket; Ticket.audit := Ticket.audit ticket |}.

Definition set_complaint (complaint : Complaint.t) (ticket : Ticket.t) : Ticket.t :=
  {| Ticket.id := Ticket.id ticket; Ticket.createdAt := Ticket.createdAt ticket;
     Ticket.nature := Ticket.nature ticket;
     Ticket.informedTiming := Ticket.informedTiming ticket;
     Ticket.customer := Ticket.customer ticket; Ticket.booking := Ticket.booking ticket;
     Ticket.complaint := complaint; Ticket.admin := Ticket.admin ticket;
     Ticket.status := Ticket.status ticket; Ticket.audit := Ticket.audit ticket |}.

Definition set_status (status : jsstring) (ticket : Ticket.t) : Ticket.t :=
  {| Ticket.id := Ticket.id ticket; Ticket.createdAt := Ticket.createdAt ticket;
     Ticket.nature := Ticket.nature ticket;
     Ticket.informedTiming := Ticket.informedTiming ticket;
     Ticket.customer := Ticket.customer ticket; Ticket.booking := Ticket.booking ticket;
     Ticket.complaint := Ticket.complaint ticket; Ticket.admin := Ticket.admin ticket;
     Ticket.status := status; Ticket.audit := Ticket.audit ticket |}.

(** [ticket.audit.push({ at, who: 'agent', action })] *)
Definition audit_push (at_ : ISOString) (action : jsstring) (ticket : Ticket.t) : Ticket.t :=
  {| Ticket.id := Ticket.id ticket; Ticket.createdAt := Ticket.createdAt ticket;
     Ticket.nature := Ticket.nature ticket;
     Ticket.informedTiming := Ticket.informedTiming ticket;
     Ticket.customer := Ticket.customer ticket; Ticket.booking := Ticket.booking ticket;
     Ticket.complaint := Ticket.complaint ticket; Ticket.admin := Ticket.admin ticket;
     Ticket.status := Ticket.status ticket;
     Ticket.audit := Ticket.audit ticket ++
       [{| Audit.at_ := at_; Audit.who := str "agent"; Audit.action := action |}] |}.

Definition set_findings (findings : option jsstring) (admin : Admin.t) : Admin.t :=
  {| Admin.findings := findings; Admin.supportingDocs := Admin.supportingDocs admin;
     Admin.supportingImages := Admin.supportingImages admin;
     Admin.supportingVideos := Admin.supportingVideos admin;
     Admin.outcome := Admin.outcome admin; Admin.repair := Admin.repair admin |}.

Definition set_outcome (outcome : TicketOutcome.t) (admin : Admin.t) : Admin.t :=
  {| Admin.findings := Admin.findings admin;
     Admin.supportingDocs := Admin.supportingDocs admin;
     Admin.supportingImages := Admin.supportingImages admin;
     Admin.supportingVideos := Admin.supportingVideos admin;
     Admin.outcome := Some outcome; Admin.repair := Admin.repair admin |}.

Definition set_repair (repair : Repair.t) (admin : Admin.t) : Admin.t :=
  {| Admin.findings := Admin.findings admin;
     Admin.supportingDocs := Admin.supportingDocs admin;
     Admin.supportingImages := Admin.supportingImages admin;
     Admin.supportingVideos := Admin.supportingVideos admin;
     Admin.outcome := Admin.outcome admin; Admin.repair := Some repair |}.

(** [if (!ticket.admin.outcome) ticket.admin.outcome = { decision }] *)
Definition outcome_or (decision : jsstring) (ticket : Ticket.t) : TicketOutcome.t :=
  match Admin.outcome (Ticket.admin ticket) with
  | Some outcome => outcome
  | None =>
      {| TicketOutcome.decision := decision; TicketOutcome.solution := None;
         TicketOutcome.rejectReason := None; TicketOutcome.liabilityAccepted := None;
         TicketOutcome.falseClaimFlag := None |}
  end.

(** A handler that updates the active ticket, if there is one. *)
Definition on_active (updater : Ticket.t -> Ticket.t) (d : Desk) : Desk :=
  match getActiveTicket (state d) with
  | Some activeTicket =>
      set_state (updateTicket (Ticket.id activeTicket) updater (state d)) d
  | None => d
  end.

(** The [blur] listener of the findings text. *)
Definition findings_blur (value : jsstring) : Desk -> Desk :=
  on_active (fun ticket =>
    set_admin (set_findings (Some value) (Ticket.admin ticket)) ticket).

(** The [blur] listener of the reject reason. *)
Definition rejectReason_blur (value : jsstring) : Desk -> Desk :=
  on_active (fun ticket =>
    let outcome := outcome_or (Ticket.status ticket) ticket in
    set_admin
      (set_outcome
         {| TicketOutcome.decision := TicketOutcome.decision outcome;
            TicketOutcome.solution := TicketOutcome.solution outcome;
            TicketOutcome.rejectReason := Some value;
            TicketOutcome.liabilityAccepted := TicketOutcome.liabilityAccepted outcome;
            TicketOutcome.falseClaimFlag := TicketOutcome.falseClaimFlag outcome |}
         (Ticket.admin ticket)) ticket).

(** The [change] listener of the liability check box. *)
Definition liabilityAccepted_change (checked : bool) : Desk -> Desk :=
  on_active (fun ticket =>
    let outcome := outcome_or (Ticket.status ticket) ticket in
    set_admin
      (set_outcome
         {| TicketOutcome.decision := TicketOutcome.decision outcome;
            TicketOutcome.solution := TicketOutcome.solution outcome;
            TicketOutcome.rejectReason := TicketOutcome.rejectReason outcome;
            TicketOutcome.liabilityAccepted := Some checked;
            TicketOutcome.falseClaimFlag := TicketOutcome.falseClaimFlag outcome |}
         (Ticket.admin ticket)) ticket).

(** The [change] listener of the false claim check box. *)
Definition falseClaimFlag_change (checked : bool) : Desk -> Desk :=
  on_active (fun ticket =>
    let outcome := outcome_or (Ticket.status ticket) ticket in
    set_admin
      (set_outcome
         {| TicketOutcome.decision := TicketOutcome.decision outcome;
            TicketOutcome.solution := TicketOutcome.solution outcome;
            TicketOutcome.rejectReason := TicketOutcome.rejectReason outcome;
            TicketOutcome.liabilityAccepted := TicketOutcome.liabilityAccepted outcome;
            TicketOutcome.falseClaimFlag := Some checked |}
         (Ticket.admin ticket)) ticket).

(** [updateTicketOutcome], with the values of the decision select and of the
    solution text. *)
Definition updateTicketOutcome (decision solution : jsstring) (now : ISOString)
    : Desk -> Desk :=
  on_active (fun ticket =>
    let outcome := outcome_or decision ticket in
    audit_push now (str "Outcome updated: " ++ decision)
      (set_admin
         (set_outcome
            {| TicketOutcome.decision := decision;
               TicketOutcome.solution := Some solution;
               TicketOutcome.rejectReason := TicketOutcome.rejectReason outcome;
               TicketOutcome.liabilityAccepted := TicketOutcome.liabilityAccepted outcome;
               TicketOutcome.falseClaimFlag := TicketOutcome.falseClaimFlag outcome |}
            (Ticket.admin ticket)) ticket)).

(** [x || undefined] for a number and for a text. *)
Definition number_or_undefined (x : number) : option number :=
  if truthy x then Some x else None.

Definition text_or_undefined (x : jsstring) : option jsstring :=
  match x with [] => None | _ :: _ => Some x end.

(** What [updateRepairInfo] reads: the texts and check boxes of the repair
    form, and the numbers [parseFloat] and [parseInt] made of two of them. *)
Module RepairForm.
Record t : Type := {
  repairer : jsstring;
  claimAmount : number;
  timeframeDays : number;
  scheduledDate : jsstring;
  scheduledWindow : jsstring;
  preferredTime : jsstring;
  parkingAvailable : bool;
  powerAvailable : bool
}.
End RepairForm.

(** [updateRepairInfo]: every property of [repairData] is set, so the spread
    of the earlier [repair] leaves nothing behind. *)
Definition updateRepairInfo (form : RepairForm.t) : Desk -> Desk :=
  on_active (fun ticket =>
    set_admin
      (set_repair
         {| Repair.repairer := RepairForm.repairer form;
            Repair.claimAmount := number_or_undefined (RepairForm.claimAmount form);
            Repair.timeframeDays := number_or_undefined (RepairForm.timeframeDays form);
            Repair.scheduledDate := text_or_undefined (RepairForm.scheduledDate form);
            Repair.scheduledWindow := RepairForm.scheduledWindow form;
            Repair.preferredTime := RepairForm.preferredTime form;
            Repair.parkingAvailable := RepairForm.parkingAvailable form;
            Repair.powerAvailable := RepairForm.powerAvailable form |}
         (Ticket.admin ticket)) ticket).

(** [activeTicket.admin.outcome?.rejectReason], as a condition. *)
Definition has_rejectReason (ticket : Ticket.t) : bool :=
  match Admin.outcome (Ticket.admin ticket) with
  | Some outcome =>
      match TicketOutcome.rejectReason outcome with
      | Some (_ :: _) => true
      | _ => false
      end
  | None => false
  end.

(** [window.setTicketStatus] *)
Definition setTicketStatus (status : jsstring) (now : ISOString) (d : Desk) : Desk :=
  match getActiveTicket (state d) with
  | None => d
  | Some activeTicket =>
      if same_text status (str "Rejected") && negb (has_rejectReason activeTicket)
      then show (str "Reject reason is required before setting status to Rejected")
                (str "error") d
      else
        let d :=
          set_state
            (updateTicket (Ticket.id activeTicket)
               (fun ticket =>
                  audit_push now (str "Status changed to " ++ status)
                    (set_status status ticket))
               (state d)) d in
        show (str "Ticket status updated to " ++ status) (str "success") d
  end.

(** The three counts of [renderReports]. *)
Definition openTickets (tickets : list Ticket.t) : nat :=
  length (filter (fun t => negb (includes [str "Resolved"; str "Rejected"] (Ticket.status t)))
                 tickets).

Definition resolvedTickets (tickets : list Ticket.t) : nat :=
  length (filter (fun t => same_text (Ticket.status t) (str "Resolved")) tickets).

Definition rejectedTickets (tickets : list Ticket.t) : nat :=
  length (filter (fun t => same_text (Ticket.status t) (str "Rejected")) tickets).

(** ** window.addEvidence *)

(** An entry of [fieldMappings]: the ids of the file and time inputs and the
    default name; [None] for [null] and for a missing property. *)
Module Mapping.
Record t : Type :=
  { file : option jsstring; time : option jsstring; default : option jsstring }.
End Mapping.

(** The names every object inherits from [Object.prototype]. *)
Definition inherited : list jsstring :=
  [str "constructor"; str "hasOwnProperty"; str "isPrototypeOf";
   str "propertyIsEnumerable"; str "toLocaleString"; str "toString";
   str "valueOf"; str "__proto__"; str "__defineGetter__";
   str "__defineSetter__"; str "__lookupGetter__"; str "__lookupSetter__"].

(** [fieldMappings[listType]], [None] for [undefined].  An inherited name
    gives a function (or the prototype), which is truthy and has none of the
    three properties. *)
Definition fieldMappings (listType : jsstring) : option Mapping.t :=
  let entry file time default :=
    Some {| Mapping.file := Some file; Mapping.time := Some time;
            Mapping.default := Some default |} in
  if same_text listType (str "complaint.images")
  then entry (str "ci-file") (str "ci-time") (str "image.jpg")
  else if same_text listType (str "complaint.videos")
  then entry (str "cv-file") (str "cv-time") (str "clip.mp4")
  else if same_text listType (str "admin.supportingImages")
  then entry (str "si-file") (str "si-time") (str "support.jpg")
  else if same_text listType (str "admin.supportingVideos")
  then entry (str "sv-file") (str "sv-time") (str "clip.mp4")
  else if same_text listType (str "admin.supportingDocs")
  then Some {| Mapping.file := Some (str "sd-file"); Mapping.time := None;
               Mapping.default := Some (str "doc.pdf") |}
  else if includes inherited listType
  then Some {| Mapping.file := None; Mapping.time := None; Mapping.default := None |}
  else None.

(** What the time input gives: no input or an empty value, a value
    [new Date] reads as an instant, or one it does not ([toISOString] then
    throws). *)
Inductive TimeInput : Type :=
  | NoTime
  | TimeAt (instant : ISOString)
  | InvalidTime.

(** A text in a template literal. *)
Definition in_template (x : option jsstring) : jsstring :=
  match x with Some s => s | None => str "undefined" end.

Definition double_quote : ascii := ascii_of_nat 34.

Definition push_images (e : Evidence.t) (c : Complaint.t) : Complaint.t :=
  {| Complaint.damageTypes := Complaint.damageTypes c;
     Complaint.description := Complaint.description c;
     Complaint.images := Complaint.images c ++ [e];
     Complaint.videos := Complaint.videos c;
     Complaint.customerNotifiedDriver := Complaint.customerNotifiedDriver c;
     Complaint.incidentDate := Complaint.incidentDate c |}.

Definition push_videos (e : Evidence.t) (c : Complaint.t) : Complaint.t :=
  {| Complaint.damageTypes := Complaint.damageTypes c;
     Complaint.description := Complaint.description c;
     Complaint.images := Complaint.images c;
     Complaint.videos := Complaint.videos c ++ [e];
     Complaint.customerNotifiedDriver := Complaint.customerNotifiedDriver c;
     Complaint.incidentDate := Complaint.incidentDate c |}.

Definition push_supporting (docs images videos : list Evidence.t) (a : Admin.t) : Admin.t :=
  {| Admin.findings := Admin.findings a;
     Admin.supportingDocs := Admin.supportingDocs a ++ docs;
     Admin.supportingImages := Admin.supportingImages a ++ images;
     Admin.supportingVideos := Admin.supportingVideos a ++ videos;
     Admin.outcome := Admin.outcome a; Admin.repair := Admin.repair a |}.

(** The updater of [addEvidence], before the audit entry. *)
Definition push_evidence (listType : jsstring) (e : Evidence.t) (ticket : Ticket.t)
    : Ticket.t :=
  if same_text listType (str "complaint.images")
  then set_complaint (push_images e (Ticket.complaint ticket)) ticket
  else if same_text listType (str "complaint.videos")
  then set_complaint (push_videos e (Ticket.complaint ticket)) ticket
  else if same_text listType (str "admin.supportingImages")
  then set_admin (push_supporting [] [e] [] (Ticket.admin ticket)) ticket
  else if same_text listType (str "admin.supportingVideos")
  then set_admin (push_supporting [] [] [e] (Ticket.admin ticket)) ticket
  else if same_text listType (str "admin.supportingDocs")
  then set_admin (push_supporting [e] [] [] (Ticket.admin ticket)) ticket
  else ticket.

(** [window.addEvidence(kind, listType)].  [file] is the name of the first
    file of the file input ([None] without input or file), [time] what the
    time input gives, [id] the random id, [now] and [at_] the instants of the
    two [new Date()].  An invalid time throws before anything is changed. *)
Definition addEvidence (kind listType : jsstring) (file : option jsstring)
    (time : TimeInput) (id : jsstring) (now at_ : ISOString) (d : Desk) : Desk :=
  match getActiveTicket (state d) with
  | None => d
  | Some activeTicket =>
      match fieldMappings listType with
      | None => d
      | Some mapping =>
          let name :=
            match file with Some n => Some n | None => Mapping.default mapping end in
          let takenAt :=
            match Mapping.time mapping, time with
            | Some _, TimeAt instant => Some instant
            | Some _, InvalidTime => None
            | _, _ => Some now
            end in
          match takenAt with
          | None => d
          | Some takenAt =>
              let evidence :=
                {| Evidence.id := id; Evidence.kind := kind; Evidence.name := name;
                   Evidence.takenAt :=
                     if same_text kind (str "doc") then None else Some takenAt;
                   Evidence.file := file |} in
              let d :=
                set_state
                  (updateTicket (Ticket.id activeTicket)
                     (fun ticket =>
                        audit_push at_
                          (str "Added " ++ kind ++ str " " ++ in_template name)
                          (push_evidence listType evidence ticket))
                     (state d)) d in
              show (kind ++ " "%char :: double_quote :: in_template name
                         ++ double_quote :: str " added successfully")
                   (str "success") d
          end
      end
  end.

(** ** The events of the desk *)

Inductive DeskEvent : Type :=
  | ComplaintSubmit (form : ComplaintForm.t) (id : jsstring) (createdAt at_ : ISOString)
  | TicketClick (ticketId : jsstring)
  | SearchInput (value : jsstring)
  | TabChange (value : jsstring)
  | FindingsBlur (value : jsstring)
  | OutcomeChange (decision solution : jsstring) (now : ISOString)
  | RejectReasonBlur (value : jsstring)
  | LiabilityChange (checked : bool)
  | FalseClaimChange (checked : bool)
  | RepairChange (form : RepairForm.t)
  | AddEvidence (kind listType : jsstring) (file : option jsstring) (time : TimeInput)
      (id : jsstring) (now at_ : ISOString)
  | SetTicketStatus (status : jsstring) (now : ISOString).

(** The listener of each event.  A click or key press on an item of the
    list sets the active ticket; the search input sets the query (after the
    debounce). *)
Definition desk_dispatch (e : DeskEvent) (d : Desk) : Desk :=
  match e with
  | ComplaintSubmit form id createdAt at_ => handleComplaintSubmission form id createdAt at_ d
  | TicketClick ticketId =>
      set_state (setState_activeTicketId (Some ticketId) (state d)) d
  | SearchInput value => set_state (setState_searchQuery value (state d)) d
  | TabChange value => switchTab value d
  | FindingsBlur value => findings_blur value d
  | OutcomeChange decision solution now => updateTicketOutcome decision solution now d
  | RejectReasonBlur value => rejectReason_blur value d
  | LiabilityChange checked => liabilityAccepted_change checked d
  | FalseClaimChange checked => falseClaimFlag_change checked d
  | RepairChange form => updateRepairInfo form d
  | AddEvidence kind listType file time id now at_ =>
      addEvidence kind listType file time id now at_ d
  | SetTicketStatus status now => setTicketStatus status now d
  end.

(** The desk after [new ComplaintsDeskApp()] and any events. *)
Inductive desk_reachable : Desk -> Prop :=
  | desk_start (now : Z) (tabs : list jsstring) :
      desk_reachable
        {| state := initializeSeedData now; tabs := tabs; toasts := [] |}
  | desk_next (e : DeskEvent) (d : Desk) :
      desk_reachable d -> desk_reachable (desk_dispatch e d).

(** * Utils *)

(** ** Utils.debounce

    The closure [debounce(func, wait)] returns, with the window's timers.
    [timeout] is the variable of the closure; a pending timer is a [later]
    with the arguments it will pass on and the instant it is due; [now] is
    the clock.  [requested] and [called] record the calls of the returned
    function and of [func], with their instants. *)
Module Debounce.
Section Debounced.

Variable Args : Type.
Variable wait : Z.

Record t : Type := {
  timeout : option positive;
  pending : list (positive * (Z * Args));
  next_id : positive;
  now : Z;
  requested : list (Z * Args);
  called : list (Z * Args)
}.

(** The delay of [setTimeout(later, wait)] for an integer [wait]: a 32-bit
    [long], and 0 when that is negative. *)
Definition delay : Z :=
  Z.max 0 ((wait + 2147483648) mod 4294967296 - 2147483648)%Z.

(** [clearTimeout(timeout)] on the timer table; [undefined] clears nothing. *)
Definition clear (timeout : option positive) (timers : list (positive * (Z * Args)))
    : list (positive * (Z * Args)) :=
  match timeout with
  | Some id => filter (fun timer => negb (Pos.eqb (fst timer) id)) timers
  | None => timers
  end.

(** [executedFunction(...args)] *)
Definition executedFunction (args : Args) (s : t) : t :=
  {| timeout := Some (next_id s);
     pending := clear (timeout s) (pending s) ++ [(next_id s, ((now s + delay)%Z, args))];
     next_id := Pos.succ (next_id s);
     now := now s;
     requested := requested s ++ [(now s, args)];
     called := called s |}.

(** The window runs the timer [id]: nothing when it is not pending or not
    due, otherwise its [later], that is [clearTimeout(timeout); func(...args)]. *)
Definition later (id : positive) (s : t) : t :=
  match find (fun timer => Pos.eqb (fst timer) id) (pending s) with
  | Some (_, (due, args)) =>
      if (due <=? now s)%Z then
        {| timeout := timeout s;
           pending :=
             clear (timeout s)
               (filter (fun timer => negb (Pos.eqb (fst timer) id)) (pending s));
           next_id := next_id s;
           now := now s;
           requested := requested s;
           called := called s ++ [(now s, args)] |}
      else s
  | None => s
  end.

(** Time passes. *)
Definition tick (dt : N) (s : t) : t :=
  {| timeout := timeout s; pending := pending s; next_id := next_id s;
     now := (now s + Z.of_N dt)%Z; requested := requested s; called := called s |}.

Inductive Event : Type :=
  | Call (args : Args)
  | Fire (id : positive)
  | Tick (dt : N).

Definition run (e : Event) (s : t) : t :=
  match e with
  | Call args => executedFunction args s
  | Fire id => later id s
  | Tick dt => tick dt s
  end.

(** After [debounce(func, wait)], at the instant [t0]. *)
Definition start (t0 : Z) : t :=
  {| timeout := None; pending := []; next_id := 1%positive; now := t0;
     requested := []; called := [] |}.

Inductive reachable : t -> Prop :=
  | reach_start (t0 : Z) : reachable (start t0)
  | reach_run (e : Event) (s : t) : reachable s -> reachable (run e s).

End Debounced.

Arguments timeout {Args} _.
Arguments pending {Args} _.
Arguments next_id {Args} _.
Arguments now {Args} _.
Arguments requested {Args} _.
Arguments called {Args} _.
Arguments clear {Args} _ _.
Arguments executedFunction {Args} _ _ _.
Arguments later {Args} _ _.
Arguments tick {Args} _ _.
Arguments Call {Args} _.
Arguments Fire {Args} _.
Arguments Tick {Args} _.
Arguments run {Args} _ _ _.
Arguments start {Args} _.
Arguments reachable {Args} _ _.

End Debounce.

(** ** Utils.sanitizeHtml

    The text is stored as [textContent] and read back as [innerHTML]: the
    serialisation of a text node escapes the ampersand, the two angle
    brackets and the no-break space. *)
Definition escape_unit (c : ascii) : jsstring :=
  if code c =? 38 then str "&amp;"
  else if code c =? 60 then str "&lt;"
  else if code c =? 62 then str "&gt;"
  else if code c =? 160 then str "&nbsp;"
  else [c].

Definition sanitizeHtml (s : jsstring) : jsstring := flat_map escape_unit s.

(** * The messaging backend *)

(** ** String.prototype.replaceAll with a text as pattern *)

(** [GetSubstitution] for a pattern without captures: in the replacement
    [$$] is a dollar, [$&] the match, [$`] the text before it and [$'] the
    text after it; any other dollar stands for itself. *)
Fixpoint GetSubstitution (matched before after template : jsstring) : jsstring :=
  match template with
  | [] => []
  | c :: rest =>
      if Ascii.eqb c "$" then
        match rest with
        | d :: rest' =>
            if Ascii.eqb d "$" then "$"%char :: GetSubstitution matched before after rest'
            else if Ascii.eqb d "&" then matched ++ GetSubstitution matched before after rest'
            else if Ascii.eqb d "`" then before ++ GetSubstitution matched before after rest'
            else if Ascii.eqb d "'" then after ++ GetSubstitution matched before after rest'
            else c :: GetSubstitution matched before after rest
        | [] => [c]
        end
      else c :: GetSubstitution matched before after rest
  end.

(** The scan of [replaceAll] over [rest], the part of [string] from
    [position] on; [skip] units of a match are still to be passed.  Matches
    are taken from the left and do not overlap; an empty pattern matches
    before every unit and at the end. *)
Fixpoint replaceAll_from (searchString replaceValue string : jsstring)
    (position skip : nat) (rest : jsstring) : jsstring :=
  match skip, rest with
  | S skip', _ :: rest' =>
      replaceAll_from searchString replaceValue string (S position) skip' rest'
  | S _, [] => []
  | 0, _ =>
      if startsWith searchString rest then
        GetSubstitution searchString (firstn position string)
          (skipn (position + length searchString) string) replaceValue ++
        match rest with
        | c :: rest' =>
            match searchString with
            | [] => c :: replaceAll_from searchString replaceValue string (S position) 0 rest'
            | _ :: _ =>
                replaceAll_from searchString replaceValue string (S position)
                  (length searchString - 1) rest'
            end
        | [] => []
        end
      else
        match rest with
        | c :: rest' =>
            c :: replaceAll_from searchString replaceValue string (S position) 0 rest'
        | [] => []
        end
  end.

(** [string.replaceAll(searchString, replaceValue)] *)
Definition replaceAll (searchString replaceValue string : jsstring) : jsstring :=
  replaceAll_from searchString replaceValue string 0 0 string.

(** ** MessagingBackend.updatePreview *)

Module Template.
Record t : Type := {
  name : jsstring;
  channel : jsstring;
  body : jsstring;
  variables : list jsstring
}.
End Template.

(** [this.templates[templateId]]: one of the three templates; a name the
    object inherits, whose value is truthy but has no [body]; or
    [undefined]. *)
Inductive TemplateEntry : Type :=
  | IsTemplate (template : Template.t)
  | IsInherited
  | NoTemplate.

Definition templates (templateId : jsstring) : TemplateEntry :=
  if same_text templateId (str "t1") then
    IsTemplate
      {| Template.name := str "Arrival pick up"; Template.channel := str "whatsapp";
         Template.body := str "Hi {{name}}, welcome back. Your car is ready at bay B. Reply 1 for five mins, 2 for ten mins.";
         Template.variables := [str "name"] |}
  else if same_text templateId (str "t2") then
    IsTemplate
      {| Template.name := str "Delay notice"; Template.channel := str "sms";
         Template.body := str "Hi {{name}}, we are running a few mins behind due to traffic at {{terminal}}. We will update you shortly.";
         Template.variables := [str "name"; str "terminal"] |}
  else if same_text templateId (str "t3") then
    IsTemplate
      {| Template.name := str "Review request"; Template.channel := str "sms";
         Template.body := str "Thanks {{name}} for using Star Parking. Share your experience here: {{short_link}}";
         Template.variables := [str "name"; str "short_link"] |}
  else if includes inherited templateId then IsInherited
  else NoTemplate.

(** [this.variables]: the listeners of the variable inputs assign to these
    three properties only, so [Object.entries] lists them in this order. *)
Record Variables : Type := {
  var_name : jsstring;
  var_terminal : jsstring;
  var_short_link : jsstring
}.

(** One round of the [forEach]:
    [text.replaceAll(`{{${key}}}`, value || `{{${key}}}`)]. *)
Definition fill (key value text : jsstring) : jsstring :=
  let placeholder := str "{{" ++ key ++ str "}}" in
  replaceAll placeholder (match value with [] => placeholder | _ :: _ => value end) text.

(** The text [updatePreview] shows, for the value of the template select,
    the variables and the value of the plain text input (if the page has
    one); its length is what the length badge shows.  [None]: the method
    throws, because an inherited entry has no [body] to call [replaceAll]
    on. *)
Definition updatePreview (templateId : jsstring) (variables : Variables)
    (plainText : option jsstring) : option jsstring :=
  let plain :=
    match plainText with
    | Some ((_ :: _) as value) => value
    | _ => str "Your text will appear here"
    end in
  match templateId with
  | [] => Some plain
  | _ :: _ =>
      match templates templateId with
      | IsTemplate template =>
          Some (fill (str "short_link") (var_short_link variables)
                  (fill (str "terminal") (var_terminal variables)
                     (fill (str "name") (var_name variables) (Template.body template))))
      | IsInherited => None
      | NoTemplate => Some plain
      end
  end.

(** ** The calendar of the messaging backend

    A [Date] is used through its local year, month and day of the month
    only; the time of day never matters.  The model is exact for the years a
    [Date] can hold, in a time zone whose changes of offset move no local
    midnight to another day. *)
Record CalendarDate : Type := { year : Z; month : Z; day : Z }.

Definition InLeapYear (y : Z) : bool :=
  (((y mod 4 =? 0) && negb (y mod 100 =? 0)) || (y mod 400 =? 0))%Z.

(** The days of month [m] (0 for January) of year [y]. *)
Definition DaysInMonth (y m : Z) : Z :=
  (if m =? 1 then (if InLeapYear y then 29 else 28)
   else if (m =? 3) || (m =? 5) || (m =? 8) || (m =? 10) then 30
   else 31)%Z.

(** The month before and the month after. *)
Definition month_before (y m : Z) : Z * Z :=
  (if m =? 0 then (y - 1, 11) else (y, m - 1))%Z.

Definition month_after (y m : Z) : Z * Z :=
  (if m =? 11 then (y + 1, 0) else (y, m + 1))%Z.

(** A day number below 1 or beyond the end of the month counts on in the
    months before or after. *)
Fixpoint roll (fuel : nat) (y m d : Z) : CalendarDate :=
  match fuel with
  | 0 => {| year := y; month := m; day := d |}
  | S fuel' =>
      if (d <? 1)%Z then
        let (y', m') := month_before y m in roll fuel' y' m' (d + DaysInMonth y' m')
      else if (DaysInMonth y m <? d)%Z then
        let (y', m') := month_after y m in roll fuel' y' m' (d - DaysInMonth y m)
      else {| year := y; month := m; day := d |}
  end.

(** [MakeDay]: the date of day [d] of month [m] of year [y], for any
    integers. *)
Definition MakeDay (y m d : Z) : CalendarDate :=
  roll (S (Z.to_nat (Z.abs d))) (y + m / 12) (m mod 12) d.

(** [new Date(y, m, d)]: a year from 0 to 99 means 1900 to 1999. *)
Definition new_Date (y m d : Z) : CalendarDate :=
  MakeDay (if (0 <=? y) && (y <=? 99) then 1900 + y else y)%Z m d.

(** [date.setMonth(m)] *)
Definition setMonth (m : Z) (date : CalendarDate) : CalendarDate :=
  MakeDay (year date) m (day date).

(** The number of the first day of year [y], counted from 1 January 1970,
    and the days of year [y] before month [m]. *)
Definition DayFromYear (y : Z) : Z :=
  (365 * (y - 1970) + (y - 1969) / 4 - (y - 1901) / 100 + (y - 1601) / 400)%Z.

Definition days_before_month (y m : Z) : Z :=
  fold_left (fun n k => (n + DaysInMonth y (Z.of_nat k))%Z) (seq 0 (Z.to_nat m)) 0%Z.

(** [date.getDay()], 0 for Sunday: 1 January 1970 was a Thursday. *)
Definition getDay (date : CalendarDate) : Z :=
  ((DayFromYear (year date) + days_before_month (year date) (month date)
    + day date - 1 + 4) mod 7)%Z.

(** The listeners of the two month buttons. *)
Definition prevMonth (date : CalendarDate) : CalendarDate :=
  setMonth (month date - 1) date.

Definition nextMonth (date : CalendarDate) : CalendarDate :=
  setMonth (month date + 1) date.

(** A cell of the calendar: the number it shows, and whether it has the classes
    [other-month] and [today]. *)
Record Cell : Type := { label : Z; other_month : bool; is_today : bool }.

(** The cells [renderCalendar] puts into the grid, for the calendar's date
    and the date of today. *)
Definition renderCalendar (currentCalendarDate today : CalendarDate) : list Cell :=
  let currentMonth := month currentCalendarDate in
  let currentYear := year currentCalendarDate in
  let firstDay := new_Date currentYear currentMonth 1 in
  let lastDay := new_Date currentYear (currentMonth + 1) 0 in
  let daysInMonth := day lastDay in
  let startingDayOfWeek := getDay firstDay in
  let isCurrentMonth :=
    ((year today =? currentYear) && (month today =? currentMonth))%Z in
  let before :=
    map (fun i =>
           let prevMonthDay :=
             new_Date currentYear currentMonth
               (0 - (startingDayOfWeek - 1 - Z.of_nat i)) in
           {| label := day prevMonthDay; other_month := true; is_today := false |})
        (seq 0 (Z.to_nat startingDayOfWeek)) in
  let current :=
    map (fun k =>
           let d := Z.of_nat k in
           {| label := d; other_month := false;
              is_today := isCurrentMonth && (d =? day today)%Z |})
        (seq 1 (Z.to_nat daysInMonth)) in
  let totalCells := length (before ++ current) in
  let remainingCells := 42 - totalCells in
  let after :=
    map (fun i => {| label := Z.of_nat i; other_month := true; is_today := false |})
        (seq 1 remainingCells) in
  before ++ current ++ after.

(** ** Vocabulary of the desk *)

(** [l'] is [l] with entries pushed. *)
Definition extends {A} (l l' : list A) : Prop := exists pushed, l' = l ++ pushed.

(** [t'] is a later version of the ticket [t]: what the customer submitted
    is the same, and evidence and audit entries have only been added. *)
Definition grows (t t' : Ticket.t) : Prop :=
  Ticket.id t' = Ticket.id t /\
  Ticket.createdAt t' = Ticket.createdAt t /\
  Ticket.nature t' = Ticket.nature t /\
  Ticket.informedTiming t' = Ticket.informedTiming t /\
  Ticket.customer t' = Ticket.customer t /\
  Ticket.booking t' = Ticket.booking t /\
  Complaint.damageTypes (Ticket.complaint t') = Complaint.damageTypes (Ticket.complaint t) /\
  Complaint.description (Ticket.complaint t') = Complaint.description (Ticket.complaint t) /\
  Complaint.incidentDate (Ticket.complaint t') = Complaint.incidentDate (Ticket.complaint t) /\
  Complaint.customerNotifiedDriver (Ticket.complaint t') =
    Complaint.customerNotifiedDriver (Ticket.complaint t) /\
  extends (Complaint.images (Ticket.complaint t)) (Complaint.images (Ticket.complaint t')) /\
  extends (Complaint.videos (Ticket.complaint t)) (Complaint.videos (Ticket.complaint t')) /\
  extends (Admin.supportingDocs (Ticket.admin t)) (Admin.supportingDocs (Ticket.admin t')) /\
  extends (Admin.supportingImages (Ticket.admin t)) (Admin.supportingImages (Ticket.admin t')) /\
  extends (Admin.supportingVideos (Ticket.admin t)) (Admin.supportingVideos (Ticket.admin t')) /\
  extends (Ticket.audit t) (Ticket.audit t').

(** The status an audit entry records, when it is a status change. *)
Definition status_change (e : Audit.t) : option jsstring :=
  if startsWith (str "Status changed to ") (Audit.action e)
  then Some (skipn 18 (Audit.action e))
  else None.

(** The status of the last status change of a trail. *)
Definition last_status (audit : list Audit.t) : option jsstring :=
  fold_left (fun found e => match status_change e with Some s => Some s | None => found end)
            audit None.

(** The trail of a ticket begins with its creation and accounts for its
    status; a rejected ticket has an outcome that once got a reason. *)
Definition well_audited (t : Ticket.t) : Prop :=
  (exists e rest, Ticket.audit t = e :: rest /\
     (Audit.action e = str "Ticket created" \/
      Audit.action e = str "Ticket created via portal")) /\
  match last_status (Ticket.audit t) with
  | Some s => Ticket.status t = s
  | None => Ticket.status t = str "New" \/ Ticket.status t = str "Triage"
  end /\
  (Ticket.status t = str "Rejected" ->
   exists outcome, Admin.outcome (Ticket.admin t) = Some outcome /\
                   TicketOutcome.rejectReason outcome <> None).

(** [ticket.admin.outcome?.rejectReason] *)
Definition reject_reason (t : Ticket.t) : option jsstring :=
  match Admin.outcome (Ticket.admin t) with
  | Some outcome => TicketOutcome.rejectReason outcome
  | None => None
  end.

(** The desk at instant 0 with the three tabs of the page, and the seed
    ticket rejected for a reason. *)
Definition fresh_desk : Desk :=
  {| state := initializeSeedData 0%Z; tabs := [str "portal"; str "desk"; str "reports"];
     toasts := [] |}.

Definition rejected_desk : Desk :=
  desk_dispatch (SetTicketStatus (str "Rejected") 2000%Z)
    (desk_dispatch (RejectReasonBlur (str "Old damage")) fresh_desk).

(** A complaint about service, and the desk after it was submitted and got
    the id of the seed ticket. *)
Definition service_complaint : ComplaintForm.t :=
  {| ComplaintForm.required :=
       [{| Input.name := str "customer-name"; Input.type := str "text";
           Input.value := str "Ann Lee" |}];
     ComplaintForm.nature := str "Service";
     ComplaintForm.damageTypes := [];
     ComplaintForm.informedTiming := None;
     ComplaintForm.customer :=
       {| Customer.name := str "Ann Lee"; Customer.email := str "ann@example.com";
          Customer.phone := str "+44 7700 900002"; Customer.address := [] |};
     ComplaintForm.booking :=
       {| TicketBooking.reg := str "XY34ZZZ"; TicketBooking.terminal := str "T2";
          TicketBooking.driverName := [] |};
     ComplaintForm.description := str "Driver was late.";
     ComplaintForm.incidentDate := str "2025-10-01";
     ComplaintForm.notifiedDriver := false |}.

Definition collided_desk : Desk :=
  desk_dispatch (ComplaintSubmit service_complaint (str "T-1001") 5000%Z 5001%Z) fresh_desk.

(** ** Vocabulary of the debounce *)

(** [func] got its arguments from a call of the debounced function made a
    full delay earlier, and every call made after that one was made at the
    instant [func] ran or later. *)
Definition after_quiet {Args} (wait : Z) (s : Debounce.t Args) (c : Z * Args) : Prop :=
  exists before after t0,
    Debounce.requested s = before ++ (t0, snd c) :: after /\
    (t0 + Debounce.delay wait <= fst c)%Z /\
    Forall (fun r => (fst c <= fst r)%Z) after.

(** No timer is pending, or one: the variable [timeout] names it and it
    carries the arguments of the last call. *)
Definition one_pending {Args} (wait : Z) (s : Debounce.t Args) : Prop :=
  Debounce.pending s = [] \/
  exists id t0 args before,
    Debounce.pending s = [(id, ((t0 + Debounce.delay wait)%Z, args))] /\
    Debounce.timeout s = Some id /\
    Debounce.requested s = before ++ [(t0, args)].

Definition debounce_invariant {Args} (wait : Z) (s : Debounce.t Args) : Prop :=
  one_pending wait s /\
  Forall (fun c => (fst c <= Debounce.now s)%Z) (Debounce.called s) /\
  Forall (after_quiet wait s) (Debounce.called s) /\
  length (Debounce.called s) + length (Debounce.pending s)
    <= length (Debounce.requested s).

(** A search field that debounces by 300 ms: "a" typed at 0, "ab" at 100,
    and the timer of the second call run at 400. *)
Definition typed_twice : Debounce.t jsstring :=
  Debounce.run 300 (Debounce.Fire 2)
    (Debounce.run 300 (Debounce.Tick 300)
       (Debounce.run 300 (Debounce.Call (str "ab"))
          (Debounce.run 300 (Debounce.Tick 100)
             (Debounce.run 300 (Debounce.Call (str "a")) (Debounce.start 0%Z))))).

(** ** Vocabulary of the preview *)

(** What takes the place of a placeholder: the value, or the placeholder
    itself while the value is empty. *)
Definition shown (key value : jsstring) : jsstring :=
  match value with
  | [] => str "{{" ++ key ++ str "}}"
  | _ :: _ => value
  end.

(** A value without dollar and without opening brace. *)
Definition plain_value (value : jsstring) : Prop :=
  Forall (fun c => c <> "$"%char /\ c <> "{"%char) value.

(** [p] and [s] agree as far as both go: [p] may start a text that begins
    with [s]. *)
Fixpoint may_start (p s : jsstring) : bool :=
  match p, s with
  | a :: p', b :: s' => Ascii.eqb a b && may_start p' s'
  | _, _ => true
  end.

(** No match of [p] begins inside [w], whatever follows [w]. *)
Fixpoint never_starts (p w : jsstring) : bool :=
  match w with
  | [] => true
  | _ :: w' => negb (may_start p w) && never_starts p w'
  end.

(** ** Vocabulary of the calendar *)

(** A date of the calendar: a month from January (0) to December (11) and a
    day of that month. *)
Definition valid_date (date : CalendarDate) : Prop :=
  (0 <= month date <= 11)%Z /\
  (1 <= day date <= DaysInMonth (year date) (month date))%Z.

(** The year [new Date(y, ...)] takes for [y]. *)
Definition full_year (y : Z) : Z :=
  (if (0 <=? y) && (y <=? 99) then 1900 + y else y)%Z.
(** ** Facts about the character classes *)

Lemma in_range_iff lo hi c :
  in_range lo hi c = true <-> lo <= code c <= hi.
Proof.
  unfold in_range. rewrite andb_true_iff, !Nat.leb_le. tauto.
Qed.

Lemma in_range_false lo hi c :
  code c < lo \/ hi < code c -> in_range lo hi c = false.
Proof.
  intros H. destruct (in_range lo hi c) eqn:E; [|reflexivity].
  apply in_range_iff in E. lia.
Qed.

Lemma upper_is_word c : is_upper c = true -> is_word c = true.
Proof. unfold is_word. intros ->. reflexivity. Qed.

Lemma digit_is_word c : is_digit c = true -> is_word c = true.
Proof. unfold is_word. intros ->. rewrite !orb_true_r. reflexivity. Qed.

Lemma upper_not_digit c : is_upper c = true -> is_digit c = false.
Proof.
  unfold is_upper, is_digit. intros H%in_range_iff.
  apply in_range_false. lia.
Qed.

Lemma digit_not_upper c : is_digit c = true -> is_upper c = false.
Proof.
  unfold is_upper, is_digit. intros H%in_range_iff.
  apply in_range_false. lia.
Qed.

Lemma word_not_space c : is_word c = true -> is_space c = false.
Proof.
  unfold is_word, is_space, is_upper, is_lower, is_digit.
  rewrite !orb_true_iff, !in_range_iff, Nat.eqb_eq. intros H.
  rewrite in_range_false by lia.
  destruct (Nat.eqb_spec (code c) 32); [lia|].
  destruct (Nat.eqb_spec (code c) 160); [lia|]. reflexivity.
Qed.

Lemma upper_not_space c : is_upper c = true -> is_space c = false.
Proof. intros H. apply word_not_space, upper_is_word, H. Qed.

Lemma digit_not_space c : is_digit c = true -> is_space c = false.
Proof. intros H. apply word_not_space, digit_is_word, H. Qed.

(** ** Facts about the matcher *)


Lemma last_unit_app prev a b :
  last_unit prev (a ++ b) = last_unit (last_unit prev a) b.
Proof. apply fold_left_app. Qed.

Lemma last_unit_all (P : ascii -> Prop) prev run :
  run <> [] -> Forall P run -> exists c, last_unit prev run = Some c /\ P c.
Proof.
  revert prev. induction run as [|c run IH]; intros prev Hne Hall; [easy|].
  inversion Hall as [|? ? Hc Hrun]; subst. destruct run as [|c' run'].
  - exists c. split; [reflexivity|exact Hc].
  - apply (IH (Some c)); [discriminate|exact Hrun].
Qed.

(** What a successful [greedy] did: it consumed a run of [cls] units of a
    length within the bounds and the continuation matched the rest. *)
Lemma greedy_sound cls k : forall hi lo prev s m,
  greedy cls lo hi k prev s = Some m ->
  exists run s' m',
    s = run ++ s' /\ m = run ++ m' /\
    Forall (fun c => cls c = true) run /\
    lo <= length run <= hi /\
    k (last_unit prev run) s' = Some m'.
Proof.
  assert (Hstop : forall lo hi prev s m,
    (if lo =? 0 then k prev s else None) = Some m ->
    exists run s' m',
      s = run ++ s' /\ m = run ++ m' /\
      Forall (fun c => cls c = true) run /\
      lo <= length run <= hi /\
      k (last_unit prev run) s' = Some m').
  { intros lo hi prev s m H. destruct (Nat.eqb_spec lo 0); [|discriminate].
    exists [], s, m. simpl. repeat split; auto; lia. }
  induction hi as [|hi IH]; intros lo prev s m H.
  - simpl in H. apply Hstop. destruct s; exact H.
  - destruct s as [|c s']; [apply Hstop; exact H|].
    simpl in H. destruct (cls c) eqn:Hc; [|apply Hstop; exact H].
    destruct (greedy cls (pred lo) hi k (Some c) s') as [m0|] eqn:Hrec;
      [|apply Hstop; exact H].
    injection H as <-.
    destruct (IH _ _ _ _ Hrec) as (run & s'' & m' & -> & -> & Hall & Hlen & Hk).
    exists (c :: run), s'', m'. simpl. repeat split; auto; lia.
Qed.

(** A run that cannot be extended is the one [greedy] takes. *)
Lemma greedy_run cls k : forall run lo hi prev s' m',
  Forall (fun c => cls c = true) run ->
  lo <= length run <= hi ->
  match s' with c :: _ => cls c = false | [] => True end ->
  k (last_unit prev run) s' = Some m' ->
  greedy cls lo hi k prev (run ++ s') = Some (run ++ m').
Proof.
  induction run as [|c run IH]; intros lo hi prev s' m' Hall Hlen Hnext Hk.
  - simpl in *. assert (lo = 0) as -> by lia.
    destruct hi; simpl; [destruct s'; exact Hk|].
    destruct s' as [|c s']; [exact Hk|]. rewrite Hnext. exact Hk.
  - inversion Hall as [|? ? Hc Hrun]; subst. simpl in Hlen.
    destruct hi as [|hi]; [lia|]. simpl. rewrite Hc.
    rewrite (IH (pred lo) hi (Some c) s' m'); auto. lia.
Qed.


(** A match of a plate pattern is letters, digits, at most one white space
    unit and letters; it is a prefix of the input and a word boundary follows
    it. *)
Lemma plate_pattern_sound a1 a2 b1 b2 c1 c2 prev s m :
  match_here (plate_pattern a1 a2 b1 b2 c1 c2) prev s = Some m ->
  exists l d sp l' rest,
    s = m ++ rest /\ m = l ++ d ++ sp ++ l' /\
    Forall (fun c => is_upper c = true) l /\ a1 <= length l <= a2 /\
    Forall (fun c => is_digit c = true) d /\ b1 <= length d <= b2 /\
    Forall (fun c => is_space c = true) sp /\
    Forall (fun c => is_upper c = true) l' /\ c1 <= length l' <= c2 /\
    word_boundary (last_unit prev m) rest = true.
Proof.
  unfold plate_pattern. cbn [match_here]. intros H.
  destruct (word_boundary prev s); [|discriminate].
  apply greedy_sound in H as (l & s1 & m1 & -> & -> & Hl & Hll & H).
  apply greedy_sound in H as (d & s2 & m2 & -> & -> & Hd & Hdl & H).
  apply greedy_sound in H as (sp & s3 & m3 & -> & -> & Hsp & _ & H).
  apply greedy_sound in H as (l' & rest & m4 & -> & -> & Hl' & Hl'l & H).
  destruct (word_boundary _ rest) eqn:Hb; [|discriminate].
  injection H as <-.
  exists l, d, sp, l', rest. rewrite !app_nil_r, !last_unit_app.
  repeat split; auto; try lia. now rewrite <- !app_assoc.
Qed.

Lemma strip_spaces_app a b :
  strip_spaces (a ++ b) = strip_spaces a ++ strip_spaces b.
Proof. apply filter_app. Qed.

Lemma strip_spaces_none s :
  Forall (fun c => is_space c = false) s -> strip_spaces s = s.
Proof.
  induction 1 as [|c s Hc _ IH]; [reflexivity|].
  unfold strip_spaces in *. cbn [filter]. rewrite Hc. cbn. now rewrite IH.
Qed.

Lemma strip_spaces_all s :
  Forall (fun c => is_space c = true) s -> strip_spaces s = [].
Proof.
  induction 1 as [|c s Hc _ IH]; [reflexivity|].
  unfold strip_spaces in *. cbn [filter]. rewrite Hc. cbn. exact IH.
Qed.

Lemma uppers_no_space s :
  Forall (fun c => is_upper c = true) s -> Forall (fun c => is_space c = false) s.
Proof. apply Forall_impl. exact upper_not_space. Qed.

Lemma digits_no_space s :
  Forall (fun c => is_digit c = true) s -> Forall (fun c => is_space c = false) s.
Proof. apply Forall_impl. exact digit_not_space. Qed.

(** The candidate a match yields has the plate shape, and its units are units
    of the match. *)
Lemma candidate_shape a1 a2 b1 b2 c1 c2 prev s m :
  match_here (plate_pattern a1 a2 b1 b2 c1 c2) prev s = Some m ->
  plate_shape a1 a2 b1 b2 c1 c2 (strip_spaces m) /\
  (forall P : ascii -> Prop, Forall P s -> Forall P (strip_spaces m)).
Proof.
  intros H.
  apply plate_pattern_sound in H
    as (l & d & sp & l' & rest & -> & -> & Hl & Hll & Hd & Hdl & Hsp & Hl' & Hl'l & _).
  rewrite !strip_spaces_app, (strip_spaces_all sp Hsp),
    (strip_spaces_none l), (strip_spaces_none d), (strip_spaces_none l')
    by auto using uppers_no_space, digits_no_space.
  split.
  - exists l, d, l'. repeat split; auto; lia.
  - intros P HP. rewrite <- !app_assoc in HP.
    apply Forall_app in HP as [HPl HP]. apply Forall_app in HP as [HPd HP].
    apply Forall_app in HP as [_ HP]. apply Forall_app in HP as [HPl' _].
    cbn [app]. repeat (apply Forall_app; split); auto.
Qed.

(** Every match [matchAll_from] lists was found by [match_here] on a suffix of
    the input. *)
Lemma matchAll_from_In re : forall s skip idx prev m,
  In m (matchAll_from re skip idx prev s) ->
  exists prev' s1 s2, s = s1 ++ s2 /\ match_here re prev' s2 = Some (group1 m).
Proof.
  induction s as [|c s IH]; intros skip idx prev m Hin.
  - destruct skip; [|contradiction]. cbn in Hin.
    destruct (match_here re prev []) as [m0|] eqn:E; [|contradiction].
    destruct Hin as [<-|[]]. exists prev, [], []. auto.
  - cbn [matchAll_from] in Hin. destruct skip as [|k].
    + destruct (match_here re prev (c :: s)) as [m0|] eqn:E.
      * destruct Hin as [<-|Hin]; [exists prev, [], (c :: s); auto|].
        apply IH in Hin as (p' & s1 & s2 & -> & H).
        exists p', (c :: s1), s2. auto.
      * apply IH in Hin as (p' & s1 & s2 & -> & H).
        exists p', (c :: s1), s2. auto.
    + apply IH in Hin as (p' & s1 & s2 & -> & H).
      exists p', (c :: s1), s2. auto.
Qed.

(** The positions [matchAll_from] reports grow from left to right, starting
    no earlier than [idx]. *)
Lemma matchAll_from_indices re : forall s skip idx prev,
  StronglySorted (fun m m' => index m < index m') (matchAll_from re skip idx prev s) /\
  Forall (fun m => idx <= index m) (matchAll_from re skip idx prev s).
Proof.
  induction s as [|c s IH]; intros skip idx prev.
  - destruct skip; cbn; [|split; constructor].
    destruct (match_here re prev []); split; repeat constructor.
  - cbn [matchAll_from]. destruct skip as [|k].
    + destruct (match_here re prev (c :: s)) as [m0|].
      * destruct (IH (pred (length m0)) (S idx) (Some c)) as [Hs Hf]. split.
        -- constructor; [exact Hs|]. eapply Forall_impl; [|exact Hf].
           cbn. intros; lia.
        -- constructor; [cbn; lia|]. eapply Forall_impl; [|exact Hf].
           cbn. intros; lia.
      * destruct (IH 0 (S idx) (Some c)) as [Hs Hf]. split; [exact Hs|].
        eapply Forall_impl; [|exact Hf]. cbn. intros; lia.
    + destruct (IH k (S idx) (Some c)) as [Hs Hf]. split; [exact Hs|].
      eapply Forall_impl; [|exact Hf]. cbn. intros; lia.
Qed.

(** ** Facts about the sort *)

Section LeftmostMin.
Context {A : Type} (key : A -> Z).

Let cmp (a b : A) : Z := (key a - key b)%Z.

Lemma leftmost_min_None l : leftmost_min key l = None -> l = [].
Proof.
  destruct l as [|x l]; [reflexivity|]. cbn.
  destruct (leftmost_min key l); [destruct (_ <=? _)%Z|]; discriminate.
Qed.

Lemma hd_error_insert x l :
  hd_error (insert cmp x l) =
  match hd_error l with
  | None => Some x
  | Some y => if (key x <=? key y)%Z then Some x else Some y
  end.
Proof.
  destruct l as [|y l]; [reflexivity|]. cbn. unfold cmp.
  destruct (Z.leb_spec (key x - key y) 0), (Z.leb_spec (key x) (key y));
    try lia; reflexivity.
Qed.

Lemma hd_error_sort l : hd_error (sort cmp l) = leftmost_min key l.
Proof.
  induction l as [|x l IH]; [reflexivity|].
  cbn [sort fold_right leftmost_min]. fold (sort cmp l).
  now rewrite hd_error_insert, IH.
Qed.

Lemma leftmost_min_split l b :
  leftmost_min key l = Some b ->
  exists l1 l2, l = l1 ++ b :: l2 /\
    Forall (fun x => (key b < key x)%Z) l1 /\
    Forall (fun x => (key b <= key x)%Z) l2.
Proof.
  revert b. induction l as [|x l IH]; intros b H; [discriminate|].
  cbn in H. destruct (leftmost_min key l) as [y|] eqn:E.
  - destruct (IH y eq_refl) as (l1 & l2 & -> & H1 & H2).
    destruct (Z.leb_spec (key x) (key y)); injection H as <-.
    + exists [], (l1 ++ y :: l2). split; [reflexivity|]. split; [constructor|].
      apply Forall_app. split; [|constructor].
      * eapply Forall_impl; [|exact H1]. cbn. intros; lia.
      * lia.
      * eapply Forall_impl; [|exact H2]. cbn. intros; lia.
    + exists (x :: l1), l2. split; [reflexivity|]. split; [|exact H2].
      constructor; [lia|exact H1].
  - injection H as <-. apply leftmost_min_None in E as ->.
    exists [], []. repeat split; constructor.
Qed.
End LeftmostMin.

(** ** normalisePlate: the selection among the matches *)


Lemma StronglySorted_after {A} (R : A -> A -> Prop) l1 x l2 :
  StronglySorted R (l1 ++ x :: l2) -> Forall (R x) l2.
Proof.
  induction l1 as [|y l1 IH]; cbn; intros H; apply StronglySorted_inv in H.
  - tauto.
  - apply IH. tauto.
Qed.

Lemma first_pattern_spec t : forall res,
  match find (yields_match t) res with
  | Some re => exists best,
      first_pattern res t = Some best /\ first_candidate (matchAll re t) best
  | None => first_pattern res t = None
  end.
Proof.
  induction res as [|re rest IH]; [reflexivity|].
  cbn [find first_pattern]. unfold yields_match at 1, candidates.
  destruct (matchAll re t) as [|m0 ms'] eqn:Hms; [exact IH|].
  set (f := fun m => strip_spaces (group1 m)).
  change (map f (m0 :: ms')) with (f m0 :: map f ms'). cbv iota.
  change (f m0 :: map f ms') with (map f (m0 :: ms')).
  unfold by_closeness. rewrite hd_error_sort.
  destruct (leftmost_min distance_to_7 (map f (m0 :: ms'))) as [best|] eqn:Hmin;
    [|apply leftmost_min_None in Hmin; discriminate].
  exists best. split; [reflexivity|].
  apply leftmost_min_split in Hmin as (l1 & l2 & Hsplit & Hbefore & Hafter).
  apply map_eq_app in Hsplit as (ms1 & ms2' & Hms12 & <- & Hcons).
  apply map_eq_cons in Hcons as (m & ms2 & -> & <- & <-).
  assert (Hsorted : StronglySorted (fun m m' => index m < index m') (m0 :: ms')).
  { rewrite <- Hms. apply matchAll_from_indices. }
  rewrite Hms, Hms12 in *. exists m. split; [apply in_elt|]. split; [reflexivity|].
  intros m' Hin. apply in_app_or in Hin as [Hin|[<-|Hin]].
  - rewrite Forall_map, Forall_forall in Hbefore. specialize (Hbefore _ Hin).
    subst f. cbn beta in *. split; [apply Z.lt_le_incl; exact Hbefore|].
    intros Heq. rewrite Heq in Hbefore. now apply Z.lt_irrefl in Hbefore.
  - split; [apply Z.le_refl|reflexivity].
  - rewrite Forall_map, Forall_forall in Hafter. specialize (Hafter _ Hin).
    apply StronglySorted_after in Hsorted. rewrite Forall_forall in Hsorted.
    specialize (Hsorted _ Hin). subst f. cbn beta in *.
    split; [exact Hafter|]. intros _. apply Nat.lt_le_incl, Hsorted.
Qed.

Lemma without_spaces_iff s b : without_spaces s b <-> b = strip_spaces s.
Proof.
  split.
  - induction 1 as [|c s b Hc _ IH|c s b Hc _ IH]; [reflexivity| |];
      cbn [strip_spaces filter]; rewrite Hc; cbn [negb]; [exact IH|now f_equal].
  - intros ->. induction s as [|c s IH]; [constructor|].
    cbn [strip_spaces filter]. destruct (is_space c) eqn:Hc; cbn [negb].
    + now apply without_spaces_skip.
    + now apply without_spaces_keep.
Qed.

Lemma off_7_distance b : off_7 b = distance_to_7 b.
Proof. unfold off_7, distance_to_7. lia. Qed.

Lemma first_candidate_closest ms best :
  first_candidate ms best -> closest_to_7 ms best.
Proof.
  intros (m & Hin & -> & Hmin). split.
  - apply Forall_forall. intros c Hc. apply filter_In in Hc as [_ Hc].
    now apply negb_true_iff in Hc.
  - exists m. split; [exact Hin|]. split; [now apply without_spaces_iff|].
    intros m' b' Hin' Hb'. apply without_spaces_iff in Hb'. subst b'.
    rewrite !off_7_distance. now apply Hmin.
Qed.

(** C3.  For every input text [normalisePlate] tries the patterns of
    [UK_REGEXES] in order, the current format before the cherished formats.
    From the matches of the first pattern that yields any it returns one
    without its white space: the result holds no white space unit.  Counted
    without white space no match of that pattern is closer to 7 units, and
    among the matches as close it is the one that starts first.  When no
    pattern yields a match, and for a null or empty text, the result is
    null. *)
Theorem normalisePlate_closest_to_7 (text : option jsstring) :
  UK_REGEXES = [current_format; cherished_formats] /\
  match text with
  | None | Some [] => normalisePlate text = None
  | Some x =>
      match find (yields_match (cleaned x)) UK_REGEXES with
      | Some re => exists best,
          normalisePlate text = Some best /\
          closest_to_7 (matchAll re (cleaned x)) best
      | None => normalisePlate text = None
      end
  end.
Proof.
  split; [reflexivity|].
  destruct text as [[|c x]|]; try reflexivity.
  pose proof (first_pattern_spec (cleaned (c :: x)) UK_REGEXES) as H.
  destruct (find (yields_match (cleaned (c :: x))) UK_REGEXES) as [re|]; [|exact H].
  destruct H as (best & Hbest & Hc). exists best.
  split; [exact Hbest|now apply first_candidate_closest].
Qed.

(** ** normalisePlate on its own results *)


Lemma cleaned_units text : Forall clean_unit (cleaned text).
Proof.
  unfold cleaned, O_to_zero, keep_plate_units.
  apply Forall_map, Forall_forall. intros c Hc.
  apply filter_In in Hc as [_ Hc]. unfold clean_unit.
  rewrite !orb_true_iff, Nat.eqb_eq in Hc.
  destruct (Nat.eqb_spec (code c) 79) as [E|E]; [|tauto].
  split; [|discriminate]. right. left. reflexivity.
Qed.

(** A plate of letters and digits without the letter O is its own cleaned
    text. *)
Lemma cleaned_plate p :
  Forall (fun c => is_upper c = true \/ is_digit c = true) p ->
  Forall clean_unit p ->
  cleaned p = p.
Proof.
  intros Hp Hc. unfold cleaned, toUpperCase.
  induction p as [|c p IH]; [reflexivity|].
  inversion Hp as [|? ? Hcp Hp']; inversion Hc as [|? ? [_ HO] Hc']; subst.
  assert (Hcode : 48 <= code c <= 57 \/ 65 <= code c <= 90)
    by (unfold is_upper, is_digit in Hcp; rewrite !in_range_iff in Hcp; lia).
  cbn [flat_map]. unfold upper_unit at 1.
  unfold is_lower. rewrite (in_range_false 97 122), (in_range_false 224 254) by lia.
  destruct (Nat.eqb_spec (code c) 223); [lia|]. cbn [andb app].
  unfold cleaned, toUpperCase in IH.
  unfold O_to_zero, keep_plate_units, newlines_to_spaces in *. cbn [map].
  destruct (Nat.eqb_spec (code c) 10); [lia|]. cbn [filter].
  replace (is_upper c || is_digit c || (code c =? 32)) with true
    by (destruct Hcp as [-> | ->]; now rewrite ?orb_true_r).
  cbn [map]. destruct (Nat.eqb_spec (code c) 79); [lia|].
  f_equal. apply IH; assumption.
Qed.

Lemma plate_shape_units a1 a2 b1 b2 c1 c2 p :
  plate_shape a1 a2 b1 b2 c1 c2 p ->
  Forall (fun c => is_upper c = true \/ is_digit c = true) p.
Proof.
  intros (l & d & l' & -> & Hl & _ & Hd & _ & Hl' & _).
  repeat (apply Forall_app; split);
    (eapply Forall_impl; [|eassumption]); cbn; tauto.
Qed.

Lemma plate_shape_words a1 a2 b1 b2 c1 c2 p :
  plate_shape a1 a2 b1 b2 c1 c2 p -> Forall (fun c => is_word c = true) p.
Proof.
  intros H%plate_shape_units. eapply Forall_impl; [|exact H].
  intros c [Hc|Hc]; auto using upper_is_word, digit_is_word.
Qed.

Lemma head_class (cls : ascii -> bool) c s :
  Forall (fun c => cls c = true) (c :: s) -> cls c = true.
Proof. now inversion 1. Qed.

(** A plate of the shape a pattern allows is matched whole by that pattern. *)
Lemma plate_pattern_complete a1 a2 b1 b2 c1 c2 p :
  1 <= a1 -> 1 <= b1 -> 1 <= c1 ->
  plate_shape a1 a2 b1 b2 c1 c2 p ->
  match_here (plate_pattern a1 a2 b1 b2 c1 c2) None p = Some p.
Proof.
  intros Ha Hb Hc (l & d & l' & -> & Hl & Hll & Hd & Hdl & Hl' & Hl'l).
  unfold plate_pattern. cbn [match_here].
  destruct l as [|x l]; [cbn in Hll; lia|].
  destruct d as [|y d]; [cbn in Hdl; lia|].
  destruct l' as [|z l']; [cbn in Hl'l; lia|].
  assert (Hx := head_class _ _ _ Hl). assert (Hy := head_class _ _ _ Hd).
  assert (Hz := head_class _ _ _ Hl').
  replace (word_boundary None ((x :: l) ++ (y :: d) ++ z :: l')) with true
    by (cbn; now rewrite (upper_is_word _ Hx)).
  apply greedy_run; auto using upper_not_digit, digit_not_upper.
  { cbn. now apply digit_not_upper. }
  apply greedy_run; auto.
  { cbn. now apply upper_not_digit. }
  apply (greedy_run is_space _ [] 0 1); auto.
  { cbn. now apply upper_not_space. }
  rewrite <- (app_nil_r (z :: l')) at 1 2.
  apply greedy_run; auto.
  destruct (last_unit_all (fun c => is_upper c = true)
              (last_unit (last_unit (last_unit None (x :: l)) (y :: d)) [])
              (z :: l')) as (w & -> & Hw); [discriminate|exact Hl'|].
  cbn [match_here]. unfold word_boundary. now rewrite (upper_is_word _ Hw).
Qed.

Lemma plate_pattern_at_end a1 a2 b1 b2 c1 c2 prev :
  1 <= a1 -> match_here (plate_pattern a1 a2 b1 b2 c1 c2) prev [] = None.
Proof.
  intros Ha. unfold plate_pattern. cbn [match_here].
  destruct (word_boundary prev []); [|reflexivity].
  destruct a1; [lia|]. destruct a2; reflexivity.
Qed.

Lemma matchAll_from_skip re : forall s idx prev,
  matchAll_from re (length s) idx prev s =
  matchAll_from re 0 (idx + length s) (last_unit prev s) [].
Proof.
  induction s as [|c s IH]; intros idx prev; cbn [length].
  - now rewrite Nat.add_0_r.
  - cbn [matchAll_from]. rewrite IH, Nat.add_succ_r. reflexivity.
Qed.

(** Inside a run of word characters no position is a word boundary, so a
    plate pattern finds nothing there. *)
Lemma no_match_inside a1 a2 b1 b2 c1 c2 : forall s idx c,
  1 <= a1 -> is_word c = true -> Forall (fun c => is_word c = true) s ->
  matchAll_from (plate_pattern a1 a2 b1 b2 c1 c2) 0 idx (Some c) s = [].
Proof.
  induction s as [|c' s IH]; intros idx c Ha Hc Hs.
  - cbn [matchAll_from]. now rewrite plate_pattern_at_end.
  - inversion Hs as [|? ? Hc' Hs']; subst. cbn [matchAll_from].
    replace (match_here (plate_pattern a1 a2 b1 b2 c1 c2) (Some c) (c' :: s))
      with (@None jsstring)
      by (unfold plate_pattern; cbn [match_here]; unfold word_boundary;
          now rewrite Hc, Hc').
    apply IH; assumption.
Qed.

(** In a plate made of word characters only a plate pattern matches the whole
    plate or nothing. *)
Lemma matchAll_plate a1 a2 b1 b2 c1 c2 p :
  1 <= a1 -> 1 <= c1 -> p <> [] ->
  Forall (fun c => is_word c = true) p ->
  match match_here (plate_pattern a1 a2 b1 b2 c1 c2) None p with
  | Some m => m = p /\ matchAll (plate_pattern a1 a2 b1 b2 c1 c2) p
                       = [{| index := 0; group1 := p |}]
  | None => matchAll (plate_pattern a1 a2 b1 b2 c1 c2) p = []
  end.
Proof.
  intros Ha Hc Hne Hp. destruct p as [|c p']; [easy|].
  assert (Hcw : is_word c = true) by now inversion Hp.
  assert (Hp' : Forall (fun c => is_word c = true) p') by now inversion Hp.
  unfold matchAll. cbn [matchAll_from].
  destruct (match_here _ None (c :: p')) as [m|] eqn:Hm.
  - assert (m = c :: p') as ->.
    { apply plate_pattern_sound in Hm
        as (l & d & sp & l' & rest & Hsplit & -> & _ & _ & _ & _ & _ & Hl' & Hl'l & Hb).
      destruct rest as [|r rest]; [now rewrite app_nil_r in Hsplit|exfalso].
      assert (Hr : is_word r = true).
      { rewrite Hsplit in Hp. apply Forall_app in Hp as [_ Hp]. now inversion Hp. }
      rewrite !last_unit_app in Hb.
      destruct (last_unit_all (fun c => is_upper c = true)
                  (last_unit (last_unit (last_unit None l) d) sp) l')
        as (w & Hw & Hwu); [destruct l'; [cbn in Hl'l; lia|discriminate]|exact Hl'|].
      rewrite Hw in Hb. unfold word_boundary in Hb.
      rewrite (upper_is_word _ Hwu), Hr in Hb. discriminate. }
    split; [reflexivity|]. f_equal. cbn [length pred].
    rewrite matchAll_from_skip. cbn [matchAll_from].
    now rewrite plate_pattern_at_end.
  - apply no_match_inside; assumption.
Qed.

Lemma sort_singleton {A} (cmp : A -> A -> Z) x : sort cmp [x] = [x].
Proof. reflexivity. Qed.

Lemma plate_shape_weaken p :
  plate_shape 2 2 2 2 3 3 p -> plate_shape 1 3 1 4 1 3 p.
Proof.
  intros (l & d & l' & -> & Hl & Hll & Hd & Hdl & Hl' & Hl'l).
  exists l, d, l'. repeat split; auto; lia.
Qed.

(** What [first_pattern] returns on cleaned text is a plate of the cherished
    shape without the letter O. *)
Lemma first_pattern_plate t p :
  Forall clean_unit t ->
  first_pattern UK_REGEXES t = Some p ->
  plate_shape 1 3 1 4 1 3 p /\ Forall clean_unit p.
Proof.
  intros Ht.
  assert (Hcand : forall a1 a2 b1 b2 c1 c2 l,
    l = candidates (plate_pattern a1 a2 b1 b2 c1 c2) t ->
    hd_error (sort by_closeness l) = Some p ->
    plate_shape a1 a2 b1 b2 c1 c2 p /\ Forall clean_unit p).
  { intros a1 a2 b1 b2 c1 c2 l -> H. unfold by_closeness in H.
    rewrite hd_error_sort in H.
    apply leftmost_min_split in H as (l1 & l2 & Hsplit & _ & _).
    assert (Hin : In p (candidates (plate_pattern a1 a2 b1 b2 c1 c2) t))
      by (rewrite Hsplit; apply in_elt).
    unfold candidates in Hin. apply in_map_iff in Hin as (m & <- & Hin).
    apply matchAll_from_In in Hin as (prev & s1 & s2 & -> & Hm).
    apply candidate_shape in Hm as [Hshape Hunits]. split; [exact Hshape|].
    apply Hunits. now apply Forall_app in Ht. }
  unfold UK_REGEXES. cbn [first_pattern].
  destruct (candidates current_format t) as [|q qs] eqn:E1.
  - destruct (candidates cherished_formats t) as [|q qs] eqn:E2; [discriminate|].
    intros H. exact (Hcand 1 3 1 4 1 3 _ (eq_sym E2) H).
  - intros H. destruct (Hcand 2 2 2 2 3 3 _ (eq_sym E1) H) as [Hs Hu].
    split; [now apply plate_shape_weaken|exact Hu].
Qed.

(** Such a plate normalises to itself. *)
Lemma normalisePlate_plate p :
  plate_shape 1 3 1 4 1 3 p -> Forall clean_unit p ->
  normalisePlate (Some p) = Some p.
Proof.
  intros Hshape Hclean.
  assert (Hne : p <> []).
  { destruct Hshape as (l & d & l' & -> & _ & Hl & _). destruct l; [cbn in Hl; lia|easy]. }
  assert (Hw := plate_shape_words _ _ _ _ _ _ _ Hshape).
  assert (Hstrip : strip_spaces p = p).
  { apply strip_spaces_none. eapply Forall_impl; [|exact Hw]. exact word_not_space. }
  unfold normalisePlate. destruct p as [|c p'] eqn:Ep; [easy|]. rewrite <- Ep in *.
  rewrite (cleaned_plate p) by eauto using plate_shape_units.
  unfold UK_REGEXES. cbn [first_pattern]. unfold candidates.
  assert (H1 := matchAll_plate 2 2 2 2 3 3 p (le_S _ _ (le_n 1)) (le_S _ _ (le_S _ _ (le_n 1))) Hne Hw).
  assert (H2 := matchAll_plate 1 3 1 4 1 3 p (le_n 1) (le_n 1) Hne Hw).
  rewrite plate_pattern_complete in H2 by auto.
  destruct H2 as [_ H2].
  change (plate_pattern 2 2 2 2 3 3) with current_format in H1.
  change (plate_pattern 1 3 1 4 1 3) with cherished_formats in H2.
  destruct (match_here current_format None p) as [m|].
  - destruct H1 as [_ H1]. rewrite H1. cbn [map group1]. now rewrite Hstrip.
  - rewrite H1, H2. cbn [map group1]. now rewrite Hstrip.
Qed.

(** C6.  [normalisePlate] is idempotent on its results: a plate it returns
    for some input is returned unchanged when it is the input. *)
Theorem normalisePlate_idempotent (x : option jsstring) (p : jsstring) :
  normalisePlate x = Some p -> normalisePlate (Some p) = Some p.
Proof.
  destruct x as [[|c x]|]; try discriminate. unfold normalisePlate at 1.
  intros H. apply first_pattern_plate in H as [Hshape Hclean];
    [|apply cleaned_units].
  now apply normalisePlate_plate.
Qed.

(** ** normalisePlate: the reference cases *)

(** C7.  Null and the empty string give null; "AB12 CDE" and, whatever the
    case, "ab12cde" give "AB12CDE"; the words after a plate are ignored. *)
Theorem normalisePlate_reference_cases :
  normalisePlate None = None /\
  normalisePlate (Some []) = None /\
  normalisePlate (Some (str "AB12 CDE")) = Some (str "AB12CDE") /\
  normalisePlate (Some (str "ab12cde")) = Some (str "AB12CDE") /\
  normalisePlate (Some (str "GF12 ABC parked")) = Some (str "GF12ABC").
Proof. repeat split; vm_compute; reflexivity. Qed.

Lemma cleaned_no_O text : Forall (fun c => code c <> 79) (cleaned text).
Proof.
  eapply Forall_impl; [|apply cleaned_units]. now intros c [_ H].
Qed.

(** C1.  The text the patterns see holds no letter O: each became the digit
    0.  For "0O12 CDE" that text is "0012 CDE", which starts with digits;
    both patterns want letters first, so the result is null, not "0012CDE".
    [runTests] expects "0012CDE" here and counts the case, with "STAR 1", as
    failed. *)
Theorem normalisePlate_0O12_CDE :
  (forall text, Forall (fun c => code c <> 79) (cleaned text)) /\
  cleaned (str "0O12 CDE") = str "0012 CDE" /\
  matchAll current_format (str "0012 CDE") = [] /\
  matchAll cherished_formats (str "0012 CDE") = [] /\
  normalisePlate (Some (str "0O12 CDE")) = None /\
  In (str "0O12 CDE", Some (str "0012CDE")) testCases /\
  snd runTests = [str "0O12 CDE"; str "STAR 1"].
Proof.
  split; [exact cleaned_no_O|].
  repeat split; try (vm_compute; reflexivity).
  right. right. left. reflexivity.
Qed.

Lemma normalisePlate_idempotent_witness :
  normalisePlate (Some (str "GF12 ABC parked")) = Some (str "GF12ABC") /\
  normalisePlate (Some (str "GF12ABC")) = Some (str "GF12ABC").
Proof.
  split; [reflexivity|].
  apply (normalisePlate_idempotent (Some (str "GF12 ABC parked"))).
  reflexivity.
Defined.

(** ** The booking lookup *)

(** C5.  With the mock off [lookupByReg] changes nothing and waits for the
    fetch of the plate's URL.  Whatever the state is when the fetch answers,
    a transport failure and a response outside 200-299 end the lookup with
    the "No booking found" notice for the plate in the booking box: the same
    outcome in both cases, the one a 404 gives, with the rest of the state as
    it was.  A response within 200-299 changes nothing until its body is
    read; the box then shows the card of the booking if the body is a JSON
    value other than null, and the notice otherwise.  So when the box shows
    another card after the answer than before, the answer was a response
    within 200-299. *)
Theorem lookupByReg_failures_are_not_found (reg : jsstring) (s : PlateScanner) :
  let s0 := set_mockToggle false s in
  fst (lookupByReg reg s0) = s0 /\
  exists k,
    snd (lookupByReg reg s0) = [Await (Fetch (bookings_url reg)) k] /\
    (forall e s',
       box_after (k (Rejected e) s') = NoBookingFound reg /\
       snd (k (Rejected e) s') = []) /\
    (forall response s',
       ~ (200 <= Response.status response <= 299)%Z ->
       box_after (k (Fulfilled response) s') = NoBookingFound reg /\
       snd (k (Fulfilled response) s') = [] /\
       forall e, k (Fulfilled response) s' = k (Rejected e) s') /\
    (forall r s',
       box_after (k r s') = NoBookingFound reg ->
       let s1 := fst (k r s') in
       lastPlateEl_textContent (display s1) = lastPlateEl_textContent (display s') /\
       logEl (display s1) = logEl (display s') /\
       alerts (display s1) = alerts (display s') /\
       inputs s1 = inputs s' /\ browser s1 = browser s' /\
       stream s1 = stream s' /\ timer s1 = timer s' /\ worker s1 = worker s') /\
    (forall response s',
       (200 <= Response.status response <= 299)%Z ->
       fst (k (Fulfilled response) s') = s' /\
       exists k',
         snd (k (Fulfilled response) s') = [Await Tick k'] /\
         forall s'',
           snd (k' tt s'') = [] /\
           match Response.body response with
           | JsonBody (JObject data) =>
               exists card,
                 box_after (k' tt s'') = BookingShown card /\
                 Card.reg card = or_text (Booking.reg data) [] /\
                 Card.status card = or_text (Booking.status data) (str "unknown") /\
                 Card.arrival card = Booking.arrival data
           | _ => box_after (k' tt s'') = NoBookingFound reg
           end) /\
    (forall r s' card,
       box_after (k r s') = BookingShown card ->
       bookingBox (display s') = BookingShown card).
Proof.
  cbv zeta. split; [reflexivity|].
  exists (lookupByReg_response reg). split; [reflexivity|].
  split; [intros e s'; split; reflexivity|]. split.
  { intros response s' Hstatus.
    assert (Hok : Response.ok response = false).
    { unfold Response.ok. destruct (200 <=? _)%Z eqn:E1; [|reflexivity].
      destruct (_ <=? 299)%Z eqn:E2; [|reflexivity].
      apply Z.leb_le in E1, E2. lia. }
    unfold lookupByReg_response. rewrite Hok. repeat split. }
  split.
  { intros r s'. unfold lookupByReg_response, box_after.
    destruct r as [response|e]; [destruct (Response.ok response)|]; cbn;
      intros H; repeat split. }
  split.
  { intros response s' [H1 H2].
    assert (Hok : Response.ok response = true).
    { unfold Response.ok. apply andb_true_intro. split; now apply Z.leb_le. }
    unfold lookupByReg_response. rewrite Hok. split; [reflexivity|].
    eexists. split; [reflexivity|]. intros s''. unfold lookupByReg_json.
    destruct (Response.body response) as [[|data]|];
      (split; [reflexivity|]); try reflexivity.
    eexists. repeat split. }
  intros r s' card. unfold lookupByReg_response, box_after.
  destruct r as [response|e]; [destruct (Response.ok response)|]; cbn;
    congruence.
Qed.


(** ** The confidence gate *)

Lemma or_else_truthy n d : truthy d = true -> truthy (or_else n d) = true.
Proof. unfold or_else. destruct (truthy n) eqn:E; auto. Qed.

Lemma skip_spaces_nil s :
  skip_spaces s = [] <-> Forall (fun c => is_space c = true) s.
Proof.
  induction s as [|c s IH]; simpl; [split; auto|].
  destruct (is_space c) eqn:Ec.
  - rewrite IH. split; [now constructor|now inversion 1].
  - split; [discriminate|]. inversion 1; congruence.
Qed.

Lemma skip_spaces_head s :
  match skip_spaces s with c :: _ => is_space c = false | [] => True end.
Proof.
  induction s as [|c s IH]; simpl; [exact I|].
  destruct (is_space c) eqn:Ec; [exact IH|exact Ec].
Qed.

Lemma trim_nil s : trim s = [] <-> Forall (fun c => is_space c = true) s.
Proof.
  unfold trim. rewrite <- skip_spaces_nil. split.
  - intros H. apply (f_equal (@rev ascii)) in H. rewrite rev_involutive in H.
    simpl in H. apply skip_spaces_nil, Forall_rev in H.
    rewrite rev_involutive in H.
    pose proof (skip_spaces_head s) as Hh.
    destruct (skip_spaces s) as [|c r]; [reflexivity|].
    inversion H; congruence.
  - intros ->. reflexivity.
Qed.

Lemma skip_spaces_none s :
  Forall (fun c => is_space c = false) s -> skip_spaces s = s.
Proof. destruct 1 as [|c s Hc _]; simpl; [reflexivity|now rewrite Hc]. Qed.

Lemma trim_none s : Forall (fun c => is_space c = false) s -> trim s = s.
Proof.
  intros H. unfold trim. rewrite (skip_spaces_none s H).
  rewrite skip_spaces_none by now apply Forall_rev.
  apply rev_involutive.
Qed.

Lemma skip_spaces_last c l :
  is_space c = false -> exists l', skip_spaces (l ++ [c]) = l' ++ [c].
Proof.
  intros Hc. induction l as [|x l IH]; simpl.
  - rewrite Hc. now exists [].
  - destruct (is_space x); [exact IH|]. now exists (x :: l).
Qed.

Lemma trim_cons c t : is_space c = false -> exists t', trim (c :: t) = c :: t'.
Proof.
  intros Hc. unfold trim. simpl skip_spaces at 2. rewrite Hc. simpl rev at 2.
  destruct (skip_spaces_last c (rev t) Hc) as [l' ->].
  exists (rev l'). now rewrite rev_app_distr.
Qed.

(** The empty text and a text of white space are the number 0. *)
Lemma Number_blank v : Forall (fun c => is_space c = true) v -> Number v = Num 0.
Proof. intros H. unfold Number. now rewrite (proj2 (trim_nil v) H). Qed.

(** A text that cannot begin a numeric literal is NaN. *)
Lemma Number_starts_no_number v : starts_no_number v -> Number v = NaN.
Proof.
  destruct v as [|c t]; [intros []|]. intros (Hspace & Hdigit & Hin).
  destruct (trim_cons c t Hspace) as [t' Ht]. unfold Number. rewrite Ht. clear Ht.
  assert (Hhead : forall u : jsstring, c :: t' <> "I"%char :: u).
  { intros u [= -> _]. apply Hin. cbn. tauto. }
  assert (Hnum : unsigned_decimal (c :: t') = NaN).
  { unfold unsigned_decimal.
    destruct (list_eq_dec ascii_dec (c :: t') (str "Infinity")) as [E|_];
      [now apply Hhead in E|].
    cbn [span]. rewrite Hdigit.
    destruct c as [[] [] [] [] [] [] [] []]; try reflexivity;
      exfalso; apply Hin; cbn; tauto. }
  destruct c as [[] [] [] [] [] [] [] []]; try exact Hnum;
    try discriminate Hdigit; exfalso; apply Hin; cbn; tauto.
Qed.

Lemma span_zeros n : span is_digit (repeat "0"%char n) = (repeat "0"%char n, []).
Proof. induction n as [|n IH]; [reflexivity|]. cbn [repeat span]. now rewrite IH. Qed.

Lemma digits_value_zeros n : digits_value 10 0 (repeat "0"%char n) = Some 0%Z.
Proof. induction n as [|n IH]; [reflexivity|exact IH]. Qed.

(** A run of zeros is the number 0. *)
Lemma Number_zeros n : Number (repeat "0"%char (S n)) = Num 0.
Proof.
  assert (Hdec : forall m, unsigned_decimal (repeat "0"%char (S m)) = Num 0).
  { intros m. unfold unsigned_decimal.
    destruct (list_eq_dec _ _ _) as [E|_]; [discriminate E|].
    rewrite span_zeros, app_nil_r. cbn [repeat exponent_part numeral].
    change (digits_value 10 0 ("0"%char :: repeat "0"%char m))
      with (digits_value 10 0 (repeat "0"%char m)).
    rewrite digits_value_zeros. reflexivity. }
  unfold Number. rewrite trim_none by (apply Forall_forall; intros c Hc;
    apply repeat_spec in Hc; now subst).
  destruct n as [|n]; [reflexivity|]. exact (Hdec (S n)).
Qed.

Lemma normalisePlate_nonempty x p : normalisePlate x = Some p -> p <> [].
Proof.
  destruct x as [[|c0 x]|]; try discriminate. unfold normalisePlate. intros H.
  apply (first_pattern_plate _ _ (cleaned_units (c0 :: x))) in H as [Hshape _].
  destruct Hshape as (l & d & l' & -> & _ & Hl & _).
  destruct l; [cbn in Hl; lia|easy].
Qed.

Lemma threshold_of_field v s :
  gate_threshold (set_confidence v s) = or_else (Number v) (Num 45).
Proof. reflexivity. Qed.

(** C9.  A confidence that is missing, zero or NaN counts as 55; every
    other one is rounded.  The threshold is the number the input holds,
    rounded to a double, unless that is zero or NaN: then it is 45.  So an
    input that is empty or white space, that is a run of zeros (or a literal
    too small for a double, as "1e-400"), or that cannot begin a number (as
    "abc") gives 45, and no input gives a threshold of zero.  When the text
    normalises to a plate, the plate is shown and logged, and a lookup of it
    begins exactly when the confidence reaches the threshold: one task is
    left waiting, for the fetch of the plate's URL or for the mock; below
    the threshold no task is left.  A plate read with confidence 0 is looked
    up whenever the input gives the default threshold; with the mock on the
    lookup of "AB12 CDE" ends in the card of AB12CDE, and with the mock off
    it waits for the fetch of "/api/bookings?reg=AB12CDE". *)
Theorem confidence_gate_defaults :
  (forall data,
     gate_confidence data =
     match OcrData.confidence data with
     | None | Some NaN => Num 55
     | Some (Num q) =>
         if Qeq_bool q 0 then Num 55 else Num (inject_Z (Qfloor (q + (1 # 2))))
     | Some (Infinity negative) => Infinity negative
     end) /\
  (forall text,
     gate_confidence {| OcrData.text := text; OcrData.confidence := None |} = Num 55 /\
     gate_confidence {| OcrData.text := text; OcrData.confidence := Some (Num 0) |} = Num 55 /\
     gate_confidence {| OcrData.text := text; OcrData.confidence := Some NaN |} = Num 55) /\
  (forall s v,
     gate_threshold (set_confidence v s) =
     match Number v with
     | NaN => Num 45
     | Num q => if Qeq_bool q 0 then Num 45 else Num q
     | Infinity negative => Infinity negative
     end) /\
  (forall s v,
     Forall (fun c => is_space c = true) v ->
     gate_threshold (set_confidence v s) = Num 45) /\
  (forall s n, gate_threshold (set_confidence (repeat "0"%char (S n)) s) = Num 45) /\
  (forall s v,
     starts_no_number v -> gate_threshold (set_confidence v s) = Num 45) /\
  (forall s,
     gate_threshold (set_confidence [] s) = Num 45 /\
     gate_threshold (set_confidence (str "0") s) = Num 45 /\
     gate_threshold (set_confidence (str "abc") s) = Num 45 /\
     gate_threshold (set_confidence (str "60") s) = Num 60 /\
     gate_threshold (set_confidence (str " ") s) = Num 45 /\
     gate_threshold (set_confidence (str "0.0") s) = Num 45 /\
     gate_threshold (set_confidence (str "-0") s) = Num 45 /\
     gate_threshold (set_confidence (str "0x0") s) = Num 45 /\
     gate_threshold (set_confidence (str "1e-400") s) = Num 45 /\
     gate_threshold (set_confidence (str "12px") s) = Num 45 /\
     gate_threshold (set_confidence (str "4,5") s) = Num 45 /\
     gate_threshold (set_confidence (str "45") s) = Num 45 /\
     gate_threshold (set_confidence (str " 7e1 ") s) = Num 70) /\
  (forall s, truthy (gate_threshold s) = true) /\
  (forall s q, gate_threshold s = Num q -> ~ (q == 0)%Q) /\
  (forall s data,
     handleOCRResult data s =
     match normalisePlate (OcrData.text data) with
     | Some (c :: p) =>
         let shown := log (Detected (c :: p) (gate_confidence data))
                          (set_lastPlate (spaced (c :: p)) s) in
         if ge (gate_confidence data) (gate_threshold s)
         then lookupByReg (c :: p) shown
         else (shown, [])
     | _ => (log (Line (str "No plate matched")) s, [])
     end) /\
  (forall s data plate,
     normalisePlate (OcrData.text data) = Some plate ->
     let out := handleOCRResult data s in
     lastPlateEl_textContent (display (fst out)) = spaced plate /\
     logEl (display (fst out))
       = Detected plate (gate_confidence data) :: logEl (display s) /\
     if ge (gate_confidence data) (gate_threshold s)
     then lookup_begun plate (mockToggle_checked (inputs s)) (snd out)
     else snd out = []) /\
  (forall s text plate,
     normalisePlate text = Some plate ->
     truthy (Number (confidenceEl_value (inputs s))) = false \/
     confidenceEl_value (inputs s) = str "45" ->
     lookup_begun plate (mockToggle_checked (inputs s))
       (snd (handleOCRResult
               {| OcrData.text := text; OcrData.confidence := Some (Num 0) |} s))) /\
  (forall s v,
     In v [[]; str "0"; str "abc"; str "45"] ->
     let s0 := set_confidence v s in
     handleOCRResult
       {| OcrData.text := Some (str "AB12 CDE"); OcrData.confidence := Some (Num 0) |} s0
     = lookupByReg (str "AB12CDE")
         (log (Detected (str "AB12CDE") (Num 55))
              (set_lastPlate (str "AB12 CDE") s0))) /\
  (forall s v,
     In v [[]; str "0"; str "abc"; str "45"] ->
     let read := {| OcrData.text := Some (str "AB12 CDE");
                    OcrData.confidence := Some (Num 0) |} in
     (exists k,
        snd (handleOCRResult read (set_mockToggle false (set_confidence v s)))
          = [Await (Fetch (str "/api/bookings?reg=AB12CDE")) k] /\
        forall e s', box_after (k (Rejected e) s') = NoBookingFound (str "AB12CDE")) /\
     (exists k,
        snd (handleOCRResult read (set_mockToggle true (set_confidence v s)))
          = [Await Tick k] /\
        forall s', exists k',
          snd (k tt s') = [Await Tick k'] /\
          forall s'', exists card,
            box_after (k' tt s'') = BookingShown card /\
            Card.reg card = str "AB12CDE")).
Proof.
  split.
  { intros [text [[| |q]|]]; try reflexivity.
    unfold gate_confidence, or_else. cbn. now destruct (Qeq_bool q 0). }
  split; [intros text; repeat split|].
  assert (Hlaw : forall s v,
    gate_threshold (set_confidence v s) =
    match Number v with
    | NaN => Num 45
    | Num q => if Qeq_bool q 0 then Num 45 else Num q
    | Infinity negative => Infinity negative
    end).
  { intros s v. rewrite threshold_of_field. unfold or_else.
    destruct (Number v) as [| |q]; try reflexivity. cbn.
    now destruct (Qeq_bool q 0). }
  split; [exact Hlaw|].
  split; [intros s v H; now rewrite Hlaw, (Number_blank v H)|].
  split; [intros s n; now rewrite Hlaw, Number_zeros|].
  split; [intros s v H; now rewrite Hlaw, (Number_starts_no_number v H)|].
  split; [intros s; repeat split|].
  assert (Htruthy : forall s, truthy (gate_threshold s) = true)
    by (intros s; now apply or_else_truthy).
  split; [exact Htruthy|]. split.
  { intros s q Hq Hzero. specialize (Htruthy s). rewrite Hq in Htruthy. cbn in Htruthy.
    apply Qeq_bool_iff in Hzero. now rewrite Hzero in Htruthy. }
  assert (Hgate : forall s data,
     handleOCRResult data s =
     match normalisePlate (OcrData.text data) with
     | Some (c :: p) =>
         let shown := log (Detected (c :: p) (gate_confidence data))
                          (set_lastPlate (spaced (c :: p)) s) in
         if ge (gate_confidence data) (gate_threshold s)
         then lookupByReg (c :: p) shown
         else (shown, [])
     | _ => (log (Line (str "No plate matched")) s, [])
     end).
  { intros s data. unfold handleOCRResult, gate_confidence, gate_threshold.
    destruct (normalisePlate (OcrData.text data)) as [[|c p]|]; reflexivity. }
  split; [exact Hgate|].
  assert (Hbegun : forall s data plate,
     normalisePlate (OcrData.text data) = Some plate ->
     let out := handleOCRResult data s in
     lastPlateEl_textContent (display (fst out)) = spaced plate /\
     logEl (display (fst out))
       = Detected plate (gate_confidence data) :: logEl (display s) /\
     if ge (gate_confidence data) (gate_threshold s)
     then lookup_begun plate (mockToggle_checked (inputs s)) (snd out)
     else snd out = []).
  { intros s data plate Hplate. cbv zeta. rewrite Hgate, Hplate.
    pose proof (normalisePlate_nonempty _ _ Hplate) as Hne.
    destruct plate as [|c p]; [easy|]. cbv zeta.
    destruct (ge (gate_confidence data) (gate_threshold s)).
    - unfold lookupByReg. cbn [inputs log set_lastPlate set_display].
      destruct (mockToggle_checked (inputs s)); cbn; repeat split.
    - repeat split. }
  split; [exact Hbegun|]. split.
  { intros s text plate Hplate Hfield.
    pose proof (Hbegun s {| OcrData.text := text; OcrData.confidence := Some (Num 0) |}
                  plate Hplate) as (_ & _ & H).
    assert (Hge : ge (gate_confidence
                        {| OcrData.text := text; OcrData.confidence := Some (Num 0) |})
                     (gate_threshold s) = true).
    { unfold gate_threshold, or_else.
      destruct Hfield as [-> | ->]; reflexivity. }
    now rewrite Hge in H. }
  assert (Hread : forall s v,
     In v [[]; str "0"; str "abc"; str "45"] ->
     let s0 := set_confidence v s in
     handleOCRResult
       {| OcrData.text := Some (str "AB12 CDE"); OcrData.confidence := Some (Num 0) |} s0
     = lookupByReg (str "AB12CDE")
         (log (Detected (str "AB12CDE") (Num 55))
              (set_lastPlate (str "AB12 CDE") s0))).
  { intros s v Hv. cbv zeta.
    assert (Hge : ge (Num 55) (or_else (Number v) (Num 45)) = true).
    { cbn in Hv. destruct Hv as [<-|[<-|[<-|[<-|[]]]]]; reflexivity. }
    unfold handleOCRResult.
    change (normalisePlate (OcrData.text _)) with (Some (str "AB12CDE")).
    cbv iota beta zeta.
    change (Math_round _) with (Num 55).
    change (confidenceEl_value (inputs _)) with v.
    rewrite Hge. reflexivity. }
  split; [exact Hread|].
  intros s v Hv. cbv zeta. split.
  - pose proof (Hread (set_mockToggle false s) v Hv) as H. cbv zeta in H.
    change (set_confidence v (set_mockToggle false s))
      with (set_mockToggle false (set_confidence v s)) in H.
    rewrite H. eexists. split; [reflexivity|]. intros e s'. reflexivity.
  - pose proof (Hread (set_mockToggle true s) v Hv) as H. cbv zeta in H.
    change (set_confidence v (set_mockToggle true s))
      with (set_mockToggle true (set_confidence v s)) in H.
    rewrite H. eexists. split; [reflexivity|]. intros s'.
    eexists. split; [reflexivity|]. intros s''.
    eexists. split; reflexivity.
Qed.

(** ** The timer invariant *)

(** An outcome keeps [P]: the state it leaves satisfies it and so do, when
    they go on, the tasks it leaves. *)
Definition outcome_keeps (P : PlateScanner -> Prop) (o : Outcome) : Prop :=
  P (fst o) /\ Forall (keeps P) (snd o).

Lemma keeps_Await P {A} (req : Request A) k :
  keeps P (Await req k) <-> forall a s, P s -> outcome_keeps P (k a s).
Proof.
  assert (Hall : forall l,
    (fix all (l : list Task) : Prop :=
       match l with
       | [] => True
       | t' :: l' => keeps P t' /\ all l'
       end) l <-> Forall (keeps P) l).
  { induction l as [|t l IH]; [split; constructor|].
    rewrite Forall_cons_iff, <- IH. reflexivity. }
  cbn [keeps]. unfold outcome_keeps.
  split; intros H a s Hs; destruct (H a s Hs) as [H1 H2];
    (split; [exact H1|apply Hall; exact H2]).
Qed.

Lemma keeps_done P s : P s -> outcome_keeps P (done s).
Proof. intros H. split; [exact H|constructor]. Qed.

Lemma keeps_await P {A} (req : Request A) k s :
  P s -> (forall a s, P s -> outcome_keeps P (k a s)) ->
  outcome_keeps P (s, [Await req k]).
Proof.
  intros Hs Hk. split; [exact Hs|]. constructor; [|constructor].
  apply keeps_Await, Hk.
Qed.

(** Writing anything but the timer and the table of armed timers keeps the
    invariant. *)
Lemma timer_invariant_frame s s' :
  armed (browser s') = armed (browser s) -> timer s' = timer s ->
  timer_invariant s -> timer_invariant s'.
Proof. unfold timer_invariant. intros -> ->. exact (fun H => H). Qed.

Lemma clearTimeout_own s id delay :
  armed (browser s) = [(id, delay)] -> armed (browser (clearTimeout id s)) = [].
Proof. cbn. intros ->. cbn. now rewrite Pos.eqb_refl. Qed.

Lemma clearTimeout_invariant id s :
  timer_invariant s -> timer_invariant (clearTimeout id s).
Proof.
  intros [H|(id' & d & H & Ht)]; unfold timer_invariant; cbn; rewrite H; cbn.
  - now left.
  - destruct (Pos.eqb id' id); cbn; [now left|right; eauto].
Qed.

(** After [scheduleScan] exactly one timer is armed: a new one, kept in
    [this.timer]. *)
Lemma scheduleScan_arms s :
  timer_invariant s ->
  exists delay,
    armed (browser (scheduleScan s)) = [(next_timer (browser s), delay)] /\
    timer (scheduleScan s) = Some (next_timer (browser s)) /\
    next_timer (browser (scheduleScan s)) = Pos.succ (next_timer (browser s)).
Proof.
  intros Hinv. unfold scheduleScan.
  assert (Hclear : armed (browser (match timer s with
                                   | Some id => clearTimeout id s
                                   | None => s
                                   end)) = []).
  { destruct Hinv as [H|(id & d & H & ->)]; [|eapply clearTimeout_own; eauto].
    destruct (timer s); [cbn; now rewrite H|exact H]. }
  assert (Hnext : next_timer (browser (match timer s with
                                       | Some id => clearTimeout id s
                                       | None => s
                                       end)) = next_timer (browser s))
    by (destruct (timer s); reflexivity).
  set (s1 := match timer s with Some id => clearTimeout id s | None => s end) in *.
  eexists. cbn. rewrite Hclear, Hnext. cbn. repeat split.
Qed.

Lemma scheduleScan_invariant s :
  timer_invariant s -> timer_invariant (scheduleScan s).
Proof.
  intros H. destruct (scheduleScan_arms s H) as (d & Ha & Ht & _).
  right. eauto.
Qed.

Lemma scheduleScan_frame s :
  stream (scheduleScan s) = stream s /\ worker (scheduleScan s) = worker s /\
  inputs (scheduleScan s) = inputs s /\ display (scheduleScan s) = display s.
Proof. unfold scheduleScan. destruct (timer s); repeat split. Qed.

(** After [stopCamera] no timer is armed and no stream is held. *)
Lemma stopCamera_disarms s :
  timer_invariant s ->
  armed (browser (stopCamera s)) = [] /\ stream (stopCamera s) = None.
Proof.
  intros Hinv. unfold stopCamera.
  set (s1 := match timer s with
             | Some id => set_timer None (clearTimeout id s)
             | None => s
             end).
  assert (H1 : armed (browser s1) = []).
  { subst s1. destruct Hinv as [H|(id & d & H & Ht)].
    - destruct (timer s); cbn; now rewrite H.
    - rewrite Ht. cbn. rewrite H. cbn. now rewrite Pos.eqb_refl. }
  clearbody s1. destruct (stream s1) eqn:Es; cbn; rewrite ?H1, ?Es; split; reflexivity.
Qed.

(** Clearing the timer [this.timer] names leaves none armed. *)
Lemma clear_own_timer s id :
  timer_invariant s -> timer s = Some id ->
  timer_invariant (set_timer None (clearTimeout id s)).
Proof.
  intros [H|(id' & d & H & Ht)] Hid; left; cbn; rewrite H; cbn; [reflexivity|].
  rewrite Ht in Hid. injection Hid as ->. now rewrite Pos.eqb_refl.
Qed.

Lemma stopCamera_invariant s :
  timer_invariant s -> timer_invariant (stopCamera s).
Proof. intros H. left. now apply stopCamera_disarms. Qed.

(** Each method keeps the invariant, and so does every task it suspends. *)

Ltac frame := eapply timer_invariant_frame; [| |eassumption]; reflexivity.

Lemma lookupByReg_json_keeps reg response u s :
  timer_invariant s ->
  outcome_keeps timer_invariant (lookupByReg_json reg response u s).
Proof.
  intros H. unfold lookupByReg_json.
  destruct (Response.body response) as [[|data]|]; apply keeps_done; frame.
Qed.

Lemma lookupByReg_response_keeps reg r s :
  timer_invariant s ->
  outcome_keeps timer_invariant (lookupByReg_response reg r s).
Proof.
  intros H. unfold lookupByReg_response.
  destruct r as [response|e]; [|apply keeps_done; frame].
  destruct (Response.ok response); cbn [negb]; [|apply keeps_done; frame].
  apply keeps_await; [exact H|]. intros. now apply lookupByReg_json_keeps.
Qed.

Lemma lookupByReg_keeps reg s :
  timer_invariant s -> outcome_keeps timer_invariant (lookupByReg reg s).
Proof.
  intros H. unfold lookupByReg.
  destruct (mockToggle_checked (inputs s)); (apply keeps_await; [exact H|]);
    intros; now apply lookupByReg_response_keeps.
Qed.

Lemma handleOCRResult_keeps data s :
  timer_invariant s -> outcome_keeps timer_invariant (handleOCRResult data s).
Proof.
  intros H. unfold handleOCRResult.
  destruct (normalisePlate (OcrData.text data)) as [[|c p]|];
    try (apply keeps_done; frame).
  destruct (ge _ _); [apply lookupByReg_keeps|apply keeps_done]; frame.
Qed.

Lemma captureAndRead_resume_keeps r s :
  timer_invariant s ->
  outcome_keeps timer_invariant (captureAndRead_resume r s).
Proof.
  intros H. unfold captureAndRead_resume.
  assert (Hh : outcome_keeps timer_invariant
                 match r with
                 | Fulfilled data => handleOCRResult data s
                 | Rejected _ => done (log (Line (str "OCR error")) s)
                 end).
  { destruct r; [now apply handleOCRResult_keeps|apply keeps_done; frame]. }
  destruct (match r with
            | Fulfilled data => handleOCRResult data s
            | Rejected _ => done (log (Line (str "OCR error")) s)
            end) as [s1 lookups].
  destruct Hh as [H1 H2]. split; [|exact H2]. cbn [fst].
  destruct (autoCapture_checked (inputs s1)); [now apply scheduleScan_invariant|exact H1].
Qed.

Lemma captureAndRead_keeps s :
  timer_invariant s -> outcome_keeps timer_invariant (captureAndRead s).
Proof.
  intros H. unfold captureAndRead.
  destruct (stream s), (worker s); try (now apply keeps_done).
  apply keeps_await; [frame|]. intros. now apply captureAndRead_resume_keeps.
Qed.

Lemma startCamera_catch_invariant e s :
  timer_invariant s -> timer_invariant (startCamera_catch e s).
Proof.
  intros H. unfold startCamera_catch.
  destruct (_ || _); [frame|]. destruct (has_name e _); frame.
Qed.

Lemma startCamera_finish_invariant s :
  timer_invariant s -> timer_invariant (startCamera_finish s).
Proof.
  intros H. unfold startCamera_finish.
  destruct (autoCapture_checked (inputs s)); [now apply scheduleScan_invariant|exact H].
Qed.

Create HintDb scanner.
#[local] Hint Resolve startCamera_catch_invariant startCamera_finish_invariant
  scheduleScan_invariant stopCamera_invariant clearTimeout_invariant : scanner.

(** The shape the steps of a chain of awaits share: on a rejection the
    [catch] runs, on an answer the next step is suspended or the method
    ends. *)
Ltac chain next :=
  let H := fresh "H" in
  intros H;
  match goal with
  | |- outcome_keeps _ (?f ?r ?s) => unfold f; destruct r
  end;
  try (apply keeps_done; auto with scanner; frame);
  try (apply keeps_await; [first [exact H|frame]|intros; now apply next]).

Lemma startCamera_initialized_keeps r s :
  timer_invariant s -> outcome_keeps timer_invariant (startCamera_initialized r s).
Proof.
  intros H. unfold startCamera_initialized. destruct r; apply keeps_done.
  - apply startCamera_finish_invariant. frame.
  - now apply startCamera_catch_invariant.
Qed.

Lemma startCamera_loaded_keeps r s :
  timer_invariant s -> outcome_keeps timer_invariant (startCamera_loaded r s).
Proof. chain startCamera_initialized_keeps. Qed.

Lemma startCamera_worker_keeps r s :
  timer_invariant s -> outcome_keeps timer_invariant (startCamera_worker r s).
Proof. chain startCamera_loaded_keeps. Qed.

Lemma startCamera_playing_keeps r s :
  timer_invariant s -> outcome_keeps timer_invariant (startCamera_playing r s).
Proof.
  intros H. unfold startCamera_playing.
  destruct r; [|apply keeps_done; now apply startCamera_catch_invariant].
  destruct (worker _).
  - apply keeps_done, startCamera_finish_invariant. frame.
  - apply keeps_await; [frame|]. intros. now apply startCamera_worker_keeps.
Qed.

Lemma startCamera_stream_keeps r s :
  timer_invariant s -> outcome_keeps timer_invariant (startCamera_stream r s).
Proof. chain startCamera_playing_keeps. Qed.

Lemma startCamera_listed_keeps r s :
  timer_invariant s -> outcome_keeps timer_invariant (startCamera_listed r s).
Proof.
  intros H. unfold startCamera_listed.
  apply keeps_await; [destruct r; frame|].
  intros. now apply startCamera_stream_keeps.
Qed.

Lemma startCamera_checks_keeps u s :
  timer_invariant s -> outcome_keeps timer_invariant (startCamera_checks u s).
Proof.
  intros H. unfold startCamera_checks.
  destruct (negb (isSecureContext _)); [apply keeps_done; frame|].
  destruct (negb (mediaDevices _)); [apply keeps_done; frame|].
  apply keeps_await; [exact H|]. intros. now apply startCamera_listed_keeps.
Qed.

Lemma showEnvWarnings_invariant s :
  timer_invariant s -> timer_invariant (showEnvWarnings s).
Proof.
  intros H. unfold showEnvWarnings. destruct (_ ++ _); [exact H|frame].
Qed.

Lemma startCamera_keeps s :
  timer_invariant s -> outcome_keeps timer_invariant (startCamera s).
Proof.
  intros H. unfold startCamera.
  apply keeps_await; [now apply showEnvWarnings_invariant|].
  intros. now apply startCamera_checks_keeps.
Qed.

Lemma upload_recognized_keeps r s :
  timer_invariant s -> outcome_keeps timer_invariant (upload_recognized r s).
Proof.
  intros H. unfold upload_recognized.
  destruct r; [now apply handleOCRResult_keeps|apply keeps_done; frame].
Qed.

Lemma upload_initialized_keeps r s :
  timer_invariant s -> outcome_keeps timer_invariant (upload_initialized r s).
Proof. chain upload_recognized_keeps. Qed.

Lemma upload_loaded_keeps r s :
  timer_invariant s -> outcome_keeps timer_invariant (upload_loaded r s).
Proof. chain upload_initialized_keeps. Qed.

Lemma upload_worker_keeps r s :
  timer_invariant s -> outcome_keeps timer_invariant (upload_worker r s).
Proof. chain upload_loaded_keeps. Qed.

Lemma doOCRFromImageBitmap_keeps r s :
  timer_invariant s -> outcome_keeps timer_invariant (doOCRFromImageBitmap r s).
Proof.
  intros H. unfold doOCRFromImageBitmap.
  destruct r; [|apply keeps_done; frame].
  destruct (worker s); (apply keeps_await; [exact H|]); intros;
    [now apply upload_recognized_keeps|now apply upload_worker_keeps].
Qed.

Lemma dispatch_keeps e s :
  timer_invariant s -> outcome_keeps timer_invariant (dispatch e s).
Proof.
  intros H. destruct e; cbn [dispatch].
  - now apply startCamera_keeps.
  - apply keeps_done. now apply stopCamera_invariant.
  - destruct (stream _); [|apply keeps_done; frame].
    apply startCamera_keeps, stopCamera_invariant. frame.
  - destruct (timer _); apply keeps_done; [apply scheduleScan_invariant|]; frame.
  - destruct checked; [apply keeps_done, scheduleScan_invariant; frame|].
    destruct (timer _) eqn:Et; apply keeps_done; [|frame].
    apply clear_own_timer; [frame|exact Et].
  - destruct (strip_spaces _); [now apply keeps_done|].
    apply lookupByReg_keeps. frame.
  - destruct chosen; [|now apply keeps_done].
    apply keeps_await; [exact H|]. intros. now apply doOCRFromImageBitmap_keeps.
  - apply keeps_done; frame.
  - apply keeps_done; frame.
  - apply keeps_done; frame.
Qed.

(** In every configuration the event loop reaches, the timer invariant holds
    and every suspended task keeps it. *)
Lemma reachable_invariant c :
  reachable c ->
  timer_invariant (fst c) /\ Forall (keeps timer_invariant) (snd c).
Proof.
  induction 1 as [c (_ & _ & _ & Ha & Hp)|c c' _ [Hs Hp] Hstep].
  - split; [now left|rewrite Hp; constructor].
  - destruct Hstep as [e s pool|id s pool out Hfire|A req k a s pool1 pool2|dt s pool];
      cbn [fst snd] in *.
    + destruct (dispatch_keeps e s Hs) as [H1 H2].
      split; [exact H1|apply Forall_app; now split].
    + unfold fire in Hfire. destruct (existsb _ _); [|discriminate].
      injection Hfire as <-.
      destruct (captureAndRead_keeps (clearTimeout id s)) as [H1 H2];
        [now apply clearTimeout_invariant|].
      split; [exact H1|apply Forall_app; now split].
    + apply Forall_app in Hp as [Hp1 Hp2].
      apply Forall_cons_iff in Hp2 as [Hk Hp2].
      destruct (proj1 (keeps_Await _ req k) Hk a s Hs) as [H1 H2].
      split; [exact H1|]. apply Forall_app. split; [exact Hp1|].
      apply Forall_app. now split.
    + split; [frame|exact Hp].
Qed.

Lemma timer_invariant_length s :
  timer_invariant s -> length (armed (browser s)) <= 1.
Proof. intros [->|(id & d & -> & _)]; cbn; lia. Qed.

Lemma fire_armed id s :
  fire id s <> None <-> In id (map fst (armed (browser s))).
Proof.
  unfold fire. destruct (existsb _ _) eqn:E.
  - split; [intros _|discriminate].
    apply existsb_exists in E as ((id' & d) & Hin & Heq).
    apply Pos.eqb_eq in Heq. cbn in Heq. subst id'.
    apply in_map_iff. exists (id, d). now split.
  - split; [congruence|]. intros Hin. exfalso.
    apply in_map_iff in Hin as ((id' & d) & Heq & Hin). cbn in Heq. subst id'.
    assert (existsb (fun t => Pos.eqb (fst t) id) (armed (browser s)) = true).
    { apply existsb_exists. exists (id, d). split; [exact Hin|apply Pos.eqb_refl]. }
    congruence.
Qed.

(** C4.  In every configuration the event loop reaches at most one scan
    timer is armed.  [scheduleScan] leaves exactly one, a new one; called
    again before that one fires it disarms it and leaves exactly one again:
    only the second timer can fire, the first never does, and once the second
    has fired none is armed. *)
Theorem scheduleScan_one_timer (c : Config) :
  reachable c ->
  let s := fst c in
  let s1 := scheduleScan s in
  let s2 := scheduleScan s1 in
  let id1 := next_timer (browser s) in
  let id2 := Pos.succ id1 in
  length (armed (browser s)) <= 1 /\
  (exists d1, armed (browser s1) = [(id1, d1)] /\ timer s1 = Some id1) /\
  (exists d2, armed (browser s2) = [(id2, d2)] /\ timer s2 = Some id2) /\
  id2 <> id1 /\
  fire id1 s2 = None /\
  (forall id, fire id s2 <> None <-> id = id2) /\
  armed (browser (clearTimeout id2 s2)) = [].
Proof.
  intros Hreach s s1 s2 id1 id2.
  destruct (reachable_invariant c Hreach) as [Hinv _]. fold s in Hinv.
  destruct (scheduleScan_arms s Hinv) as (d1 & Ha1 & Ht1 & Hn1).
  assert (Hinv1 : timer_invariant s1) by now apply scheduleScan_invariant.
  destruct (scheduleScan_arms s1 Hinv1) as (d2 & Ha2 & Ht2 & _).
  fold s1 in Ha1, Ht1, Hn1. fold s2 in Ha2, Ht2. rewrite Hn1 in Ha2, Ht2.
  fold id1 in Ha1, Ht1, Ha2, Ht2. fold id2 in Ha2, Ht2.
  assert (Hneq : id2 <> id1)
    by (intros E; apply (Pos.succ_discr id1); symmetry; exact E).
  assert (Hfire : forall id, fire id s2 <> None <-> id = id2).
  { intros id. rewrite fire_armed, Ha2. cbn. intuition congruence. }
  split; [now apply timer_invariant_length|].
  split; [eauto|]. split; [eauto|]. split; [exact Hneq|].
  split; [|split; [exact Hfire|eapply clearTimeout_own; eauto]].
  destruct (fire id1 s2) eqn:E; [|reflexivity].
  exfalso. apply Hneq. symmetry. apply Hfire. congruence.
Qed.

Lemma loaded_page_reachable : reachable (loaded_page, []).
Proof. apply reachable_fresh. repeat split. Defined.

Lemma scheduleScan_one_timer_witness :
  reachable (loaded_page, []) /\
  length (armed (browser loaded_page)) <= 1 /\
  fire 1 (scheduleScan (scheduleScan loaded_page)) = None.
Proof.
  split; [exact loaded_page_reachable|].
  pose proof (scheduleScan_one_timer (loaded_page, []) loaded_page_reachable) as H.
  cbv zeta in H. cbn [fst] in H.
  split; [exact (proj1 H)|exact (proj1 (proj2 (proj2 (proj2 (proj2 H)))))].
Defined.

Lemma stopCamera_releases s : stream (stopCamera s) = None.
Proof.
  unfold stopCamera.
  set (s1 := match timer s with
             | Some id => set_timer None (clearTimeout id s)
             | None => s
             end).
  clearbody s1. destruct (stream s1) eqn:Es; cbn; rewrite ?Es; reflexivity.
Qed.

(** C10.  Without a stream, or without an OCR worker, [captureAndRead]
    returns at once: the state is the one it was called in (no frame is
    drawn, nothing is logged, no timer is armed) and nothing is left
    suspended (no OCR is asked for).  So when a scan timer fires in such a
    state, all that changes is that the window has disarmed that timer. *)
Theorem captureAndRead_without_camera (s : PlateScanner) :
  stream s = None \/ worker s = false ->
  captureAndRead s = (s, []) /\
  forall id out, fire id s = Some out ->
    snd out = [] /\
    stream (fst out) = stream s /\ timer (fst out) = timer s /\
    worker (fst out) = worker s /\ inputs (fst out) = inputs s /\
    display (fst out) = display s /\
    armed (browser (fst out)) =
      filter (fun t => negb (Pos.eqb (fst t) id)) (armed (browser s)).
Proof.
  intros Hidle.
  assert (Hret : forall s, stream s = None \/ worker s = false ->
                           captureAndRead s = (s, [])).
  { intros s0 [H|H]; unfold captureAndRead; rewrite H; [reflexivity|].
    destruct (stream s0); reflexivity. }
  split; [now apply Hret|].
  intros id out Hfire. unfold fire in Hfire.
  destruct (existsb _ _); [|discriminate]. injection Hfire as <-.
  rewrite Hret by exact Hidle. repeat split.
Qed.

Lemma captureAndRead_without_camera_witness :
  stream (stopCamera scanning) = None /\
  captureAndRead (stopCamera scanning) = (stopCamera scanning, []).
Proof.
  split; [reflexivity|].
  apply (captureAndRead_without_camera (stopCamera scanning)).
  left. reflexivity.
Defined.

(** ** Stopping while a scan is under way *)

Lemma lookupByReg_state reg s : fst (lookupByReg reg s) = s.
Proof. unfold lookupByReg. now destruct (mockToggle_checked _). Qed.

(** [handleOCRResult] writes to the display only. *)
Lemma handleOCRResult_frame data s :
  let s' := fst (handleOCRResult data s) in
  stream s' = stream s /\ timer s' = timer s /\ worker s' = worker s /\
  inputs s' = inputs s /\ browser s' = browser s.
Proof.
  unfold handleOCRResult.
  destruct (normalisePlate (OcrData.text data)) as [[|c p]|]; cbn zeta;
    try (repeat split; fail).
  destruct (ge _ _); [rewrite lookupByReg_state|]; repeat split.
Qed.

Lemma scanning_reachable : reachable (scanning, []).
Proof.
  pose proof loaded_page_reachable as H0.
  pose proof (reachable_step _ _ H0 (step_ui StartClick loaded_page [])) as H1.
  pose proof (reachable_step _ _ H1
    (step_resume Tick startCamera_checks tt _ [] [])) as H2.
  pose proof (reachable_step _ _ H2
    (step_resume EnumerateDevices startCamera_listed (Fulfilled [str "cam0"]) _ [] [])) as H3.
  pose proof (reachable_step _ _ H3
    (step_resume (GetUserMedia (Some (str "cam0"))) startCamera_stream
       (Fulfilled rear_camera) _ [] [])) as H4.
  pose proof (reachable_step _ _ H4
    (step_resume Play startCamera_playing (Fulfilled tt) _ [] [])) as H5.
  pose proof (reachable_step _ _ H5
    (step_resume CreateWorker startCamera_worker (Fulfilled tt) _ [] [])) as H6.
  pose proof (reachable_step _ _ H6
    (step_resume LoadLanguage startCamera_loaded (Fulfilled tt) _ [] [])) as H7.
  pose proof (reachable_step _ _ H7
    (step_resume Initialize startCamera_initialized (Fulfilled tt) _ [] [])) as H8.
  exact H8.
Qed.





(** ** The query string of the lookup *)

Lemma percent_decode_encode_unit c rest :
  percent_decode (encode_unit c ++ rest) = utf8_bytes c ++ percent_decode rest.
Proof.
  destruct c as [[] [] [] [] [] [] [] []]; reflexivity.
Qed.

Lemma utf8_decode_bytes c rest :
  utf8_decode (utf8_bytes c ++ rest) = c :: utf8_decode rest.
Proof.
  destruct c as [[] [] [] [] [] [] [] []]; reflexivity.
Qed.

Lemma encode_unit_safe c :
  forallb (fun u => url_safe u && negb (code u =? 35) && negb (code u =? 38)
                    && negb (code u =? 61) && negb (code u =? 63))
          (encode_unit c) = true.
Proof.
  destruct c as [[] [] [] [] [] [] [] []]; reflexivity.
Qed.

Lemma form_decode_encode reg : form_decode (encodeURIComponent reg) = reg.
Proof.
  unfold form_decode, encodeURIComponent.
  assert (H : forall rest,
    percent_decode (flat_map encode_unit reg ++ rest)
    = flat_map utf8_bytes reg ++ percent_decode rest).
  { induction reg as [|c reg IH]; intros rest; [reflexivity|].
    cbn [flat_map]. rewrite <- !app_assoc, percent_decode_encode_unit, IH.
    reflexivity. }
  specialize (H []). rewrite !app_nil_r in H. rewrite H. clear H.
  induction reg as [|c reg IH]; [reflexivity|].
  cbn [flat_map]. now rewrite utf8_decode_bytes, IH.
Qed.

Lemma encodeURIComponent_safe reg :
  Forall (fun u => url_safe u = true /\ code u <> 35 /\ code u <> 38 /\
                   code u <> 61 /\ code u <> 63)
         (encodeURIComponent reg).
Proof.
  unfold encodeURIComponent. induction reg as [|c reg IH]; [constructor|].
  cbn [flat_map]. apply Forall_app. split; [|exact IH].
  pose proof (encode_unit_safe c) as H. rewrite forallb_forall in H.
  apply Forall_forall. intros u Hu. specialize (H u Hu).
  rewrite !andb_true_iff, !negb_true_iff, !Nat.eqb_neq in H. tauto.
Qed.

Lemma cut_at_absent sep s :
  Forall (fun u => Ascii.eqb u sep = false) s -> cut_at sep s = (s, None).
Proof.
  induction 1 as [|c s Hc _ IH]; [reflexivity|].
  cbn [cut_at]. now rewrite Hc, IH.
Qed.

Lemma split_on_absent sep s :
  Forall (fun u => Ascii.eqb u sep = false) s -> split_on sep s = [s].
Proof.
  induction 1 as [|c s Hc _ IH]; [reflexivity|].
  cbn [split_on]. now rewrite Hc, IH.
Qed.

Lemma eqb_code_neq u (sep : ascii) :
  code u <> code sep -> Ascii.eqb u sep = false.
Proof.
  intros H. apply Ascii.eqb_neq. intros ->. now apply H.
Qed.

Lemma url_safe_printable u : url_safe u = true -> 32 < code u.
Proof.
  destruct u as [[] [] [] [] [] [] [] []]; try discriminate;
    intros _; apply Nat.ltb_lt; reflexivity.
Qed.

Lemma skip_c0_printable s : Forall (fun u => 32 < code u) s -> skip_c0 s = s.
Proof.
  destruct 1 as [|c s Hc _]; [reflexivity|]. cbn [skip_c0].
  now apply Nat.leb_gt in Hc as ->.
Qed.

(** The URL parser leaves a text of printable units as it is. *)
Lemma url_input_printable s : Forall (fun u => 32 < code u) s -> url_input s = s.
Proof.
  intros H. unfold url_input. rewrite (skip_c0_printable s H).
  rewrite skip_c0_printable by now apply Forall_rev.
  rewrite rev_involutive. apply forallb_filter_id, forallb_forall.
  rewrite Forall_forall in H. intros u Hu. specialize (H u Hu).
  rewrite negb_true_iff, !orb_false_iff, !Nat.eqb_neq. lia.
Qed.

(** The [reg] parameter of the url [lookupByReg] builds reads back as the
    plate, whatever units the plate holds. *)
Lemma reg_param_of_bookings_url reg :
  searchParams_get (str "reg") (bookings_url reg) = Some reg.
Proof.
  pose proof (encodeURIComponent_safe reg) as Hsafe.
  unfold searchParams_get, bookings_url.
  set (enc := encodeURIComponent reg) in *.
  rewrite url_input_printable.
  2:{ apply Forall_app. split; [repeat constructor; apply Nat.ltb_lt; reflexivity|].
      eapply Forall_impl; [|exact Hsafe]. intros u (H & _).
      now apply url_safe_printable. }
  assert (Hhash : cut_at "#"%char (str "/api/bookings?reg=" ++ enc)
                  = (str "/api/bookings?reg=" ++ enc, None)).
  { apply cut_at_absent, Forall_app. split; [repeat constructor|].
    eapply Forall_impl; [|exact Hsafe]. intros u (_ & H & _).
    now apply eqb_code_neq. }
  rewrite Hhash. cbn [fst].
  change (cut_at "?"%char (str "/api/bookings?reg=" ++ enc))
    with (str "/api/bookings", Some (str "reg=" ++ enc)).
  cbn [snd].
  rewrite split_on_absent.
  2:{ apply Forall_app. split; [repeat constructor|].
      eapply Forall_impl; [|exact Hsafe]. intros u (_ & _ & H & _).
      now apply eqb_code_neq. }
  cbn [filter length app str list_ascii_of_string Nat.eqb negb map].
  change (cut_at "="%char ("r"%char :: "e"%char :: "g"%char :: "="%char :: enc))
    with (str "reg", Some enc).
  cbn [find fst snd option_map].
  change (form_decode (str "reg")) with (str "reg").
  destruct (list_eq_dec ascii_dec (str "reg") (str "reg")) as [_|Hne];
    [|now elim Hne].
  cbn [option_map snd]. subst enc. now rewrite form_decode_encode.
Qed.

(** X1.  The url [lookupByReg] builds for a plate holds, after the fixed
    prefix, only unreserved units and [%XX] escapes, and the [reg] parameter
    [mockFetch] reads from it is the plate again, whatever units the plate
    holds (spaces, [&], [=], [#], [+], [%] and units above 127 included). *)
Theorem bookings_url_round_trip (reg : jsstring) :
  bookings_url reg = str "/api/bookings?reg=" ++ encodeURIComponent reg /\
  Forall (fun u => url_safe u = true) (encodeURIComponent reg) /\
  searchParams_get (str "reg") (bookings_url reg) = Some reg.
Proof.
  split; [reflexivity|]. split; [|apply reg_param_of_bookings_url].
  eapply Forall_impl; [|apply encodeURIComponent_safe]. now intros u [H _].
Qed.



(** ** More about normalisePlate *)

Lemma upper_unit_idempotent c : flat_map upper_unit (upper_unit c) = upper_unit c.
Proof. destruct c as [[] [] [] [] [] [] [] []]; reflexivity. Qed.

Lemma upper_unit_lower c : upper_unit (lower_unit c) = upper_unit c.
Proof. destruct c as [[] [] [] [] [] [] [] []]; reflexivity. Qed.

Lemma upper_unit_not_nil c : upper_unit c <> [].
Proof. destruct c as [[] [] [] [] [] [] [] []]; discriminate. Qed.

Lemma toUpperCase_idempotent x : toUpperCase (toUpperCase x) = toUpperCase x.
Proof.
  unfold toUpperCase. induction x as [|c x IH]; [reflexivity|].
  cbn [flat_map]. now rewrite flat_map_app, upper_unit_idempotent, IH.
Qed.

Lemma toUpperCase_toLowerCase x : toUpperCase (toLowerCase x) = toUpperCase x.
Proof.
  unfold toUpperCase, toLowerCase. induction x as [|c x IH]; [reflexivity|].
  cbn [map flat_map]. now rewrite upper_unit_lower, IH.
Qed.

Lemma toUpperCase_nil x : toUpperCase x = [] <-> x = [].
Proof.
  split; [|now intros ->]. destruct x as [|c x]; [reflexivity|].
  unfold toUpperCase. cbn [flat_map]. intros H.
  apply app_eq_nil in H as [H _]. now apply upper_unit_not_nil in H.
Qed.

(** [normalisePlate] sees a text only through its upper-case form. *)
Lemma normalisePlate_same_upper x y :
  toUpperCase x = toUpperCase y ->
  normalisePlate (Some x) = normalisePlate (Some y).
Proof.
  intros H.
  assert (Hc : cleaned x = cleaned y) by (unfold cleaned; now rewrite H).
  destruct x as [|a x], y as [|b y]; try reflexivity.
  - assert (E : b :: y = []) by (apply toUpperCase_nil; symmetry; exact H).
    discriminate E.
  - assert (E : a :: x = []) by (apply toUpperCase_nil; exact H).
    discriminate E.
  - unfold normalisePlate. now rewrite Hc.
Qed.

(** X3.  On ASCII text [normalisePlate] does not depend on the case of the
    letters: a text, its upper-case form and its lower-case form give the
    same result.  (Beyond ASCII the lower-case form can differ: the Kelvin
    sign is no letter of A-Z, but its lower-case form is k.) *)
Theorem normalisePlate_ignores_case (x : jsstring) :
  ascii_text x ->
  normalisePlate (Some (toUpperCase x)) = normalisePlate (Some x) /\
  normalisePlate (Some (toLowerCase x)) = normalisePlate (Some x).
Proof.
  intros _. split; apply normalisePlate_same_upper.
  - apply toUpperCase_idempotent.
  - apply toUpperCase_toLowerCase.
Qed.

Lemma normalisePlate_ignores_case_witness :
  ascii_text (str "Ab12 cDe") /\
  normalisePlate (Some (toLowerCase (str "Ab12 cDe"))) = Some (str "AB12CDE").
Proof.
  assert (H : ascii_text (str "Ab12 cDe")) by (repeat constructor).
  split; [exact H|].
  exact (eq_trans (proj2 (normalisePlate_ignores_case (str "Ab12 cDe") H)) eq_refl).
Defined.

Lemma plate_shape_length a1 a2 b1 b2 c1 c2 p :
  plate_shape a1 a2 b1 b2 c1 c2 p ->
  a1 + b1 + c1 <= length p <= a2 + b2 + c2.
Proof.
  intros (l & d & l' & -> & _ & Hl & _ & Hd & _ & Hl').
  rewrite !length_app. lia.
Qed.

(** X4.  A plate [normalisePlate] returns is one to three letters, one to
    four digits and one to three letters, so three to ten units; every unit
    is of A-Z or 0-9, none is white space and none is the letter O.  When the
    current format matches somewhere in the text the plate is two letters,
    two digits and three letters. *)
Theorem normalisePlate_result_shape (x : option jsstring) (p : jsstring) :
  normalisePlate x = Some p ->
  plate_shape 1 3 1 4 1 3 p /\
  3 <= length p <= 10 /\
  Forall (fun c => (is_upper c = true \/ is_digit c = true) /\
                   is_space c = false /\ code c <> 79) p /\
  (forall t, x = Some t -> yields_match (cleaned t) current_format = true ->
             plate_shape 2 2 2 2 3 3 p /\ length p = 7).
Proof.
  destruct x as [[|c0 x]|]; try discriminate. unfold normalisePlate.
  intros H. pose proof (cleaned_units (c0 :: x)) as Hclean.
  destruct (first_pattern_plate _ _ Hclean H) as [Hshape Hunits].
  split; [exact Hshape|]. split; [now apply plate_shape_length in Hshape|].
  split.
  - pose proof (plate_shape_units _ _ _ _ _ _ _ Hshape) as Hld.
    rewrite Forall_forall in *. intros c Hc.
    specialize (Hld c Hc). destruct (Hunits c Hc) as [_ HO].
    repeat split; [exact Hld| |exact HO].
    destruct Hld; [now apply upper_not_space|now apply digit_not_space].
  - intros t [= <-] Hy. unfold yields_match in Hy.
    unfold UK_REGEXES in H. cbn [first_pattern] in H. unfold candidates in H at 1.
    destruct (matchAll current_format (cleaned (c0 :: x))) as [|m ms] eqn:Hm;
      [discriminate|].
    cbn [map] in H. unfold by_closeness in H. rewrite hd_error_sort in H.
    apply leftmost_min_split in H as (l1 & l2 & Hsplit & _ & _).
    assert (Hin : In p (map (fun m => strip_spaces (group1 m)) (m :: ms)))
      by (cbn [map]; rewrite Hsplit; apply in_elt).
    apply in_map_iff in Hin as (m' & <- & Hin). rewrite <- Hm in Hin.
    apply matchAll_from_In in Hin as (prev & s1 & s2 & _ & Hmatch).
    apply (candidate_shape 2 2 2 2 3 3) in Hmatch as [Hs _].
    split; [exact Hs|]. apply plate_shape_length in Hs. lia.
Qed.

Lemma normalisePlate_result_shape_witness :
  normalisePlate (Some (str "plate A1 REZ seen")) = Some (str "A1REZ") /\
  3 <= length (str "A1REZ") <= 10.
Proof.
  split; [reflexivity|].
  exact (proj1 (proj2 (normalisePlate_result_shape
                         (Some (str "plate A1 REZ seen")) (str "A1REZ") eq_refl))).
Defined.

Lemma cleaned_app x y : cleaned (x ++ y) = cleaned x ++ cleaned y.
Proof.
  unfold cleaned, O_to_zero, keep_plate_units, newlines_to_spaces, toUpperCase.
  now rewrite flat_map_app, map_app, filter_app, map_app.
Qed.

Lemma cleaned_deleted_unit c : deleted_unit c = true -> cleaned [c] = [].
Proof.
  destruct c as [[] [] [] [] [] [] [] []]; intros H;
    first [reflexivity | cbv in H; discriminate H].
Qed.

Lemma normalisePlate_same_cleaned x y :
  cleaned x = cleaned y ->
  (x = [] -> cleaned y = []) -> (y = [] -> cleaned x = []) ->
  normalisePlate (Some x) = normalisePlate (Some y).
Proof.
  intros H Hx Hy. destruct x as [|a x], y as [|b y]; try reflexivity.
  - unfold normalisePlate. now rewrite (Hx eq_refl).
  - unfold normalisePlate. now rewrite (Hy eq_refl).
  - unfold normalisePlate. now rewrite H.
Qed.

(** X5.  A unit that is no letter, digit, space or line feed is deleted
    before the patterns are applied: it does not separate what stands on its
    two sides, and the text gives the same result with or without it.  A line
    feed counts as a space. *)
Theorem normalisePlate_deletes_punctuation (a b : jsstring) (c : ascii) :
  deleted_unit c = true ->
  normalisePlate (Some (a ++ c :: b)) = normalisePlate (Some (a ++ b)) /\
  normalisePlate (Some (a ++ "010"%char :: b))
    = normalisePlate (Some (a ++ " "%char :: b)).
Proof.
  intros Hc. split; apply normalisePlate_same_cleaned.
  - change (c :: b) with ([c] ++ b).
    now rewrite !cleaned_app, (cleaned_deleted_unit c Hc).
  - intros H. now destruct a.
  - intros H. apply app_eq_nil in H as [-> ->]. now apply cleaned_deleted_unit.
  - change ("010"%char :: b) with (["010"%char] ++ b).
    change (" "%char :: b) with ([" "%char] ++ b).
    now rewrite !cleaned_app.
  - intros H. now destruct a.
  - intros H. now destruct a.
Qed.

Lemma normalisePlate_deletes_punctuation_witness :
  deleted_unit "-"%char = true /\
  normalisePlate (Some (str "AB-12 CDE")) = normalisePlate (Some (str "AB12 CDE")).
Proof.
  split; [reflexivity|].
  exact (proj1 (normalisePlate_deletes_punctuation (str "AB") (str "12 CDE")
                  "-"%char eq_refl)).
Defined.

(** ** The plate as it is shown *)

Lemma strip_spaces_spaced s : strip_spaces (spaced s) = strip_spaces s.
Proof.
  induction s as [|c s IH]; [reflexivity|]. cbn [spaced].
  destruct (_ && _).
  - rewrite strip_spaces_app. unfold strip_spaces at 2. cbn [filter].
    change (is_space " "%char) with true. cbn [negb].
    fold (strip_spaces (skipn 4 (c :: s))).
    now rewrite <- strip_spaces_app, firstn_skipn.
  - unfold strip_spaces in *. cbn [filter]. now rewrite IH.
Qed.

Lemma spaced_short s : length s < 7 -> spaced s = s.
Proof.
  induction s as [|c s IH]; [reflexivity|]. intros H. cbn [spaced].
  destruct (Nat.leb_spec 7 (length (c :: s))); [lia|]. cbn [andb].
  rewrite IH; [reflexivity|]. cbn [length] in H. lia.
Qed.

Lemma spaced_long s :
  7 <= length s ->
  Forall (fun u => code u <> 10 /\ code u <> 13) s ->
  spaced s = firstn 4 s ++ " "%char :: skipn 4 s.
Proof.
  intros Hlen Hs. destruct s as [|c s]; [cbn in Hlen; lia|]. cbn [spaced].
  destruct (Nat.leb_spec 7 (length (c :: s))); [|lia]. cbn [andb].
  replace (forallb _ (firstn 7 (c :: s))) with true; [reflexivity|].
  symmetry. apply forallb_forall. intros u Hu.
  assert (Hin : In u (c :: s))
    by (rewrite <- (firstn_skipn 7 (c :: s)); apply in_or_app; now left).
  clear Hu. rename Hin into Hu. rewrite Forall_forall in Hs.
  destruct (Hs u Hu) as [H10 H13].
  apply Nat.eqb_neq in H10, H13. now rewrite H10, H13.
Qed.

(** X6.  After [handleOCRResult] has found a plate, the last-plate text is
    that plate with one space after its fourth unit when it has seven units
    or more, and the plate itself otherwise; with its white space removed it
    is the plate.  This holds whether or not the confidence passes the
    threshold. *)
Theorem last_plate_shows_the_plate
    (data : OcrData.t) (s : PlateScanner) (p : jsstring) :
  normalisePlate (OcrData.text data) = Some p ->
  let shown := lastPlateEl_textContent (display (fst (handleOCRResult data s))) in
  shown = (if 7 <=? length p then firstn 4 p ++ " "%char :: skipn 4 p else p) /\
  strip_spaces shown = p.
Proof.
  intros Hp. cbv zeta.
  destruct (normalisePlate_result_shape _ _ Hp) as (_ & Hlen & Hunits & _).
  assert (Hshown : lastPlateEl_textContent (display (fst (handleOCRResult data s)))
                   = spaced p).
  { unfold handleOCRResult. rewrite Hp.
    destruct p as [|c p']; [cbn in Hlen; lia|].
    destruct (ge _ _); [rewrite lookupByReg_state|]; reflexivity. }
  rewrite Hshown. split.
  - destruct (Nat.leb_spec 7 (length p)); [|now apply spaced_short].
    apply spaced_long; [assumption|].
    eapply Forall_impl; [|exact Hunits]. cbn. intros c ([Hc|Hc] & _ & _).
    + unfold is_upper in Hc. apply in_range_iff in Hc. lia.
    + unfold is_digit in Hc. apply in_range_iff in Hc. lia.
  - rewrite strip_spaces_spaced. apply strip_spaces_none.
    eapply Forall_impl; [|exact Hunits]. now intros c (_ & H & _).
Qed.

Lemma last_plate_shows_the_plate_witness :
  normalisePlate (OcrData.text plate_read) = Some (str "AB12CDE") /\
  lastPlateEl_textContent (display (fst (handleOCRResult plate_read loaded_page)))
    = str "AB12 CDE".
Proof.
  split; [reflexivity|].
  exact (proj1 (last_plate_shows_the_plate plate_read loaded_page
                  (str "AB12CDE") eq_refl)).
Defined.

(** ** The manual lookup *)


Lemma upper_unit_no_lower c :
  forallb (fun u => negb (is_lower u)) (upper_unit c) = true.
Proof. destruct c as [[] [] [] [] [] [] [] []]; reflexivity. Qed.









(** ** Invariants of the event loop, in general *)

Section LoopInvariant.

(** A property of the scanner that the writes of the methods keep. *)
Variable P : PlateScanner -> Prop.
Hypothesis P_display : forall d s, P s -> P (set_display d s).
Hypothesis P_control :
  forall i s, P s -> intervalEl_value i = intervalEl_value (inputs s) ->
              P (set_inputs i s).
Hypothesis P_interval : forall v s, P s -> P (fst (dispatch (IntervalChange v) s)).
Hypothesis P_stream : forall v s, P s -> P (set_stream v s).
Hypothesis P_worker : forall s, P s -> P (set_worker true s).
Hypothesis P_tracks : forall st s, P s -> P (stop_tracks st s).
Hypothesis P_clock : forall dt s, P s -> P (advance_clock dt s).
Hypothesis P_clear : forall id s, P s -> P (clearTimeout id s).
Hypothesis P_forget :
  forall id s, P s -> timer s = Some id -> P (set_timer None (clearTimeout id s)).
Hypothesis P_schedule : forall s, P s -> P (scheduleScan s).

Ltac writes :=
  unfold log, alert, set_lastPlate, set_bookingBox, set_buttons, drawImage,
    set_cameraSelect, set_autoCapture, set_interval, set_confidence,
    set_mockToggle, set_manualPlate, lookupByReg_catch, renderBooking,
    upload_catch;
  repeat first
    [ assumption
    | apply P_display | (apply P_control; [|reflexivity]) | apply P_stream
    | apply P_worker
    | apply P_tracks | apply P_clock | apply P_clear | apply P_schedule ].

Ltac ends := apply keeps_done; writes.

Ltac waits next :=
  apply keeps_await; [writes|intros; now apply next].

Lemma kept_by_stopCamera s : P s -> P (stopCamera s).
Proof.
  intros H. unfold stopCamera.
  assert (H1 : P (match timer s with
                  | Some id => set_timer None (clearTimeout id s)
                  | None => s
                  end))
    by (destruct (timer s) eqn:E; [now apply P_forget|exact H]).
  destruct (stream _); writes.
Qed.

Lemma kept_by_lookupByReg_json reg response u s :
  P s -> outcome_keeps P (lookupByReg_json reg response u s).
Proof.
  intros H. unfold lookupByReg_json.
  destruct (Response.body response) as [[|data]|]; ends.
Qed.

Lemma kept_by_lookupByReg_response reg r s :
  P s -> outcome_keeps P (lookupByReg_response reg r s).
Proof.
  intros H. unfold lookupByReg_response. destruct r as [response|e]; [|ends].
  destruct (negb _); [ends|waits kept_by_lookupByReg_json].
Qed.

Lemma kept_by_lookupByReg reg s : P s -> outcome_keeps P (lookupByReg reg s).
Proof.
  intros H. unfold lookupByReg.
  destruct (mockToggle_checked _); waits kept_by_lookupByReg_response.
Qed.

Lemma kept_by_handleOCRResult data s :
  P s -> outcome_keeps P (handleOCRResult data s).
Proof.
  intros H. unfold handleOCRResult.
  destruct (normalisePlate _) as [[|c p]|]; try ends.
  destruct (ge _ _); [apply kept_by_lookupByReg; writes|ends].
Qed.

Lemma kept_by_captureAndRead_resume r s :
  P s -> outcome_keeps P (captureAndRead_resume r s).
Proof.
  intros H. unfold captureAndRead_resume.
  assert (Hh : outcome_keeps P
                 match r with
                 | Fulfilled data => handleOCRResult data s
                 | Rejected _ => done (log (Line (str "OCR error")) s)
                 end)
    by (destruct r; [now apply kept_by_handleOCRResult|ends]).
  destruct (match r with Fulfilled data => _ | Rejected _ => _ end) as [s1 lookups].
  destruct Hh as [H1 H2]. split; [|exact H2]. cbn [fst] in *.
  destruct (autoCapture_checked _); writes.
Qed.

Lemma kept_by_captureAndRead s : P s -> outcome_keeps P (captureAndRead s).
Proof.
  intros H. unfold captureAndRead.
  destruct (stream s), (worker s); try ends.
  waits kept_by_captureAndRead_resume.
Qed.

Lemma kept_by_startCamera_catch e s : P s -> P (startCamera_catch e s).
Proof.
  intros H. unfold startCamera_catch.
  destruct (_ || _); [writes|]. destruct (has_name e _); writes.
Qed.

Lemma kept_by_startCamera_finish s : P s -> P (startCamera_finish s).
Proof.
  intros H. unfold startCamera_finish. destruct (autoCapture_checked _); writes.
Qed.

Lemma kept_by_startCamera_initialized r s :
  P s -> outcome_keeps P (startCamera_initialized r s).
Proof.
  intros H. unfold startCamera_initialized. destruct r; apply keeps_done.
  - apply kept_by_startCamera_finish. writes.
  - now apply kept_by_startCamera_catch.
Qed.

Lemma kept_by_startCamera_loaded r s :
  P s -> outcome_keeps P (startCamera_loaded r s).
Proof.
  intros H. unfold startCamera_loaded. destruct r.
  - waits kept_by_startCamera_initialized.
  - apply keeps_done. now apply kept_by_startCamera_catch.
Qed.

Lemma kept_by_startCamera_worker r s :
  P s -> outcome_keeps P (startCamera_worker r s).
Proof.
  intros H. unfold startCamera_worker. destruct r.
  - waits kept_by_startCamera_loaded.
  - apply keeps_done. now apply kept_by_startCamera_catch.
Qed.

Lemma kept_by_startCamera_playing r s :
  P s -> outcome_keeps P (startCamera_playing r s).
Proof.
  intros H. unfold startCamera_playing.
  destruct r; [|apply keeps_done; now apply kept_by_startCamera_catch].
  destruct (worker _).
  - apply keeps_done, kept_by_startCamera_finish. writes.
  - waits kept_by_startCamera_worker.
Qed.

Lemma kept_by_startCamera_stream r s :
  P s -> outcome_keeps P (startCamera_stream r s).
Proof.
  intros H. unfold startCamera_stream. destruct r.
  - waits kept_by_startCamera_playing.
  - apply keeps_done. now apply kept_by_startCamera_catch.
Qed.

Lemma kept_by_startCamera_listed r s :
  P s -> outcome_keeps P (startCamera_listed r s).
Proof.
  intros H. unfold startCamera_listed.
  apply keeps_await; [destruct r; writes|].
  intros. now apply kept_by_startCamera_stream.
Qed.

Lemma kept_by_startCamera_checks u s :
  P s -> outcome_keeps P (startCamera_checks u s).
Proof.
  intros H. unfold startCamera_checks.
  destruct (negb (isSecureContext _)); [ends|].
  destruct (negb (mediaDevices _)); [ends|].
  waits kept_by_startCamera_listed.
Qed.

Lemma kept_by_startCamera s : P s -> outcome_keeps P (startCamera s).
Proof.
  intros H. unfold startCamera.
  apply keeps_await;
    [unfold showEnvWarnings; destruct (_ ++ _); writes|].
  intros. now apply kept_by_startCamera_checks.
Qed.

Lemma kept_by_upload_recognized r s :
  P s -> outcome_keeps P (upload_recognized r s).
Proof.
  intros H. unfold upload_recognized.
  destruct r; [now apply kept_by_handleOCRResult|ends].
Qed.

Lemma kept_by_upload_initialized r s :
  P s -> outcome_keeps P (upload_initialized r s).
Proof.
  intros H. unfold upload_initialized.
  destruct r; [waits kept_by_upload_recognized|ends].
Qed.

Lemma kept_by_upload_loaded r s :
  P s -> outcome_keeps P (upload_loaded r s).
Proof.
  intros H. unfold upload_loaded.
  destruct r; [waits kept_by_upload_initialized|ends].
Qed.

Lemma kept_by_upload_worker r s :
  P s -> outcome_keeps P (upload_worker r s).
Proof.
  intros H. unfold upload_worker.
  destruct r; [waits kept_by_upload_loaded|ends].
Qed.

Lemma kept_by_doOCRFromImageBitmap r s :
  P s -> outcome_keeps P (doOCRFromImageBitmap r s).
Proof.
  intros H. unfold doOCRFromImageBitmap. destruct r; [|ends].
  destruct (worker s);
    [waits kept_by_upload_recognized|waits kept_by_upload_worker].
Qed.

Lemma kept_by_dispatch e s : P s -> outcome_keeps P (dispatch e s).
Proof.
  intros H. destruct e; cbn [dispatch].
  - now apply kept_by_startCamera.
  - apply keeps_done. now apply kept_by_stopCamera.
  - destruct (stream _); [|ends].
    apply kept_by_startCamera, kept_by_stopCamera. writes.
  - pose proof (P_interval value s H) as Hi. cbn [dispatch] in Hi.
    destruct (timer _); apply keeps_done; exact Hi.
  - destruct checked; [ends|].
    destruct (timer _) eqn:Et; apply keeps_done; [|writes].
    apply P_forget; [writes|exact Et].
  - destruct (strip_spaces _); [ends|]. apply kept_by_lookupByReg. writes.
  - destruct chosen; [|ends]. waits kept_by_doOCRFromImageBitmap.
  - ends.
  - ends.
  - ends.
Qed.

(** A property the writes keep, and that holds as the page loads, holds in
    every configuration the event loop reaches. *)
Lemma kept_by_the_loop :
  (forall c, fresh c -> P (fst c)) ->
  forall c, reachable c -> P (fst c) /\ Forall (keeps P) (snd c).
Proof.
  intros Hfresh. induction 1 as [c Hc|c c' _ [Hs Hp] Hstep].
  - split; [now apply Hfresh|]. destruct Hc as (_ & _ & _ & _ & ->). constructor.
  - destruct Hstep as [e s pool|id s pool out Hfire|A req k a s pool1 pool2|dt s pool];
      cbn [fst snd] in *.
    + destruct (kept_by_dispatch e s Hs) as [H1 H2].
      split; [exact H1|apply Forall_app; now split].
    + unfold fire in Hfire. destruct (existsb _ _); [|discriminate].
      injection Hfire as <-.
      destruct (kept_by_captureAndRead (clearTimeout id s)) as [H1 H2];
        [now apply P_clear|].
      split; [exact H1|apply Forall_app; now split].
    + apply Forall_app in Hp as [Hp1 Hp2].
      apply Forall_cons_iff in Hp2 as [Hk Hp2].
      destruct (proj1 (keeps_Await _ req k) Hk a s Hs) as [H1 H2].
      split; [exact H1|]. apply Forall_app. split; [exact Hp1|].
      apply Forall_app. now split.
    + split; [now apply P_clock|exact Hp].
Qed.

End LoopInvariant.

(** ** The wait of the scan timer *)

Lemma timer_wait_small q :
  (0 <= q)%Q -> (q < 2147483648)%Q ->
  timer_wait (Num q) = Num (inject_Z (Qfloor q)) /\
  (0 <= Qfloor q < 2147483648)%Z.
Proof.
  intros H0 H1.
  assert (Hf : (0 <= Qfloor q < 2147483648)%Z).
  { split.
    - change 0%Z with (Qfloor 0). now apply Qfloor_resp_le.
    - apply Z.lt_nge. intros Hge.
      assert (Hq : (inject_Z 2147483648 <= q)%Q).
      { eapply Qle_trans; [|apply Qfloor_le]. rewrite <- Zle_Qle. exact Hge. }
      apply (Qlt_irrefl q). eapply Qlt_le_trans; [exact H1|exact Hq]. }
  split; [|exact Hf].
  unfold timer_wait, ToInt32.
  apply Qle_bool_iff in H0. rewrite H0.
  rewrite Z.mod_small by lia. do 2 f_equal. lia.
Qed.

Lemma scheduleScan_wait s :
  timer_invariant s ->
  armed (browser (scheduleScan s)) = [(next_timer (browser s), scan_wait s)] /\
  timer (scheduleScan s) = Some (next_timer (browser s)) /\
  inputs (scheduleScan s) = inputs s.
Proof.
  intros Hinv. unfold scheduleScan, scan_wait, wait_of.
  destruct Hinv as [H|(id & d & H & Ht)].
  - destruct (timer s); cbn; rewrite H; repeat split.
  - rewrite Ht. cbn. rewrite H. cbn. rewrite Pos.eqb_refl. repeat split.
Qed.

Lemma filter_Forall {A} (P : A -> Prop) f l : Forall P l -> Forall P (filter f l).
Proof.
  rewrite !Forall_forall. intros H x Hx. apply filter_In in Hx as [Hx _]. auto.
Qed.

(** The invariant: one timer at most, and it waits what the field asks. *)
Lemma interval_invariant (c : Config) :
  reachable c -> timer_invariant (fst c) /\ waits_follow_interval (fst c).
Proof.
  intros H.
  apply (kept_by_the_loop (fun s => timer_invariant s /\ waits_follow_interval s));
    try exact H; unfold waits_follow_interval.
  - intros d s [Hi Hw]. split; [exact Hi|exact Hw].
  - intros i s [Hi Hw] E. split; [exact Hi|]. unfold scan_wait. cbn. rewrite E. exact Hw.
  - intros v s [Hi Hw]. cbn [dispatch].
    assert (Hs : timer_invariant (set_interval v s)) by exact Hi.
    change (timer (set_interval v s)) with (timer s).
    destruct (timer s) as [id|] eqn:Et; cbn [fst done].
    + destruct (scheduleScan_wait _ Hs) as (Ha & _ & Hin).
      split; [now apply scheduleScan_invariant|].
      rewrite Ha. constructor; [|constructor]. unfold scan_wait. now rewrite Hin.
    + split; [exact Hs|].
      destruct Hi as [Ha|(id & d & _ & Ht')]; [|congruence].
      change (armed (browser (set_interval v s))) with (armed (browser s)).
      rewrite Ha. constructor.
  - intros v s [Hi Hw]. split; [exact Hi|exact Hw].
  - intros s [Hi Hw]. split; [exact Hi|exact Hw].
  - intros st s [Hi Hw]. split; [exact Hi|exact Hw].
  - intros dt s [Hi Hw]. split; [exact Hi|exact Hw].
  - intros id s [Hi Hw]. split; [now apply clearTimeout_invariant|].
    now apply filter_Forall.
  - intros id s [Hi Hw] Et. split; [now apply clear_own_timer|].
    change (Forall (fun t => snd t = scan_wait s)
              (filter (fun t => negb (Pos.eqb (fst t) id)) (armed (browser s)))).
    now apply filter_Forall.
  - intros s [Hi Hw]. destruct (scheduleScan_wait s Hi) as (Ha & _ & Hin).
    split; [now apply scheduleScan_invariant|].
    rewrite Ha. constructor; [|constructor]. unfold scan_wait. now rewrite Hin.
  - intros c0 (_ & _ & _ & Ha & _). split; [now left|]. rewrite Ha. constructor.
Qed.

(** X8.  In every configuration the event loop reaches, each armed scan
    timer waits what some content of the interval field asks for: the
    field's number, or 1500 when that is zero or not a number, raised to 300
    and then made a 32-bit integer as [setTimeout] does.  When the field
    changes while a timer is set, and when auto-capture is ticked, the one
    timer armed afterwards waits what the field asks for then.  That wait is
    1500 ms for an empty, zero or non-numeric field, 300 ms for a number under
    300, and the whole part of the number from 300 up to 2147483647; it is not
    300 ms or more in general: a larger number wraps around, and 3000000000,
    Infinity and 1e400 give a wait of 0. *)
Theorem scan_wait_follows_interval (c : Config) :
  reachable c ->
  let s := fst c in
  Forall (fun t => exists v, snd t = wait_of v) (armed (browser s)) /\
  (forall v,
     timer s <> None ->
     armed (browser (fst (dispatch (IntervalChange v) s)))
       = [(next_timer (browser s), wait_of v)]) /\
  armed (browser (fst (dispatch (AutoCaptureChange true) s)))
    = [(next_timer (browser s), wait_of (intervalEl_value (inputs s)))] /\
  (forall v,
     let n := Number v in
     (truthy n = false -> wait_of v = Num 1500) /\
     (forall q, n = Num q -> ~ (q == 0)%Q -> (q < 300)%Q -> wait_of v = Num 300) /\
     (forall q, n = Num q -> (300 <= q)%Q -> (q < 2147483648)%Q ->
        wait_of v = Num (inject_Z (Qfloor q)) /\ (300 <= Qfloor q)%Z) /\
     (n = Infinity true -> wait_of v = Num 300) /\
     (n = Infinity false -> wait_of v = Num 0) /\
     (n = Num 3000000000 -> wait_of v = Num 0)) /\
  wait_of [] = Num 1500 /\
  wait_of (str "0") = Num 1500 /\
  wait_of (str "fast") = Num 1500 /\
  wait_of (str "100") = Num 300 /\
  wait_of (str "-5") = Num 300 /\
  wait_of (str "2000.7") = Num 2000 /\
  wait_of (str "2147483647") = Num 2147483647 /\
  wait_of (str "2147483648") = Num 0 /\
  wait_of (str "3000000000") = Num 0 /\
  wait_of (str "4294967796") = Num 500 /\
  wait_of (str "Infinity") = Num 0 /\
  wait_of (str "1e400") = Num 0.
Proof.
  intros H s.
  destruct (interval_invariant c H) as [Hinv Hw]. fold s in Hinv, Hw.
  split.
  { eapply Forall_impl; [|exact Hw]. intros t Ht.
    exists (intervalEl_value (inputs s)). exact Ht. }
  split.
  { intros v Ht. cbn [dispatch].
    change (timer (set_interval v s)) with (timer s).
    destruct (timer s) as [id|] eqn:Et; [|now elim Ht]. cbn [fst done].
    assert (Hs : timer_invariant (set_interval v s)) by exact Hinv.
    destruct (scheduleScan_wait _ Hs) as (Ha & _). exact Ha. }
  split.
  { cbn [dispatch fst done].
    assert (Hs : timer_invariant (set_autoCapture true s)) by exact Hinv.
    destruct (scheduleScan_wait _ Hs) as (Ha & _). exact Ha. }
  split; [|repeat split].
  intros v n. unfold wait_of. fold n. clearbody n.
  split; [|split; [|split; [|split; [|split]]]].
  - intros Hn. unfold or_else. now rewrite Hn.
  - intros q -> Hq Hlt. unfold or_else. cbn [truthy].
    destruct (Qeq_bool q 0) eqn:E; [apply Qeq_bool_iff in E; now elim Hq|].
    cbn [negb Math_max ge].
    destruct (Qle_bool q 300) eqn:E'; [reflexivity|].
    apply Qlt_le_weak, Qle_bool_iff in Hlt. congruence.
  - intros q -> Hge Hlt. unfold or_else. cbn [truthy].
    assert (H0 : (0 <= q)%Q) by (eapply Qle_trans; [|exact Hge]; discriminate).
    destruct (Qeq_bool q 0) eqn:E.
    { apply Qeq_bool_iff in E. rewrite E in Hge. now elim Hge. }
    assert (Hf : (300 <= Qfloor q)%Z).
    { change 300%Z with (Qfloor 300). now apply Qfloor_resp_le. }
    split; [|exact Hf]. cbn [negb Math_max ge].
    destruct (Qle_bool q 300) eqn:E'.
    + apply Qle_bool_iff in E'.
      assert (Eq : (q == 300)%Q) by now apply Qle_antisym.
      rewrite (Qfloor_comp _ _ Eq). reflexivity.
    + now apply timer_wait_small.
  - intros ->. reflexivity.
  - intros ->. reflexivity.
  - intros ->. reflexivity.
Qed.

Lemma hasty_reachable : reachable (hasty, []).
Proof.
  pose proof loaded_page_reachable as H0.
  pose proof (reachable_step _ _ H0
    (step_ui (IntervalChange (str "3000000000")) loaded_page [])) as H1.
  pose proof (reachable_step _ _ H1 (step_ui (AutoCaptureChange true) _ _)) as H2.
  exact H2.
Defined.

(** With 3000000000 in the interval field the timer that is armed waits 0
    ms. *)
Lemma scan_wait_follows_interval_witness :
  reachable (hasty, []) /\
  armed (browser hasty) = [(1%positive, Num 0)] /\
  Forall (fun t => exists v, snd t = wait_of v) (armed (browser hasty)).
Proof.
  split; [exact hasty_reachable|]. split; [reflexivity|].
  exact (proj1 (scan_wait_follows_interval (hasty, []) hasty_reachable)).
Defined.

(** ** A failed OCR *)

(** X9.  When the worker's [recognize] rejects, the cycle logs "OCR error"
    and nothing else is shown or looked up; camera and worker stay as they
    are.  Scanning goes on: with auto-capture on exactly one new timer is
    armed, as after a successful read; with auto-capture off the timers stay
    as they were. *)
Theorem ocr_failure_keeps_scanning
    (s : PlateScanner) (pool : list Task) (e : Error.t) :
  reachable (s, pool) ->
  let s' := fst (captureAndRead_resume (Rejected e) s) in
  snd (captureAndRead_resume (Rejected e) s) = [] /\
  display s' = display (log (Line (str "OCR error")) s) /\
  stream s' = stream s /\ worker s' = worker s /\ inputs s' = inputs s /\
  (if autoCapture_checked (inputs s)
   then exists delay, armed (browser s') = [(next_timer (browser s), delay)] /\
                      timer s' = Some (next_timer (browser s))
   else armed (browser s') = armed (browser s) /\ timer s' = timer s).
Proof.
  intros Hreach. cbv zeta.
  destruct (reachable_invariant _ Hreach) as [Hinv _]. cbn [fst] in Hinv.
  unfold captureAndRead_resume. cbn [done fst snd].
  change (autoCapture_checked (inputs (log (Line (str "OCR error")) s)))
    with (autoCapture_checked (inputs s)).
  destruct (autoCapture_checked (inputs s)).
  - destruct (scheduleScan_frame (log (Line (str "OCR error")) s))
      as (Hs & Hw & Hi & Hd).
    assert (Hinv' : timer_invariant (log (Line (str "OCR error")) s))
      by (eapply timer_invariant_frame; [| |exact Hinv]; reflexivity).
    destruct (scheduleScan_arms _ Hinv') as (d & Ha & Ht & _).
    repeat split; try assumption. exists d. split; assumption.
  - repeat split.
Qed.

Lemma ocr_failure_keeps_scanning_witness :
  reachable (scanning, []) /\
  snd (captureAndRead_resume
         (Rejected {| Error.name := str "Error"; Error.message := [] |}) scanning) = [].
Proof.
  split; [exact scanning_reachable|].
  exact (proj1 (ocr_failure_keeps_scanning scanning []
                  {| Error.name := str "Error"; Error.message := [] |}
                  scanning_reachable)).
Defined.

(** ** Stopping *)

(** X10.  [stopCamera] leaves no stream and no timer id, Start enabled and
    Stop disabled; the stream it released is the one that was held.  Called
    again, or called when nothing runs, it only adds its log line: stopping
    is safe at any time. *)
Theorem stopCamera_is_safe_to_repeat (s : PlateScanner) :
  stream (stopCamera s) = None /\
  timer (stopCamera s) = None /\
  startBtn_disabled (display (stopCamera s)) = false /\
  stopBtn_disabled (display (stopCamera s)) = true /\
  stopped_streams (browser (stopCamera s))
    = stopped_streams (browser s)
      ++ match stream s with Some st => [st] | None => [] end /\
  stopCamera (stopCamera s) = log (Line (str "Camera stopped")) (stopCamera s).
Proof.
  destruct s as [st tm w i d b]. unfold stopCamera.
  destruct tm, st; cbn; rewrite ?app_nil_r; repeat split.
Qed.

(** ** Auto-capture *)

(** X11.  Unticking auto-capture leaves no timer armed and forgets the timer
    id; a cycle still in flight then arms none when it ends.  Ticking it arms
    exactly one timer, also when no camera runs. *)
Theorem autoCapture_toggle (s : PlateScanner) (pool : list Task) :
  reachable (s, pool) ->
  (let off := dispatch (AutoCaptureChange false) s in
   snd off = [] /\ armed (browser (fst off)) = [] /\ timer (fst off) = None /\
   forall r, armed (browser (fst (captureAndRead_resume r (fst off)))) = []) /\
  (let on := dispatch (AutoCaptureChange true) s in
   snd on = [] /\
   exists delay, armed (browser (fst on)) = [(next_timer (browser s), delay)] /\
                 timer (fst on) = Some (next_timer (browser s))).
Proof.
  intros Hreach. cbv zeta.
  destruct (reachable_invariant _ Hreach) as [Hinv _]. cbn [fst] in Hinv.
  split.
  - assert (Hoff : snd (dispatch (AutoCaptureChange false) s) = [] /\
                   armed (browser (fst (dispatch (AutoCaptureChange false) s))) = [] /\
                   timer (fst (dispatch (AutoCaptureChange false) s)) = None /\
                   autoCapture_checked
                     (inputs (fst (dispatch (AutoCaptureChange false) s))) = false).
    { cbn [dispatch]. cbn [timer set_autoCapture set_inputs].
      destruct Hinv as [Ha|(id & d & Ha & Ht)].
      - destruct (timer s) eqn:Et; cbn; rewrite ?Et, ?Ha; repeat split.
      - rewrite Ht. cbn. rewrite Ha. cbn. rewrite Pos.eqb_refl. repeat split. }
    destruct Hoff as (H1 & H2 & H3 & H4).
    repeat split; try assumption. intros r.
    set (s0 := fst (dispatch (AutoCaptureChange false) s)) in *.
    unfold captureAndRead_resume. destruct r as [data|e].
    + destruct (handleOCRResult_frame data s0) as (_ & _ & _ & Hi & Hb).
      destruct (handleOCRResult data s0) as [s1 ts]. cbn [fst] in *.
      now rewrite Hi, H4, Hb.
    + cbn [done fst]. change (autoCapture_checked _) with (autoCapture_checked (inputs s0)).
      now rewrite H4.
  - split; [reflexivity|]. cbn [dispatch done fst].
    assert (Hinv' : timer_invariant (set_autoCapture true s))
      by (eapply timer_invariant_frame; [| |exact Hinv]; reflexivity).
    destruct (scheduleScan_arms _ Hinv') as (d & Ha & Ht & _). eauto.
Qed.

Lemma autoCapture_toggle_witness :
  reachable (scanning, []) /\
  armed (browser (fst (dispatch (AutoCaptureChange false) scanning))) = [].
Proof.
  split; [exact scanning_reachable|].
  exact (proj1 (proj2 (proj1 (autoCapture_toggle scanning [] scanning_reachable)))).
Defined.

(** X29.  An upload only changes what the page displays and may create the
    OCR worker: a property of the scanner that no change of the display and
    no creation of the worker breaks (any property of the stream, the timer,
    the armed timers, the form controls) holds after the listener and after
    every later step of the upload (bitmap, worker, language, OCR, lookup)
    that starts in a state where it holds. *)
Theorem upload_touches_display_and_worker_only (P : PlateScanner -> Prop)
    (chosen : bool) (s : PlateScanner) :
  (forall d s, P s -> P (set_display d s)) ->
  (forall s, P s -> P (set_worker true s)) ->
  P s -> outcome_keeps P (dispatch (FileChange chosen) s).
Proof.
  intros Hd Hw H. cbn [dispatch]. destruct chosen; [|now apply keeps_done].
  split; [exact H|]. constructor; [|constructor].
  apply keeps_Await. intros r s' H'. now apply kept_by_doOCRFromImageBitmap.
Qed.

(** On the page just loaded: no stream and no armed timer, before and after
    each step of an upload. *)
Lemma upload_touches_display_and_worker_only_witness :
  outcome_keeps (fun s => stream s = None /\ armed (browser s) = [])
    (dispatch (FileChange true) loaded_page).
Proof.
  apply upload_touches_display_and_worker_only.
  - intros d s H. exact H.
  - intros s H. exact H.
  - split; reflexivity.
Defined.

(** * Validation *)

(** A quantified class matches when some run of the class, of an allowed
    length, is followed by a match of the rest. *)
Lemma greedy_may cls k : forall run lo hi prev s',
  Forall (fun c => cls c = true) run ->
  lo <= length run <= hi ->
  k (last_unit prev run) s' <> None ->
  greedy cls lo hi k prev (run ++ s') <> None.
Proof.
  induction run as [|c run IH]; intros lo hi prev s' Hall Hlen Hk.
  - simpl in *. assert (lo = 0) as -> by lia.
    destruct hi; simpl; [destruct s'; exact Hk|].
    destruct s' as [|c s']; [exact Hk|].
    destruct (cls c); [|exact Hk].
    destruct (greedy cls 0 hi k (Some c) s'); [discriminate|exact Hk].
  - inversion Hall as [|? ? Hc Hrun]; subst. simpl in Hlen.
    destruct hi as [|hi]; [lia|]. simpl. rewrite Hc.
    assert (H : greedy cls (pred lo) hi k (Some c) (run ++ s') <> None)
      by (apply IH; [exact Hrun|lia|exact Hk]).
    destruct (greedy cls (pred lo) hi k (Some c) (run ++ s')); [discriminate|].
    now elim H.
Qed.

Lemma plus_may cls k run prev s' :
  Forall (fun c => cls c = true) run -> run <> [] ->
  k (last_unit prev run) s' <> None ->
  plus cls k prev (run ++ s') <> None.
Proof.
  intros Hall Hne Hk. unfold plus. apply greedy_may; [exact Hall| |exact Hk].
  rewrite length_app. destruct run; [now elim Hne|simpl; lia].
Qed.

Lemma plus_sound cls k prev s m :
  plus cls k prev s = Some m ->
  exists run s', s = run ++ s' /\ run <> [] /\
    Forall (fun c => cls c = true) run /\ k (last_unit prev run) s' <> None.
Proof.
  unfold plus. intros H.
  apply greedy_sound in H as (run & s' & m' & -> & _ & Hall & Hlen & Hk).
  exists run, s'. repeat split; [|exact Hall|congruence].
  intros ->. simpl in Hlen. lia.
Qed.

Lemma lit_may c k prev s :
  k (Some c) s <> None -> lit c k prev (c :: s) <> None.
Proof.
  intros Hk. unfold lit. apply (greedy_may (Ascii.eqb c) k [c]).
  - constructor; [apply Ascii.eqb_refl|constructor].
  - simpl. lia.
  - exact Hk.
Qed.

Lemma lit_sound c k prev s m :
  lit c k prev s = Some m -> exists s', s = c :: s' /\ k (Some c) s' <> None.
Proof.
  unfold lit. intros H.
  apply greedy_sound in H as (run & s' & m' & -> & _ & Hall & Hlen & Hk).
  destruct run as [|u [|? ?]]; simpl in Hlen; try lia.
  inversion Hall as [|? ? Hu _]; subst. apply Ascii.eqb_eq in Hu. subst u.
  exists s'. split; [reflexivity|]. simpl in Hk. congruence.
Qed.

Lemma at_end_spec prev s : at_end prev s <> None <-> s = [].
Proof. destruct s; simpl; split; congruence. Qed.

Lemma test_true re value : test re value = true <-> re None value <> None.
Proof. unfold test. destruct (re None value); split; congruence. Qed.

(** X12.  [Validation.rules.email] accepts exactly the texts
    [local@domain.rest] whose three parts are not empty and hold neither
    white space nor [@]; the parts after the [@] may hold further dots. *)
Theorem rules_email_accepts (value : jsstring) :
  rules_email value = true <->
  exists a b c,
    value = a ++ "@"%char :: b ++ "."%char :: c /\
    a <> [] /\ b <> [] /\ c <> [] /\
    Forall (fun u => is_space u = false /\ u <> "@"%char) (a ++ b ++ c).
Proof.
  assert (Hcls : forall l, Forall (fun u => not_space_or_at u = true) l <->
                           Forall (fun u => is_space u = false /\ u <> "@"%char) l).
  { intros l. rewrite !Forall_forall. split; intros H u Hu; specialize (H u Hu).
    - unfold not_space_or_at in H. apply negb_true_iff, orb_false_iff in H.
      destruct H as [Hs Ha]. split; [exact Hs|]. intros ->. discriminate Ha.
    - destruct H as [Hs Ha]. unfold not_space_or_at. rewrite Hs. simpl.
      apply negb_true_iff, Nat.eqb_neq. intros E. apply Ha.
      unfold code in E. rewrite <- (ascii_nat_embedding u), E. reflexivity. }
  unfold rules_email. rewrite test_true. split.
  - intros H. destruct (plus _ _ None value) as [m|] eqn:E; [clear H|now elim H].
    apply plus_sound in E as (a & s1 & -> & Ha & Hall_a & E).
    destruct (lit _ _ _ s1) as [m1|] eqn:E1; [clear E|now elim E].
    apply lit_sound in E1 as (s2 & -> & E).
    destruct (plus _ _ _ s2) as [m2|] eqn:E2; [clear E|now elim E].
    apply plus_sound in E2 as (b & s3 & -> & Hb & Hall_b & E).
    destruct (lit _ _ _ s3) as [m3|] eqn:E3; [clear E|now elim E].
    apply lit_sound in E3 as (s4 & -> & E).
    destruct (plus _ _ _ s4) as [m4|] eqn:E4; [clear E|now elim E].
    apply plus_sound in E4 as (c & s5 & -> & Hc & Hall_c & E).
    apply at_end_spec in E. subst s5. rewrite app_nil_r.
    exists a, b, c. repeat split; try assumption.
    apply Hcls. rewrite !Forall_app. auto.
  - intros (a & b & c & -> & Ha & Hb & Hc & Hall).
    apply Hcls in Hall. rewrite !Forall_app in Hall. destruct Hall as (Ha' & Hb' & Hc').
    apply plus_may; [exact Ha'|exact Ha|]. apply lit_may.
    apply plus_may; [exact Hb'|exact Hb|]. apply lit_may.
    rewrite <- (app_nil_r c). apply plus_may; [exact Hc'|exact Hc|].
    now apply at_end_spec.
Qed.

(** X13.  [Validation.rules.phone] accepts exactly an optional [+] followed
    by one or more units that are digits, white space, [-], [(] or [)].  No
    digit is required. *)
Theorem rules_phone_accepts (value : jsstring) :
  rules_phone value = true <->
  exists body,
    (value = body \/ value = "+"%char :: body) /\ body <> [] /\
    Forall (fun u => is_digit u = true \/ is_space u = true \/
                     u = "-"%char \/ u = "("%char \/ u = ")"%char) body.
Proof.
  assert (Hunit : forall u, phone_unit u = true <->
            is_digit u = true \/ is_space u = true \/
            u = "-"%char \/ u = "("%char \/ u = ")"%char).
  { intros u. unfold phone_unit. rewrite !orb_true_iff, !Nat.eqb_eq.
    assert (Hc : forall n, n < 256 -> code u = n <-> u = ascii_of_nat n).
    { intros n Hn. unfold code. split.
      - intros <-. symmetry. apply ascii_nat_embedding.
      - intros ->. apply nat_ascii_embedding. exact Hn. }
    rewrite (Hc 45), (Hc 40), (Hc 41) by lia. simpl. tauto. }
  assert (Hcls : forall l, Forall (fun u => phone_unit u = true) l <->
            Forall (fun u => is_digit u = true \/ is_space u = true \/
                             u = "-"%char \/ u = "("%char \/ u = ")"%char) l).
  { intros l. rewrite !Forall_forall. split; intros H u Hu; apply Hunit, H, Hu. }
  unfold rules_phone. rewrite test_true. split.
  - intros H. destruct (greedy _ _ _ _ None value) as [m|] eqn:E; [clear H|now elim H].
    apply greedy_sound in E as (run & s1 & m1 & -> & _ & Hall & Hlen & E).
    apply plus_sound in E as (body & s2 & -> & Hb & Hall_b & E).
    apply at_end_spec in E. subst s2. rewrite app_nil_r.
    exists body. split; [|split; [exact Hb|apply Hcls, Hall_b]].
    destruct run as [|u [|? ?]]; simpl in Hlen; try lia; [now left|right].
    inversion Hall as [|? ? Hu _]; subst. apply Ascii.eqb_eq in Hu. now subst u.
  - intros (body & Hv & Hb & Hall). apply Hcls in Hall.
    assert (Hend : forall prev, plus phone_unit at_end prev body <> None).
    { intros prev. rewrite <- (app_nil_r body).
      apply plus_may; [exact Hall|exact Hb|]. now apply at_end_spec. }
    destruct Hv as [-> | ->].
    + apply (greedy_may _ _ [] 0 1 None body); [constructor|simpl; lia|apply Hend].
    + apply (greedy_may _ _ ["+"%char] 0 1 None body);
        [constructor; [reflexivity|constructor]|simpl; lia|apply Hend].
Qed.

Lemma rules_required_spec value :
  rules_required value = true <-> Exists (fun c => is_space c = false) value.
Proof.
  unfold rules_required. rewrite Nat.ltb_lt. split.
  - intros H. destruct (Forall_Exists_dec (fun c => is_space c = true)
      (fun c => bool_dec (is_space c) true) value) as [Hall|Hex].
    + apply trim_nil in Hall. rewrite Hall in H. simpl in H. lia.
    + apply Exists_exists in Hex as (c & Hin & Hc). apply Exists_exists.
      exists c. split; [exact Hin|]. now destruct (is_space c).
  - intros Hex. destruct (trim value) eqn:E; [|simpl; lia].
    apply trim_nil in E. apply Exists_exists in Hex as (c & Hin & Hc).
    rewrite Forall_forall in E. specialize (E c Hin). congruence.
Qed.

Lemma same_text_eq a b : same_text a b = true <-> a = b.
Proof. unfold same_text. destruct (list_eq_dec ascii_dec a b); split; congruence. Qed.

Lemma same_text_refl a : same_text a a = true.
Proof. now apply same_text_eq. Qed.

Lemma same_text_neq a b : a <> b -> same_text a b = false.
Proof. unfold same_text. destruct (list_eq_dec ascii_dec a b); congruence. Qed.

Lemma assign_not_nil name message errors : assign name message errors <> [].
Proof. destruct errors as [|[n m] rest]; simpl; [|destruct (same_text n name)]; discriminate. Qed.

Lemma lookup_assign name message errors n :
  lookup_error n (assign name message errors) =
  if same_text name n then Some message else lookup_error n errors.
Proof.
  induction errors as [|[n' m'] rest IH]; simpl.
  - reflexivity.
  - destruct (same_text n' name) eqn:E1; simpl.
    + apply same_text_eq in E1. subst n'. now destruct (same_text name n).
    + rewrite IH. destruct (same_text n' n) eqn:E2; [|reflexivity].
      apply same_text_eq in E2. subst n'.
      rewrite same_text_neq; [reflexivity|].
      intros ->. now rewrite same_text_refl in E1.
Qed.

Ltac verdict_case :=
  split;
  [ intros H; try discriminate H; repeat split; intros E;
    solve [reflexivity | discriminate E | congruence
          | match goal with N : _ <> _ |- _ => now elim N end]
  | intros (H1 & H2 & H3); try discriminate H1; reflexivity ].

Lemma verdict_none i : verdict i = None <-> input_valid i.
Proof.
  unfold verdict, input_valid. destruct i as [name type value].
  cbn [Input.value Input.type Input.name].
  destruct value as [|c value].
  - split; [discriminate|]. intros [H _]. discriminate H.
  - destruct (same_text type (str "tel")) eqn:Et; cbn [andb].
    + apply same_text_eq in Et. subst type.
      change (same_text (str "tel") (str "email")) with false. cbn [andb].
      destruct (rules_phone (c :: value)); cbn [negb].
      * destruct (rules_required (c :: value)); verdict_case.
      * split; [discriminate|]. intros (_ & _ & H). now specialize (H eq_refl).
    + assert (Ht : type <> str "tel") by (intros ->; now rewrite same_text_refl in Et).
      destruct (same_text type (str "email")) eqn:Ee; cbn [andb].
      * apply same_text_eq in Ee. subst type.
        destruct (rules_email (c :: value)); cbn [negb].
        -- destruct (rules_required (c :: value)); verdict_case.
        -- split; [discriminate|]. intros (_ & H & _). now specialize (H eq_refl).
      * assert (He : type <> str "email") by (intros ->; now rewrite same_text_refl in Ee).
        destruct (rules_required (c :: value)); verdict_case.
Qed.

(** What one round of the [forEach] does to the [errors] object. *)
Lemma validateInput_verdict errors i :
  validateInput errors i =
  match verdict i with
  | Some m => set_error (Input.name i) m errors
  | None => errors
  end \/
  exists m, verdict i = Some m /\
    validateInput errors i =
    set_error (Input.name i) m
      (set_error (Input.name i) (str "This field is required") errors).
Proof.
  unfold validateInput, verdict. destruct i as [name type value].
  cbn [Input.value Input.type Input.name].
  destruct value as [|c value].
  - left. reflexivity.
  - change (negb (length (c :: value) =? 0)) with true. cbn [andb].
    destruct (same_text type (str "tel")) eqn:Et; cbn [andb].
    + apply same_text_eq in Et. subst type.
      change (same_text (str "tel") (str "email")) with false. cbn [andb].
      destruct (rules_phone (c :: value)); cbn [negb].
      * left. now destruct (rules_required (c :: value)).
      * destruct (rules_required (c :: value)); cbn [negb]; [now left|right; eauto].
    + destruct (same_text type (str "email") && negb (rules_email (c :: value))).
      * destruct (rules_required (c :: value)); cbn [negb]; [now left|right; eauto].
      * left. now destruct (rules_required (c :: value)).
Qed.

Lemma set_error_twice name m m' errors :
  set_error name m (set_error name m' errors) = set_error name m errors.
Proof.
  unfold set_error. destruct (same_text name (str "__proto__")); [reflexivity|].
  induction errors as [|[n x] rest IH]; simpl.
  - now rewrite same_text_refl.
  - destruct (same_text n name) eqn:E; simpl; rewrite E; [reflexivity|now rewrite IH].
Qed.

Lemma validateInput_spec errors i :
  validateInput errors i =
  match verdict i with
  | Some m => set_error (Input.name i) m errors
  | None => errors
  end.
Proof.
  destruct (validateInput_verdict errors i) as [H|(m & Hm & H)]; [exact H|].
  rewrite H, Hm. apply set_error_twice.
Qed.

Lemma validateForm_snoc inputs i :
  validateForm (inputs ++ [i]) = validateInput (validateForm inputs) i.
Proof. unfold validateForm. now rewrite fold_left_app. Qed.

Lemma fold_validateInput_not_nil inputs : forall errors,
  errors <> [] -> fold_left validateInput inputs errors <> [].
Proof.
  induction inputs as [|i inputs IH]; intros errors He; simpl; [exact He|].
  apply IH. rewrite validateInput_spec.
  destruct (verdict i); [|exact He]. unfold set_error.
  destruct (same_text _ _); [exact He|apply assign_not_nil].
Qed.

(** X14.  [validateForm] returns an object without properties exactly when
    every required control passes: its value has a unit that is not white
    space, an [email] control holds an address and a [tel] control a phone
    number.  A control named [__proto__] never counts: its message is
    lost. *)
Theorem validateForm_passes (inputs : list Input.t) :
  validateForm inputs = [] <->
  Forall (fun i => Input.name i = str "__proto__" \/
                   (Exists (fun c => is_space c = false) (Input.value i) /\
                    (Input.type i = str "email" -> rules_email (Input.value i) = true) /\
                    (Input.type i = str "tel" -> rules_phone (Input.value i) = true)))
         inputs.
Proof.
  assert (Hv : forall i,
    (Exists (fun c => is_space c = false) (Input.value i) /\
     (Input.type i = str "email" -> rules_email (Input.value i) = true) /\
     (Input.type i = str "tel" -> rules_phone (Input.value i) = true)) <->
    verdict i = None).
  { intros i. rewrite verdict_none. unfold input_valid.
    now rewrite rules_required_spec. }
  unfold validateForm. split.
  - induction inputs as [|i inputs IH]; simpl; [constructor|].
    rewrite validateInput_spec. unfold set_error at 1.
    destruct (verdict i) as [m|] eqn:Ei.
    + destruct (same_text (Input.name i) (str "__proto__")) eqn:En.
      * intros H. constructor; [left; now apply same_text_eq|now apply IH].
      * intros H. exfalso. revert H. apply fold_validateInput_not_nil.
        apply assign_not_nil.
    + intros H. constructor; [right; now apply Hv|now apply IH].
  - induction 1 as [|i inputs Hi _ IH]; simpl; [reflexivity|].
    rewrite validateInput_spec.
    destruct Hi as [Hn|Hi].
    + unfold set_error. rewrite Hn, same_text_refl. now destruct (verdict i).
    + apply Hv in Hi. now rewrite Hi.
Qed.

(** X15.  The message under a control's name after [validateForm] is decided
    by the last control of that name, unless it passes, in which case an
    earlier message stays: an empty value gives 'This field is required'; a
    value that is not empty gives the phone or address message when a [tel]
    or [email] control fails its rule, also when the value is only white
    space, and 'This field is required' when it is only white space
    otherwise.  Other names keep their message. *)
Theorem validateForm_message (inputs : list Input.t) (i : Input.t) :
  Input.name i <> str "__proto__" ->
  let errors := validateForm (inputs ++ [i]) in
  lookup_error (Input.name i) errors =
    match Input.value i with
    | [] => Some (str "This field is required")
    | _ :: _ =>
        if same_text (Input.type i) (str "tel") && negb (rules_phone (Input.value i))
        then Some (str "Please enter a valid phone number")
        else if same_text (Input.type i) (str "email")
                  && negb (rules_email (Input.value i))
        then Some (str "Please enter a valid email address")
        else if rules_required (Input.value i)
        then lookup_error (Input.name i) (validateForm inputs)
        else Some (str "This field is required")
    end /\
  forall n, n <> Input.name i ->
    lookup_error n errors = lookup_error n (validateForm inputs).
Proof.
  intros Hn errors. unfold errors. rewrite validateForm_snoc, validateInput_spec.
  assert (Hset : forall m n, lookup_error n (set_error (Input.name i) m (validateForm inputs)) =
            if same_text (Input.name i) n then Some m
            else lookup_error n (validateForm inputs)).
  { intros m n. unfold set_error. rewrite (same_text_neq _ _ Hn). apply lookup_assign. }
  split.
  - unfold verdict. destruct (Input.value i) as [|c value] eqn:Ev.
    + now rewrite Hset, same_text_refl.
    + destruct (same_text (Input.type i) (str "tel") && negb (rules_phone (c :: value))).
      * now rewrite Hset, same_text_refl.
      * destruct (same_text (Input.type i) (str "email") && negb (rules_email (c :: value))).
        -- now rewrite Hset, same_text_refl.
        -- destruct (rules_required (c :: value)); [reflexivity|].
           now rewrite Hset, same_text_refl.
  - intros n Hne. destruct (verdict i); [|reflexivity].
    rewrite Hset, same_text_neq; [reflexivity|congruence].
Qed.

(** A name field that holds a blank and an [email] field that holds a
    no-break space: the first earns the required message, the second the
    address one. *)
Lemma validateForm_message_witness :
  lookup_error (str "email")
    (validateForm ([{| Input.name := str "name"; Input.type := str "text";
                       Input.value := str " " |}] ++
                   [{| Input.name := str "email"; Input.type := str "email";
                       Input.value := [ascii_of_nat 160] |}])) =
  Some (str "Please enter a valid email address").
Proof.
  refine (eq_trans (proj1 (validateForm_message _
    {| Input.name := str "email"; Input.type := str "email";
       Input.value := [ascii_of_nat 160] |} _)) _).
  - discriminate.
  - reflexivity.
Defined.

(** * The complaints desk *)

Lemma findIndex_none {A} (p : A -> bool) l :
  findIndex p l = None <-> Forall (fun x => p x = false) l.
Proof.
  induction l as [|x l IH]; simpl; [split; auto|].
  destruct (p x) eqn:E.
  - split; [discriminate|]. inversion 1; congruence.
  - destruct (findIndex p l); simpl.
    + split; [discriminate|]. inversion 1; subst.
      assert (Hn : Some n = None) by (apply IH; assumption). discriminate Hn.
    + split; [|reflexivity]. intros _. constructor; [exact E|now apply IH].
Qed.

Lemma findIndex_some {A} (p : A -> bool) : forall l i,
  findIndex p l = Some i ->
  exists before x after,
    l = before ++ x :: after /\ length before = i /\ p x = true /\
    Forall (fun y => p y = false) before.
Proof.
  induction l as [|x l IH]; intros i H; simpl in H; [discriminate|].
  destruct (p x) eqn:E.
  - inversion H; subst. exists [], x, l. repeat split; auto.
  - destruct (findIndex p l) as [j|] eqn:Ej; [|discriminate].
    inversion H; subst. destruct (IH j eq_refl) as (b & y & a & -> & Hl & Hy & Hb).
    exists (x :: b), y, a. repeat split; simpl; auto.
Qed.

Lemma store_app {A} (before : list A) x v after :
  store (length before) v (before ++ x :: after) = before ++ v :: after.
Proof. induction before as [|y b IH]; simpl; [reflexivity|now rewrite IH]. Qed.

Lemma find_app_first {A} (p : A -> bool) before x after :
  Forall (fun y => p y = false) before -> p x = true ->
  find p (before ++ x :: after) = Some x.
Proof.
  induction 1 as [|y b Hy _ IH]; intros Hx; simpl; [now rewrite Hx|].
  rewrite Hy. now apply IH.
Qed.

Lemma find_none_forall {A} (p : A -> bool) l :
  find p l = None <-> Forall (fun y => p y = false) l.
Proof.
  induction l as [|x l IH]; simpl; [split; auto|].
  destruct (p x) eqn:E.
  - split; [discriminate|]. inversion 1; congruence.
  - rewrite IH. split; [now constructor|now inversion 1].
Qed.

(** [updateTicket] and [getTicket] agree on the ticket an id names: the
    first one that carries it. *)
Lemma updateTicket_cases ticketId updater a :
  (getTicket ticketId a = None /\ updateTicket ticketId updater a = a) \/
  (exists before t after,
     tickets a = before ++ t :: after /\
     Forall (fun u => same_text (Ticket.id u) ticketId = false) before /\
     Ticket.id t = ticketId /\
     getTicket ticketId a = Some t /\
     updateTicket ticketId updater a = set_tickets (before ++ updater t :: after) a).
Proof.
  unfold updateTicket, getTicket.
  destruct (findIndex _ (tickets a)) as [i|] eqn:E.
  - right. apply findIndex_some in E as (b & t & r & Ht & Hl & Hp & Hb).
    exists b, t, r. rewrite Ht. subst i.
    rewrite nth_error_app2, Nat.sub_diag by lia. simpl.
    rewrite store_app. apply same_text_eq in Hp as Hid.
    repeat split; auto. now apply find_app_first.
  - left. apply findIndex_none in E. split; [now apply find_none_forall|reflexivity].
Qed.

Lemma on_active_cases updater d :
  (getActiveTicket (state d) = None /\ on_active updater d = d) \/
  (exists before t after,
     tickets (state d) = before ++ t :: after /\
     Forall (fun u => same_text (Ticket.id u) (Ticket.id t) = false) before /\
     activeTicketId (state d) = Some (Ticket.id t) /\
     getActiveTicket (state d) = Some t /\
     on_active updater d =
       set_state (set_tickets (before ++ updater t :: after) (state d)) d).
Proof.
  unfold on_active. destruct (getActiveTicket (state d)) as [t|] eqn:E; [right|now left].
  unfold getActiveTicket in E. destruct (activeTicketId (state d)) as [i|] eqn:Ei; [|discriminate].
  destruct (updateTicket_cases i updater (state d)) as [[H _]|(b & u & r & Ht & Hb & Hid & Hg & Hu)];
    [congruence|].
  assert (u = t) by congruence. subst u. subst i.
  exists b, t, r. repeat split; auto. now rewrite Hu.
Qed.

Lemma on_active_of_ticket updater d t :
  getActiveTicket (state d) = Some t ->
  set_state (updateTicket (Ticket.id t) updater (state d)) d = on_active updater d.
Proof. intros H. unfold on_active. now rewrite H. Qed.

Lemma extends_refl {A} (l : list A) : extends l l.
Proof. exists []. now rewrite app_nil_r. Qed.

Lemma extends_push {A} (l pushed : list A) : extends l (l ++ pushed).
Proof. now exists pushed. Qed.

Lemma extends_trans {A} (l l' l'' : list A) :
  extends l l' -> extends l' l'' -> extends l l''.
Proof. intros [p ->] [q ->]. exists (p ++ q). now rewrite app_assoc. Qed.

Ltac grown :=
  unfold grows; cbn;
  repeat split; try reflexivity; try apply extends_refl; try apply extends_push.

Lemma grows_refl t : grows t t.
Proof. grown. Qed.

Lemma grows_trans t t' t'' : grows t t' -> grows t' t'' -> grows t t''.
Proof.
  unfold grows. intros H H'.
  repeat match goal with H : _ /\ _ |- _ => destruct H end.
  repeat split; try congruence; eapply extends_trans; eassumption.
Qed.

Lemma Forall2_grows_refl l : Forall2 grows l l.
Proof. induction l; constructor; [apply grows_refl|assumption]. Qed.

Lemma Forall2_grows_one before t t' after :
  grows t t' -> Forall2 grows (before ++ t :: after) (before ++ t' :: after).
Proof.
  intros H. apply Forall2_app; [apply Forall2_grows_refl|].
  constructor; [exact H|apply Forall2_grows_refl].
Qed.

Lemma on_active_grows updater d :
  (forall t, grows t (updater t)) ->
  Forall2 grows (tickets (state d)) (tickets (state (on_active updater d))) /\
  activeTicketId (state (on_active updater d)) = activeTicketId (state d) /\
  toasts (on_active updater d) = toasts d.
Proof.
  intros H.
  destruct (on_active_cases updater d) as [[_ ->]|(b & t & r & Ht & _ & _ & _ & ->)].
  - repeat split. apply Forall2_grows_refl.
  - cbn. rewrite Ht. repeat split. apply Forall2_grows_one, H.
Qed.

Lemma push_evidence_grows listType e t : grows t (push_evidence listType e t).
Proof.
  unfold push_evidence.
  repeat match goal with |- context [if ?b then _ else _] => destruct b end; grown.
Qed.

Lemma audit_push_grows now action t : grows t (audit_push now action t).
Proof. grown. Qed.

(** Every handler leaves the tickets that were there, grown, behind at most
    one new ticket. *)
Lemma desk_dispatch_grows e d :
  exists new kept,
    tickets (state (desk_dispatch e d)) = new ++ kept /\
    length new <= 1 /\
    Forall2 grows (tickets (state d)) kept.
Proof.
  assert (Hsame : forall d', Forall2 grows (tickets (state d)) (tickets (state d')) ->
            exists new kept, tickets (state d') = new ++ kept /\ length new <= 1 /\
              Forall2 grows (tickets (state d)) kept).
  { intros d' H. exists [], (tickets (state d')). repeat split; [simpl; lia|exact H]. }
  destruct e; simpl.
  - unfold handleComplaintSubmission.
    destruct (0 <? length (complaint_errors form)).
    + apply Hsame. apply Forall2_grows_refl.
    + eexists [_], (tickets (state d)). split; [|split; [simpl; lia|apply Forall2_grows_refl]].
      unfold switchTab. cbn. now destruct (existsb _ _).
  - apply Hsame, Forall2_grows_refl.
  - apply Hsame, Forall2_grows_refl.
  - apply Hsame. unfold switchTab. destruct (existsb _ _); apply Forall2_grows_refl.
  - apply Hsame, on_active_grows. intros t. grown.
  - apply Hsame, on_active_grows. intros t. grown.
  - apply Hsame, on_active_grows. intros t. grown.
  - apply Hsame, on_active_grows. intros t. grown.
  - apply Hsame, on_active_grows. intros t. grown.
  - apply Hsame, on_active_grows. intros t. grown.
  - apply Hsame. unfold addEvidence.
    destruct (getActiveTicket (state d)) as [t|] eqn:Et; [|apply Forall2_grows_refl].
    destruct (fieldMappings listType) as [m|]; [|apply Forall2_grows_refl].
    match goal with |- context [match ?x with Some _ => _ | None => d end] =>
      destruct x end; [|apply Forall2_grows_refl].
    rewrite (on_active_of_ticket _ d t Et). cbn.
    apply on_active_grows. intros u.
    eapply grows_trans; [apply push_evidence_grows|apply audit_push_grows].
  - apply Hsame. unfold setTicketStatus.
    destruct (getActiveTicket (state d)) as [t|] eqn:Et; [|apply Forall2_grows_refl].
    destruct (_ && _); [apply Forall2_grows_refl|].
    rewrite (on_active_of_ticket _ d t Et). cbn.
    apply on_active_grows. intros u. grown.
Qed.

Lemma Forall2_grows_trans : forall l l' l'',
  Forall2 grows l l' -> Forall2 grows l' l'' -> Forall2 grows l l''.
Proof.
  induction l as [|t l IH]; intros l' l'' H H'.
  - inversion H; subst. inversion H'; subst. constructor.
  - inversion H; subst. inversion H'; subst.
    constructor; [eapply grows_trans; eassumption|eapply IH; eassumption].
Qed.

(** X16.  Whatever events the desk handles, the tickets that were there stay
    in their order behind the new ones (at most one per event), each with the
    id, creation time, nature, customer, booking and complaint text it had,
    and with its evidence lists and its audit trail only added to. *)
Theorem tickets_only_grow (events : list DeskEvent) (d : Desk) :
  exists new kept,
    tickets (state (fold_left (fun d e => desk_dispatch e d) events d)) = new ++ kept /\
    length new <= length events /\
    Forall2 grows (tickets (state d)) kept.
Proof.
  revert d. induction events as [|e events IH]; intros d; simpl.
  - exists [], (tickets (state d)). repeat split; [simpl; lia|apply Forall2_grows_refl].
  - destruct (desk_dispatch_grows e d) as (new1 & kept1 & E1 & L1 & G1).
    destruct (IH (desk_dispatch e d)) as (new & kept & E & L & G).
    rewrite E1 in G. apply Forall2_app_inv_l in G as (k1 & k2 & Gn & Gk & ->).
    exists (new ++ k1), k2. rewrite <- app_assoc. split; [exact E|]. split.
    + rewrite length_app, <- (Forall2_length Gn). lia.
    + eapply Forall2_grows_trans; eassumption.
Qed.

Lemma last_status_push audit e :
  last_status (audit ++ [e]) =
  match status_change e with Some s => Some s | None => last_status audit end.
Proof. unfold last_status. now rewrite fold_left_app. Qed.

Lemma on_active_Forall (P : Ticket.t -> Prop) updater d :
  Forall P (tickets (state d)) ->
  (forall t, getActiveTicket (state d) = Some t -> P t -> P (updater t)) ->
  Forall P (tickets (state (on_active updater d))).
Proof.
  intros HP Hf.
  destruct (on_active_cases updater d) as [[_ ->]|(b & t & r & Ht & _ & _ & Hg & ->)];
    [exact HP|].
  cbn. rewrite Ht in HP. apply Forall_app in HP as [Hb Hr].
  inversion Hr; subst. apply Forall_app. split; [exact Hb|].
  constructor; [now apply Hf|assumption].
Qed.

(** An updater that leaves status and trail alone and keeps or sets the
    outcome's reason. *)
Lemma well_audited_admin t admin :
  (forall o, Admin.outcome (Ticket.admin t) = Some o ->
             TicketOutcome.rejectReason o <> None ->
   exists o', Admin.outcome admin = Some o' /\ TicketOutcome.rejectReason o' <> None) ->
  well_audited t -> well_audited (set_admin admin t).
Proof.
  intros Ho (Hc & Hs & Hr). split; [exact Hc|]. split; [exact Hs|].
  cbn. intros E. destruct (Hr E) as (o & Eo & Hn). eauto.
Qed.

Lemma outcome_or_reason decision t o :
  Admin.outcome (Ticket.admin t) = Some o -> outcome_or decision t = o.
Proof. unfold outcome_or. now intros ->. Qed.

Lemma well_audited_push now action t :
  startsWith (str "Status changed to ") action = false ->
  well_audited t -> well_audited (audit_push now action t).
Proof.
  intros Ha ((e & rest & Ea & Hc) & Hs & Hr). split; [|split].
  - cbn. rewrite Ea. exists e, (rest ++ [{| Audit.at_ := now; Audit.who := str "agent";
                                            Audit.action := action |}]).
    split; [reflexivity|exact Hc].
  - cbn [audit_push Ticket.audit Ticket.status]. rewrite last_status_push.
    unfold status_change. cbn [Audit.action]. rewrite Ha. exact Hs.
  - exact Hr.
Qed.

Lemma startsWith_app prefix s : startsWith prefix (prefix ++ s) = true.
Proof.
  induction prefix as [|c p IH]; simpl; [reflexivity|].
  now rewrite Ascii.eqb_refl, IH.
Qed.

Lemma well_audited_status now status t :
  (status = str "Rejected" -> has_rejectReason t = true) ->
  well_audited t ->
  well_audited (audit_push now (str "Status changed to " ++ status) (set_status status t)).
Proof.
  intros Hg ((e & rest & Ea & Hc) & Hs & Hr). split; [|split].
  - cbn. rewrite Ea. eexists e, _. split; [reflexivity|exact Hc].
  - cbn [audit_push set_status Ticket.audit Ticket.status]. rewrite last_status_push.
    unfold status_change. cbn [Audit.action].
    rewrite startsWith_app. reflexivity.
  - cbn. intros E. specialize (Hg E). unfold has_rejectReason in Hg.
    destruct (Admin.outcome (Ticket.admin t)) as [o|]; [|discriminate].
    exists o. split; [reflexivity|]. now destruct (TicketOutcome.rejectReason o).
Qed.

Lemma well_audited_evidence listType e t :
  well_audited t -> well_audited (push_evidence listType e t).
Proof.
  intros H. unfold push_evidence.
  repeat match goal with |- context [if ?b then _ else _] => destruct b end;
    try exact H; destruct H as (Hc & Hs & Hr); (split; [exact Hc|split; [exact Hs|exact Hr]]).
Qed.

Ltac keeps_reason :=
  let o := fresh "o" in let Eo := fresh "Eo" in let Hn := fresh "Hn" in
  intros o Eo Hn; cbn;
  try (rewrite (outcome_or_reason _ _ _ Eo));
  eexists; split; [try exact Eo; reflexivity|cbn; try exact Hn; try discriminate].

Lemma desk_dispatch_well_audited e d :
  Forall well_audited (tickets (state d)) ->
  Forall well_audited (tickets (state (desk_dispatch e d))).
Proof.
  intros H. destruct e; simpl.
  - unfold handleComplaintSubmission.
    destruct (0 <? length (complaint_errors form)); [exact H|].
    assert (Hnew : Forall well_audited
              (createTicketFromComplaint id createdAt at_ form :: tickets (state d))).
    { constructor; [|exact H]. split; [|split].
      - eexists _, []. split; [reflexivity|now right].
      - cbn. now left.
      - cbn. discriminate. }
    unfold switchTab. cbn. now destruct (existsb _ _).
  - exact H.
  - exact H.
  - unfold switchTab. now destruct (existsb _ _).
  - apply on_active_Forall; [exact H|]. intros t _. apply well_audited_admin. keeps_reason.
  - apply on_active_Forall; [exact H|]. intros t _ Ht.
    apply well_audited_push; [reflexivity|].
    revert Ht. apply well_audited_admin. keeps_reason.
  - apply on_active_Forall; [exact H|]. intros t _. apply well_audited_admin. keeps_reason.
  - apply on_active_Forall; [exact H|]. intros t _. apply well_audited_admin. keeps_reason.
  - apply on_active_Forall; [exact H|]. intros t _. apply well_audited_admin. keeps_reason.
  - apply on_active_Forall; [exact H|]. intros t _. apply well_audited_admin. keeps_reason.
  - unfold addEvidence.
    destruct (getActiveTicket (state d)) as [t|] eqn:Et; [|exact H].
    destruct (fieldMappings listType) as [m|]; [|exact H].
    match goal with |- context [match ?x with Some _ => _ | None => d end] =>
      destruct x end; [|exact H].
    rewrite (on_active_of_ticket _ d t Et). cbn.
    apply on_active_Forall; [exact H|]. intros u _ Hu.
    apply well_audited_push; [reflexivity|]. now apply well_audited_evidence.
  - unfold setTicketStatus.
    destruct (getActiveTicket (state d)) as [t|] eqn:Et; [|exact H].
    destruct (same_text status (str "Rejected") && negb (has_rejectReason t)) eqn:Eg;
      [exact H|].
    rewrite (on_active_of_ticket _ d t Et). cbn.
    apply on_active_Forall; [exact H|]. intros u Eu Hu.
    assert (u = t) by congruence. subst u.
    apply well_audited_status; [|exact Hu].
    intros ->. rewrite same_text_refl in Eg. simpl in Eg.
    now destruct (has_rejectReason t).
Qed.

(** X17.  In every state the desk reaches, the audit trail of each ticket
    begins with its creation entry and accounts for its status: the status
    is the one of the last 'Status changed to ...' entry, or New or Triage
    when there is none.  A rejected ticket has an outcome object that got a
    reject reason. *)
Theorem tickets_are_well_audited (d : Desk) :
  desk_reachable d -> Forall well_audited (tickets (state d)).
Proof.
  induction 1 as [now tabs|e d _ IH].
  - cbn. constructor; [|constructor]. split; [|split].
    + eexists _, []. split; [reflexivity|now left].
    + cbn. now right.
    + cbn. discriminate.
  - now apply desk_dispatch_well_audited.
Qed.

Lemma rejected_desk_reachable : desk_reachable rejected_desk.
Proof. unfold rejected_desk, fresh_desk. apply desk_next, desk_next, desk_start. Defined.

Lemma tickets_are_well_audited_witness :
  desk_reachable rejected_desk /\
  Forall well_audited (tickets (state rejected_desk)).
Proof.
  split; [exact rejected_desk_reachable|].
  apply tickets_are_well_audited. exact rejected_desk_reachable.
Defined.

Lemma getActiveTicket_on_active updater d t :
  getActiveTicket (state d) = Some t ->
  Ticket.id (updater t) = Ticket.id t ->
  getActiveTicket (state (on_active updater d)) = Some (updater t) /\
  length (tickets (state (on_active updater d))) = length (tickets (state d)).
Proof.
  intros Ht Hid.
  destruct (on_active_cases updater d) as [[E _]|(b & u & r & El & Hb & Ea & Eg & ->)];
    [congruence|].
  assert (u = t) by congruence. subst u.
  unfold getActiveTicket, getTicket. cbn. rewrite Ea, El. split.
  - apply find_app_first; [exact Hb|]. rewrite Hid. apply same_text_refl.
  - rewrite !length_app. reflexivity.
Qed.

Lemma on_active_toasts updater d : toasts (on_active updater d) = toasts d.
Proof. unfold on_active. now destruct (getActiveTicket (state d)). Qed.

(** X18.  Rejecting the active ticket needs a reason: without an outcome,
    without a reason or with the empty reason, [setTicketStatus('Rejected')]
    only shows the error toast; with a reason the active ticket gets the
    status and the audit entry 'Status changed to Rejected' and stays active.
    The blur of the reject reason field records exactly the text of the
    field, so an emptied field blocks the rejection again. *)
Theorem rejecting_needs_a_reason (d : Desk) (t : Ticket.t) (now : ISOString) :
  getActiveTicket (state d) = Some t ->
  let d' := setTicketStatus (str "Rejected") now d in
  (reject_reason t = None \/ reject_reason t = Some [] ->
   d' = show (str "Reject reason is required before setting status to Rejected")
             (str "error") d) /\
  (forall c r, reject_reason t = Some (c :: r) ->
   getActiveTicket (state d') =
     Some (audit_push now (str "Status changed to Rejected")
             (set_status (str "Rejected") t)) /\
   length (tickets (state d')) = length (tickets (state d)) /\
   toasts d' = toasts d ++ [(str "Ticket status updated to Rejected", str "success")]) /\
  (forall value, exists t',
     getActiveTicket (state (rejectReason_blur value d)) = Some t' /\
     reject_reason t' = Some value /\
     Ticket.status t' = Ticket.status t /\ Ticket.audit t' = Ticket.audit t).
Proof.
  intros Ht d'. unfold d', setTicketStatus. rewrite Ht.
  change (same_text (str "Rejected") (str "Rejected")) with true. cbn [andb].
  unfold has_rejectReason, reject_reason. split; [|split].
  - destruct (Admin.outcome (Ticket.admin t)) as [o|]; [|reflexivity].
    intros [E|E]; now rewrite E.
  - intros c r E. destruct (Admin.outcome (Ticket.admin t)) as [o|]; [|discriminate].
    rewrite E. cbn [negb].
    rewrite (on_active_of_ticket _ d t Ht).
    destruct (getActiveTicket_on_active
                (fun ticket => audit_push now (str "Status changed to " ++ str "Rejected")
                                 (set_status (str "Rejected") ticket)) d t Ht eq_refl)
      as [Hg Hl].
    repeat split; [exact Hg|exact Hl|].
    cbn [show toasts]. now rewrite on_active_toasts.
  - intros value. unfold rejectReason_blur.
    match goal with |- context [on_active ?f d] =>
      destruct (getActiveTicket_on_active f d t Ht eq_refl) as [Hg _]; rewrite Hg end.
    eexists. split; [reflexivity|]. repeat split.
Qed.

Lemma rejecting_needs_a_reason_witness :
  getActiveTicket (state fresh_desk) <> None /\
  toasts (setTicketStatus (str "Rejected") 1000%Z fresh_desk) =
    [(str "Reject reason is required before setting status to Rejected", str "error")].
Proof.
  split; [discriminate|].
  destruct (getActiveTicket (state fresh_desk)) as [t|] eqn:Et; [|discriminate].
  rewrite (proj1 (rejecting_needs_a_reason fresh_desk t 1000%Z Et)); [reflexivity|].
  left. vm_compute in Et. inversion Et. reflexivity.
Defined.

Lemma complaint_errors_nil form :
  complaint_errors form = [] <->
  validateForm (ComplaintForm.required form) = [] /\
  (ComplaintForm.nature form = str "Damage" -> ComplaintForm.damageTypes form <> []).
Proof.
  unfold complaint_errors.
  destruct (same_text (ComplaintForm.nature form) (str "Damage")) eqn:En.
  - apply same_text_eq in En.
    destruct (ComplaintForm.damageTypes form) as [|x l]; simpl.
    + split.
      * intros H. exfalso. revert H. apply assign_not_nil.
      * intros [_ H]. now elim (H En).
    + split; [intros H; split; [exact H|discriminate]|now intros [H _]].
  - simpl. split; [|now intros [H _]]. intros H. split; [exact H|].
    intros E. rewrite E, same_text_refl in En. discriminate En.
Qed.

(** X19.  A complaint is accepted exactly when every required control
    passes [validateForm] and a Damage complaint names a damage type.  An
    accepted complaint puts its ticket first in the list, with status New and
    one audit entry, makes it the active ticket (also when its id is already
    in use) and shows the success toast; a refused one changes nothing and
    shows the error toast. *)
Theorem complaint_submission (form : ComplaintForm.t) (id : jsstring)
    (createdAt at_ : ISOString) (d : Desk) :
  let d' := handleComplaintSubmission form id createdAt at_ d in
  let accepted :=
    validateForm (ComplaintForm.required form) = [] /\
    (ComplaintForm.nature form = str "Damage" -> ComplaintForm.damageTypes form <> []) in
  (accepted ->
   exists ticket,
     tickets (state d') = ticket :: tickets (state d) /\
     getActiveTicket (state d') = Some ticket /\
     Ticket.id ticket = id /\ Ticket.status ticket = str "New" /\
     Ticket.audit ticket =
       [{| Audit.at_ := at_; Audit.who := str "customer";
           Audit.action := str "Ticket created via portal" |}] /\
     Ticket.customer ticket = ComplaintForm.customer form /\
     Admin.outcome (Ticket.admin ticket) = None /\
     toasts d' = toasts d ++
       [(str "Ticket " ++ id ++ str " created successfully", str "success")]) /\
  (~ accepted ->
   d' = show (str "Please correct the errors in the form") (str "error") d).
Proof.
  intros d' accepted. unfold d', handleComplaintSubmission.
  pose proof (complaint_errors_nil form) as Hacc. fold accepted in Hacc.
  destruct (complaint_errors form) as [|x l] eqn:E.
  - split; [|intros H; elim H; now apply Hacc].
    intros _. change (0 <? length (@nil (jsstring * jsstring))) with false. cbv iota.
    exists (createTicketFromComplaint id createdAt at_ form).
    unfold switchTab.
    destruct (existsb _ _); cbn;
      unfold getActiveTicket, getTicket; cbn; rewrite same_text_refl; repeat split.
  - split; [intros H; apply Hacc in H; discriminate H|]. intros _. reflexivity.
Qed.

(** A ticket behind another one with its id is out of reach of an update of
    the active ticket. *)
Lemma on_active_shadowed updater d before t after :
  (forall u, Ticket.id (updater u) = Ticket.id u) ->
  tickets (state d) = before ++ t :: after ->
  Exists (fun u => Ticket.id u = Ticket.id t) before ->
  exists before' after',
    tickets (state (on_active updater d)) = before' ++ t :: after' /\
    length after' = length after /\
    Exists (fun u => Ticket.id u = Ticket.id t) before'.
Proof.
  intros Hid Hl Hex.
  destruct (on_active_cases updater d) as [[_ ->]|(b & u & r & El & Hb & _ & _ & ->)].
  - exists before, after. auto.
  - cbn. rewrite Hl in El. apply app_eq_app in El as [l [[-> E]|[-> E]]].
    + destruct l as [|x l]; simpl in E.
      * inversion E; subst. rewrite app_nil_r in Hex.
        apply Exists_exists in Hex as (x & Hin & Hx).
        rewrite Forall_forall in Hb. specialize (Hb x Hin).
        rewrite <- Hx, same_text_refl in Hb. discriminate Hb.
      * inversion E; subst. exists (b ++ updater x :: l), after.
        rewrite <- app_assoc. repeat split.
        apply Exists_app in Hex as [Hex|Hex]; apply Exists_app; [now left|right].
        inversion Hex; subst; [left; now rewrite Hid|now right].
    + destruct l as [|x l]; simpl in E.
      * inversion E; subst. rewrite app_nil_r in Hb.
        apply Exists_exists in Hex as (x & Hin & Hx).
        rewrite Forall_forall in Hb. specialize (Hb x Hin).
        rewrite <- Hx, same_text_refl in Hb. discriminate Hb.
      * inversion E; subst. exists before, (l ++ updater u :: r).
        rewrite <- app_assoc. repeat split; [|exact Hex].
        rewrite !length_app. reflexivity.
Qed.

(** What a handler does to the list of tickets: nothing, a new ticket in
    front, or an update of the active ticket that lets it grow. *)
Lemma desk_dispatch_shape e d :
  tickets (state (desk_dispatch e d)) = tickets (state d) \/
  (exists new, tickets (state (desk_dispatch e d)) = new :: tickets (state d)) \/
  (exists updater, (forall u, grows u (updater u)) /\
     tickets (state (desk_dispatch e d)) = tickets (state (on_active updater d))).
Proof.
  destruct e; simpl.
  - unfold handleComplaintSubmission.
    destruct (0 <? length (complaint_errors form)); [now left|].
    right; left. eexists. unfold switchTab. cbn. now destruct (existsb _ _).
  - now left.
  - now left.
  - left. unfold switchTab. now destruct (existsb _ _).
  - right; right. eexists. split; [|reflexivity]. intros u. grown.
  - right; right. eexists. split; [|reflexivity]. intros u. grown.
  - right; right. eexists. split; [|reflexivity]. intros u. grown.
  - right; right. eexists. split; [|reflexivity]. intros u. grown.
  - right; right. eexists. split; [|reflexivity]. intros u. grown.
  - right; right. eexists. split; [|reflexivity]. intros u. grown.
  - unfold addEvidence.
    destruct (getActiveTicket (state d)) as [t|] eqn:Et; [|now left].
    destruct (fieldMappings listType) as [m|]; [|now left].
    match goal with |- context [match ?x with Some _ => _ | None => d end] =>
      destruct x end; [|now left].
    right; right. rewrite (on_active_of_ticket _ d t Et). cbn.
    eexists. split; [|reflexivity]. intros u.
    eapply grows_trans; [apply push_evidence_grows|apply audit_push_grows].
  - unfold setTicketStatus.
    destruct (getActiveTicket (state d)) as [t|] eqn:Et; [|now left].
    destruct (_ && _); [now left|].
    right; right. rewrite (on_active_of_ticket _ d t Et). cbn.
    eexists. split; [|reflexivity]. intros u. grown.
Qed.

Lemma desk_dispatch_shadowed e d before t after :
  tickets (state d) = before ++ t :: after ->
  Exists (fun u => Ticket.id u = Ticket.id t) before ->
  exists before' after',
    tickets (state (desk_dispatch e d)) = before' ++ t :: after' /\
    length after' = length after /\
    Exists (fun u => Ticket.id u = Ticket.id t) before'.
Proof.
  intros Hl Hex.
  destruct (desk_dispatch_shape e d) as [->|[[new ->]|(f & Hf & ->)]].
  - exists before, after. auto.
  - exists (new :: before), after. rewrite Hl. repeat split. now right.
  - eapply on_active_shadowed; [|exact Hl|exact Hex].
    intros u. apply (Hf u).
Qed.

(** X20.  Ticket ids are not checked for collisions.  A ticket that stands
    behind another ticket with the same id is frozen: no sequence of events
    changes it in any way, it keeps its distance to the end of the list, and
    a ticket with its id stays in front of it. *)
Theorem shadowed_ticket_is_frozen (events : list DeskEvent) (d : Desk)
    (before : list Ticket.t) (t : Ticket.t) (after : list Ticket.t) :
  tickets (state d) = before ++ t :: after ->
  Exists (fun u => Ticket.id u = Ticket.id t) before ->
  exists before' after',
    tickets (state (fold_left (fun d e => desk_dispatch e d) events d)) =
      before' ++ t :: after' /\
    length after' = length after /\
    Exists (fun u => Ticket.id u = Ticket.id t) before'.
Proof.
  revert d before after.
  induction events as [|e events IH]; intros d before after Hl Hex; simpl.
  - exists before, after. auto.
  - destruct (desk_dispatch_shadowed e d before t after Hl Hex) as (b & a & Hl' & Hlen & Hex').
    destruct (IH _ b a Hl' Hex') as (b' & a' & H & Hlen' & Hex'').
    exists b', a'. repeat split; [exact H|congruence|exact Hex''].
Qed.

(** The seed ticket behind a new ticket that got its id T-1001: selecting
    T-1001, rejecting it with a reason and adding evidence reach the new
    ticket only. *)
Lemma shadowed_ticket_is_frozen_witness :
  exists seed before' after',
    tickets (state fresh_desk) = [seed] /\
    tickets (state (fold_left (fun d e => desk_dispatch e d)
                      [TicketClick (str "T-1001");
                       RejectReasonBlur (str "Not ours");
                       SetTicketStatus (str "Rejected") 6000%Z;
                       AddEvidence (str "doc") (str "admin.supportingDocs") None NoTime
                         (str "k3x9") 7000%Z 7001%Z]
                      collided_desk)) = before' ++ seed :: after' /\
    length after' = 0.
Proof.
  destruct (tickets (state fresh_desk)) as [|seed rest] eqn:E; [discriminate E|].
  destruct rest; [|discriminate E].
  destruct (shadowed_ticket_is_frozen
              [TicketClick (str "T-1001");
               RejectReasonBlur (str "Not ours");
               SetTicketStatus (str "Rejected") 6000%Z;
               AddEvidence (str "doc") (str "admin.supportingDocs") None NoTime
                 (str "k3x9") 7000%Z 7001%Z]
              collided_desk
              [createTicketFromComplaint (str "T-1001") 5000%Z 5001%Z service_complaint]
              seed [])
    as (b & a & H & Hlen & _).
  - vm_compute in E. inversion E. reflexivity.
  - left. vm_compute in E. inversion E. reflexivity.
  - exists seed, b, a. repeat split; [exact H|exact Hlen].
Defined.

(** * Reports and search *)

Lemma filter_partition {A} (p q r : A -> bool) (l : list A) :
  (forall x, Nat.b2n (p x) + Nat.b2n (q x) + Nat.b2n (r x) = 1) ->
  length (filter p l) + length (filter q l) + length (filter r l) = length l.
Proof.
  intros H. induction l as [|x l IH]; [reflexivity|]. simpl.
  specialize (H x). destruct (p x), (q x), (r x); simpl in *; lia.
Qed.

Lemma open_status status :
  negb (includes [str "Resolved"; str "Rejected"] status) =
  negb (same_text status (str "Resolved")) && negb (same_text status (str "Rejected")).
Proof.
  unfold includes, same_text. cbn [existsb].
  destruct (list_eq_dec ascii_dec (str "Resolved") status);
    destruct (list_eq_dec ascii_dec status (str "Resolved")); try congruence;
    destruct (list_eq_dec ascii_dec (str "Rejected") status);
    destruct (list_eq_dec ascii_dec status (str "Rejected")); try congruence;
    reflexivity.
Qed.

(** X21.  The three counts of the reports tab count every ticket exactly
    once: open, resolved and rejected add up to the number of tickets, a
    ticket being open unless its status is exactly 'Resolved' or
    'Rejected'. *)
Theorem report_counts_partition (l : list Ticket.t) :
  openTickets l + resolvedTickets l + rejectedTickets l = length l /\
  openTickets l =
    length (filter (fun t => negb (same_text (Ticket.status t) (str "Resolved")) &&
                             negb (same_text (Ticket.status t) (str "Rejected"))) l).
Proof.
  unfold openTickets, resolvedTickets, rejectedTickets. split.
  - apply filter_partition. intros t. rewrite open_status.
    destruct (same_text (Ticket.status t) (str "Resolved")) eqn:E1;
      destruct (same_text (Ticket.status t) (str "Rejected")) eqn:E2; try reflexivity.
    apply same_text_eq in E1, E2. rewrite E1 in E2. discriminate E2.
  - f_equal. apply filter_ext. intros t. apply open_status.
Qed.

Lemma startsWith_spec needle : forall s,
  startsWith needle s = true <-> exists r, s = needle ++ r.
Proof.
  induction needle as [|c n IH]; intros s; simpl.
  - split; [intros _; now exists s|reflexivity].
  - destruct s as [|u s].
    + split; [discriminate|]. intros [r H]. discriminate H.
    + rewrite andb_true_iff, Ascii.eqb_eq, IH. split.
      * intros [-> [r ->]]. now exists r.
      * intros [r H]. inversion H; subst. split; [reflexivity|now exists r].
Qed.

Lemma includes_text_spec needle : forall s,
  includes_text needle s = true <-> exists p r, s = p ++ needle ++ r.
Proof.
  induction s as [|u s IH].
  - simpl. rewrite orb_false_r, startsWith_spec. split.
    + intros [r H]. now exists [], r.
    + intros (p & r & H). destruct p; [now exists r|discriminate H].
  - cbn [includes_text]. rewrite orb_true_iff, startsWith_spec, IH. split.
    + intros [[r H]|(p & r & H)]; [now exists [], r|].
      exists (u :: p), r. simpl. now rewrite H.
    + intros (p & r & H). destruct p as [|x p]; [left; now exists r|].
      right. inversion H; subst. now exists p, r.
Qed.

Lemma includes_text_refl s : includes_text s s = true.
Proof. apply includes_text_spec. exists [], []. now rewrite app_nil_r. Qed.

Lemma includes_text_trans a b c :
  includes_text a b = true -> includes_text b c = true -> includes_text a c = true.
Proof.
  rewrite !includes_text_spec. intros (p & r & ->) (p' & r' & ->).
  exists (p' ++ p), (r ++ r'). now rewrite <- !app_assoc.
Qed.

Lemma blank_query q : (length (trim q) =? 0) = true <-> Forall (fun c => is_space c = true) q.
Proof.
  rewrite Nat.eqb_eq, <- trim_nil. destruct (trim q); simpl; split; congruence.
Qed.

Lemma lower_unit_space c : is_space (lower_unit c) = is_space c.
Proof. destruct c as [[] [] [] [] [] [] [] []]; reflexivity. Qed.

Lemma blank_toLowerCase q :
  Forall (fun c => is_space c = true) (toLowerCase q) <->
  Forall (fun c => is_space c = true) q.
Proof.
  unfold toLowerCase. rewrite Forall_map.
  split; apply Forall_impl; intros c; now rewrite lower_unit_space.
Qed.

(** X22.  The ticket search: a query of white space only (or none) lists
    every ticket; any other query keeps, in their order, the tickets whose
    id, customer name, reg or status contains the query, all in lower case;
    a query whose lower-case form contains the lower-case form of another
    one never lists a ticket the other one does not; and every ticket is
    listed for its own id. *)
Theorem search_filter (a : AppState) (q q' : jsstring) :
  let results query := getFilteredTickets (setState_searchQuery query a) in
  (Forall (fun c => is_space c = true) q -> results q = tickets a) /\
  (Exists (fun c => is_space c = false) q ->
   results q =
     filter (fun t =>
               existsb (includes_text (toLowerCase q))
                 [toLowerCase (Ticket.id t);
                  toLowerCase (Customer.name (Ticket.customer t));
                  toLowerCase (TicketBooking.reg (Ticket.booking t));
                  toLowerCase (Ticket.status t)])
            (tickets a)) /\
  (includes_text (toLowerCase q) (toLowerCase q') = true ->
   incl (results q') (results q)) /\
  (forall t, In t (tickets a) -> In t (results (Ticket.id t))).
Proof.
  intros results. unfold results, getFilteredTickets. cbn [setState_searchQuery searchQuery tickets].
  split; [|split; [|split]].
  - intros H. apply blank_query in H. now rewrite H.
  - intros H. destruct (length (trim q) =? 0) eqn:E.
    + apply blank_query in E. apply Exists_exists in H as (c & Hin & Hc).
      rewrite Forall_forall in E. specialize (E c Hin). congruence.
    + apply filter_ext. intros t. cbn [existsb]. now rewrite orb_false_r, !orb_assoc.
  - intros Hq t. destruct (length (trim q) =? 0) eqn:E.
    + destruct (length (trim q') =? 0); [auto|]. intros H. now apply filter_In in H.
    + destruct (length (trim q') =? 0) eqn:E'.
      * exfalso. apply (proj1 (blank_query q')) in E'.
        apply (proj2 (blank_toLowerCase q')) in E'.
        apply includes_text_spec in Hq as (p & r & Hq). rewrite Hq in E'.
        apply Forall_app in E' as [_ E']. apply Forall_app in E' as [E' _].
        apply (proj1 (blank_toLowerCase q)) in E'.
        apply (proj2 (blank_query q)) in E'. congruence.
      * rewrite !filter_In. intros [Hin H]. split; [exact Hin|].
        rewrite !orb_true_iff in *.
        destruct H as [[[H|H]|H]|H];
          [left; left; left|left; left; right|left; right|right];
          eapply includes_text_trans; eassumption.
  - intros t Hin. destruct (length (trim (Ticket.id t)) =? 0); [exact Hin|].
    apply filter_In. split; [exact Hin|]. now rewrite includes_text_refl.
Qed.

(** * Utils *)

Lemma debounce_clear_one_pending {Args} wait (s : Debounce.t Args) :
  one_pending wait s -> Debounce.clear (Debounce.timeout s) (Debounce.pending s) = [].
Proof.
  intros [E|(id & t0 & args & before & E & Et & _)]; rewrite E.
  - now destruct (Debounce.timeout s).
  - rewrite Et. simpl. now rewrite Pos.eqb_refl.
Qed.

Lemma after_quiet_call {Args} wait (s : Debounce.t Args) args c :
  (fst c <= Debounce.now s)%Z ->
  after_quiet wait s c -> after_quiet wait (Debounce.executedFunction wait args s) c.
Proof.
  intros Hc (before & after & t0 & E & Hd & Ha).
  exists before, (after ++ [(Debounce.now s, args)]), t0. cbn. rewrite E.
  split; [now rewrite <- app_assoc|]. split; [exact Hd|].
  apply Forall_app. split; [exact Ha|]. constructor; [exact Hc|constructor].
Qed.

Lemma debounce_run_invariant {Args} wait (e : Debounce.Event Args) s :
  debounce_invariant wait s -> debounce_invariant wait (Debounce.run wait e s).
Proof.
  intros (Hp & Hn & Hq & Hl). destruct e as [args|id|dt]; simpl.
  - pose proof (debounce_clear_one_pending wait s Hp) as Hc.
    unfold debounce_invariant, one_pending. cbn. rewrite Hc. cbn. repeat split.
    + right. exists (Debounce.next_id s), (Debounce.now s), args, (Debounce.requested s).
      repeat split.
    + exact Hn.
    + rewrite Forall_forall in *. intros c Hin. apply after_quiet_call; auto.
    + rewrite length_app. simpl.
      destruct Hp as [E|(? & ? & ? & ? & E & _)]; rewrite E in Hl; simpl in Hl; lia.
  - unfold Debounce.later.
    destruct Hp as [E|(i & t0 & a & before & E & Et & Er)]; rewrite E; simpl.
    + repeat split; auto. now left.
    + destruct (Pos.eqb i id) eqn:Ei; simpl; [|repeat split; auto; right; eauto 10].
      destruct (t0 + Debounce.delay wait <=? Debounce.now s)%Z eqn:Ed;
        [|repeat split; auto; right; eauto 10].
      apply Z.leb_le in Ed.
      unfold debounce_invariant, one_pending. cbn. rewrite ?E. simpl. rewrite ?Ei. simpl.
      assert (Hclear : Debounce.clear (Debounce.timeout s) (@nil (positive * (Z * Args))) = [])
        by now destruct (Debounce.timeout s).
      rewrite Hclear. repeat split.
      * now left.
      * apply Forall_app. split; [exact Hn|]. constructor; [simpl; lia|constructor].
      * apply Forall_app. split.
        -- rewrite Forall_forall in *. intros c Hin.
           destruct (Hq c Hin) as (b & r & u & H1 & H2 & H3). exists b, r, u. auto.
        -- constructor; [|constructor]. exists before, [], t0. cbn.
           repeat split; [exact Er|exact Ed|constructor].
      * rewrite length_app. rewrite E in Hl. simpl in *. lia.
  - unfold debounce_invariant, one_pending, Debounce.tick. cbn. repeat split.
    + exact Hp.
    + rewrite Forall_forall in *. intros c Hin. specialize (Hn c Hin). lia.
    + rewrite Forall_forall in *. intros c Hin.
      destruct (Hq c Hin) as (b & r & u & H1 & H2 & H3). exists b, r, u. auto.
    + exact Hl.
Qed.

Lemma debounce_reachable_invariant {Args} wait (s : Debounce.t Args) :
  Debounce.reachable wait s -> debounce_invariant wait s.
Proof.
  induction 1 as [t0|e s _ IH].
  - split; [now left|]. split; [constructor|]. split; [constructor|]. simpl. lia.
  - now apply debounce_run_invariant.
Qed.

(** X23.  In every state a debounced function reaches, each call of [func]
    passes on the arguments of a call made at least the delay earlier, and
    no call was made between that one and the run of [func]; at most one
    timer is pending, and [func] has run at most once per call. *)
Theorem debounce_waits_for_quiet {Args} (wait : Z) (s : Debounce.t Args) :
  Debounce.reachable wait s ->
  Forall (after_quiet wait s) (Debounce.called s) /\
  length (Debounce.pending s) <= 1 /\
  length (Debounce.called s) + length (Debounce.pending s)
    <= length (Debounce.requested s).
Proof.
  intros H. apply debounce_reachable_invariant in H as (Hp & _ & Hq & Hl).
  split; [exact Hq|]. split; [|exact Hl].
  destruct Hp as [E|(? & ? & ? & ? & E & _)]; rewrite E; simpl; lia.
Qed.

Lemma typed_twice_reachable : Debounce.reachable 300 typed_twice.
Proof. unfold typed_twice. repeat apply Debounce.reach_run. apply Debounce.reach_start. Defined.

Lemma debounce_waits_for_quiet_witness :
  Debounce.called typed_twice = [(400%Z, str "ab")] /\
  Forall (after_quiet 300 typed_twice) (Debounce.called typed_twice).
Proof.
  split; [reflexivity|].
  exact (proj1 (debounce_waits_for_quiet 300 typed_twice typed_twice_reachable)).
Defined.

(** X24.  A call of the debounced function leaves exactly one timer, with
    its arguments.  Once the delay has passed that timer runs [func] with
    these arguments and nothing stays pending; before that it does not run,
    and no other timer can run. *)
Theorem debounce_delivers {Args} (wait : Z) (s : Debounce.t Args) (args : Args) (dt : N) :
  Debounce.reachable wait s ->
  let s1 := Debounce.tick dt (Debounce.executedFunction wait args s) in
  let s2 := Debounce.later (Debounce.next_id s) s1 in
  Debounce.pending s1 =
    [(Debounce.next_id s, ((Debounce.now s + Debounce.delay wait)%Z, args))] /\
  (if (Debounce.delay wait <=? Z.of_N dt)%Z
   then Debounce.called s2 =
          Debounce.called s ++ [((Debounce.now s + Z.of_N dt)%Z, args)] /\
        Debounce.pending s2 = []
   else s2 = s1) /\
  (forall id, id <> Debounce.next_id s -> Debounce.later id s1 = s1).
Proof.
  intros H s1 s2. apply debounce_reachable_invariant in H as (Hp & _).
  pose proof (debounce_clear_one_pending wait s Hp) as Hc.
  assert (E1 : Debounce.pending s1 =
    [(Debounce.next_id s, ((Debounce.now s + Debounce.delay wait)%Z, args))]).
  { unfold s1. cbn. now rewrite Hc. }
  split; [exact E1|]. split.
  - unfold s2, Debounce.later. rewrite E1. cbn [find fst]. rewrite Pos.eqb_refl.
    replace (Debounce.now s + Debounce.delay wait <=? Debounce.now s1)%Z
      with (Debounce.delay wait <=? Z.of_N dt)%Z.
    + destruct (Debounce.delay wait <=? Z.of_N dt)%Z; [|reflexivity].
      cbn. rewrite Pos.eqb_refl. split; reflexivity.
    + unfold s1. cbn. apply eq_true_iff_eq. rewrite !Z.leb_le. lia.
  - intros id Hid. unfold Debounce.later. rewrite E1. cbn [find fst].
    destruct (Pos.eqb (Debounce.next_id s) id) eqn:E; [|reflexivity].
    apply Pos.eqb_eq in E. congruence.
Qed.

Lemma debounce_delivers_witness :
  Debounce.called
    (Debounce.later 1
       (Debounce.tick 300 (Debounce.executedFunction 300 (str "a") (Debounce.start 0%Z)))) =
  [(300%Z, str "a")].
Proof.
  exact (proj1 (proj1 (proj2 (debounce_delivers 300 (Debounce.start 0%Z) (str "a") 300
                                (Debounce.reach_start jsstring 300 0%Z))))).
Defined.

Lemma code_is (c : ascii) (n : nat) :
  n < 256 -> (code c =? n) = true -> c = ascii_of_nat n.
Proof.
  intros Hn E. apply Nat.eqb_eq in E. unfold code in E.
  now rewrite <- (ascii_nat_embedding c), E.
Qed.

(** The five ways a unit is written. *)
Lemma escape_unit_cases c :
  (c = "&"%char /\ escape_unit c = str "&amp;") \/
  (c = "<"%char /\ escape_unit c = str "&lt;") \/
  (c = ">"%char /\ escape_unit c = str "&gt;") \/
  (c = ascii_of_nat 160 /\ escape_unit c = str "&nbsp;") \/
  (c <> "&"%char /\ c <> "<"%char /\ c <> ">"%char /\ c <> ascii_of_nat 160 /\
   escape_unit c = [c]).
Proof.
  unfold escape_unit.
  destruct (code c =? 38) eqn:E1; [left; split; [now apply (code_is c 38); [lia|]|reflexivity]|].
  destruct (code c =? 60) eqn:E2;
    [right; left; split; [now apply (code_is c 60); [lia|]|reflexivity]|].
  destruct (code c =? 62) eqn:E3;
    [right; right; left; split; [now apply (code_is c 62); [lia|]|reflexivity]|].
  destruct (code c =? 160) eqn:E4;
    [right; right; right; left; split; [now apply (code_is c 160); [lia|]|reflexivity]|].
  right; right; right; right.
  repeat split; try reflexivity; intros ->; discriminate.
Qed.

(** X25.  [sanitizeHtml] leaves no angle bracket in its result, so no tag
    (the self-test's [<script>] among them); a text without ampersand, angle
    bracket and no-break space is returned as it is, quotes included; and
    two different texts never give the same result. *)
Theorem sanitizeHtml_escapes (s : jsstring) :
  Forall (fun c => c <> "<"%char /\ c <> ">"%char) (sanitizeHtml s) /\
  includes_text (str "<script>") (sanitizeHtml s) = false /\
  (Forall (fun c => c <> "&"%char /\ c <> "<"%char /\ c <> ">"%char /\
                    c <> ascii_of_nat 160) s -> sanitizeHtml s = s) /\
  (forall s', sanitizeHtml s = sanitizeHtml s' -> s = s').
Proof.
  assert (H1 : Forall (fun c => c <> "<"%char /\ c <> ">"%char) (sanitizeHtml s)).
  { unfold sanitizeHtml. induction s as [|c s IH]; [constructor|]. simpl.
    apply Forall_app. split; [|exact IH].
    destruct (escape_unit_cases c) as [[_ ->]|[[_ ->]|[[_ ->]|[[_ ->]|(_ & ? & ? & _ & ->)]]]];
      repeat constructor; try discriminate; assumption. }
  split; [exact H1|]. split; [|split].
  - destruct (includes_text _ _) eqn:E; [|reflexivity].
    apply includes_text_spec in E as (p & r & E). rewrite E in H1.
    apply Forall_app in H1 as [_ H1]. inversion H1 as [|? ? [Hc _] _]. now elim Hc.
  - clear H1. unfold sanitizeHtml.
    induction 1 as [|c l (Ha & Hl & Hg & Hn) _ IH]; [reflexivity|].
    simpl. rewrite IH.
    destruct (escape_unit_cases c) as [[? _]|[[? _]|[[? _]|[[? _]|(_ & _ & _ & _ & ->)]]]];
      try contradiction. reflexivity.
  - clear H1. unfold sanitizeHtml.
    induction s as [|c s IH]; intros [|c' s'] E; simpl in E.
    + reflexivity.
    + exfalso.
      destruct (escape_unit_cases c') as [[_ H]|[[_ H]|[[_ H]|[[_ H]|(_ & _ & _ & _ & H)]]]];
        rewrite H in E; discriminate E.
    + exfalso.
      destruct (escape_unit_cases c) as [[_ H]|[[_ H]|[[_ H]|[[_ H]|(_ & _ & _ & _ & H)]]]];
        rewrite H in E; discriminate E.
    + destruct (escape_unit_cases c) as [[-> H]|[[-> H]|[[-> H]|[[-> H]|(Ha & _ & _ & _ & H)]]]];
        destruct (escape_unit_cases c') as [[-> H']|[[-> H']|[[-> H']|[[-> H']|(Ha' & _ & _ & _ & H')]]]];
        rewrite ?H, ?H' in E; simpl in E; inversion E; subst;
        try (f_equal; apply IH; assumption);
        try (now elim Ha); try (now elim Ha').
Qed.

(** * The messaging backend *)

Lemma GetSubstitution_plain matched before after template :
  Forall (fun c => c <> "$"%char) template ->
  GetSubstitution matched before after template = template.
Proof.
  induction 1 as [|c rest Hc _ IH]; [reflexivity|].
  cbn [GetSubstitution]. destruct (Ascii.eqb c "$") eqn:E.
  - apply Ascii.eqb_eq in E. now elim Hc.
  - now rewrite IH.
Qed.

Lemma may_start_false p : forall s rest,
  may_start p s = false -> startsWith p (s ++ rest) = false.
Proof.
  induction p as [|a p IH]; intros [|b s] rest H; simpl in *; try discriminate.
  destruct (Ascii.eqb a b); simpl in *; [now apply IH|reflexivity].
Qed.

(** The scan passes over a stretch in which no match begins. *)
Lemma scan_segment p r string : forall w position rest,
  never_starts p w = true ->
  replaceAll_from p r string position 0 (w ++ rest) =
  w ++ replaceAll_from p r string (position + length w) 0 rest.
Proof.
  induction w as [|c w IH]; intros position rest H.
  - simpl. now rewrite Nat.add_0_r.
  - cbn [never_starts] in H. apply andb_true_iff in H as [Hc Hw].
    apply negb_true_iff in Hc.
    change ((c :: w) ++ rest) with (c :: w ++ rest).
    cbn [replaceAll_from].
    change (c :: w ++ rest) with ((c :: w) ++ rest).
    rewrite (may_start_false p (c :: w) rest Hc).
    cbn [app]. rewrite IH by exact Hw. cbn [length].
    now rewrite Nat.add_succ_r.
Qed.

Lemma never_starts_plain p value :
  plain_value value -> never_starts ("{"%char :: p) value = true.
Proof.
  induction 1 as [|c v [_ Hc] _ IH]; [reflexivity|].
  cbn [never_starts may_start]. rewrite IH.
  destruct (Ascii.eqb "{" c) eqn:E; [|reflexivity].
  apply Ascii.eqb_eq in E. now elim Hc.
Qed.

Lemma plain_value_no_dollar value :
  plain_value value -> Forall (fun c => c <> "$"%char) value.
Proof. apply Forall_impl. now intros c [H _]. Qed.

(** A placeholder is replaced by what is shown for it. *)
Lemma fill_shown key value text :
  fill key value text = replaceAll (str "{{" ++ key ++ str "}}") (shown key value) text.
Proof. unfold fill, shown. now destruct value. Qed.

Ltac scan :=
  unfold replaceAll;
  repeat (cbn; rewrite ?scan_segment by assumption;
          rewrite ?GetSubstitution_plain by assumption);
  cbn; rewrite ?app_nil_r; reflexivity.

Section Filled.

Variables w wt ws : jsstring.
Hypothesis w_dollar : Forall (fun c => c <> "$"%char) w.
Hypothesis wt_dollar : Forall (fun c => c <> "$"%char) wt.
Hypothesis ws_dollar : Forall (fun c => c <> "$"%char) ws.
Hypothesis w_terminal : never_starts (str "{{terminal}}") w = true.
Hypothesis w_short_link : never_starts (str "{{short_link}}") w = true.
Hypothesis wt_short_link : never_starts (str "{{short_link}}") wt = true.

Lemma t1_filled :
  replaceAll (str "{{short_link}}") ws
    (replaceAll (str "{{terminal}}") wt
       (replaceAll (str "{{name}}") w
          (str "Hi {{name}}, welcome back. Your car is ready at bay B. Reply 1 for five mins, 2 for ten mins."))) =
  str "Hi " ++ w ++
  str ", welcome back. Your car is ready at bay B. Reply 1 for five mins, 2 for ten mins.".
Proof. scan. Qed.

Lemma t2_filled :
  replaceAll (str "{{short_link}}") ws
    (replaceAll (str "{{terminal}}") wt
       (replaceAll (str "{{name}}") w
          (str "Hi {{name}}, we are running a few mins behind due to traffic at {{terminal}}. We will update you shortly."))) =
  str "Hi " ++ w ++ str ", we are running a few mins behind due to traffic at " ++ wt ++
  str ". We will update you shortly.".
Proof. scan. Qed.

Lemma t3_filled :
  replaceAll (str "{{short_link}}") ws
    (replaceAll (str "{{terminal}}") wt
       (replaceAll (str "{{name}}") w
          (str "Thanks {{name}} for using Star Parking. Share your experience here: {{short_link}}"))) =
  str "Thanks " ++ w ++ str " for using Star Parking. Share your experience here: " ++ ws.
Proof. scan. Qed.

End Filled.

Lemma shown_no_dollar key value :
  Forall (fun c => c <> "$"%char) key -> plain_value value ->
  Forall (fun c => c <> "$"%char) (shown key value).
Proof.
  intros Hk Hv. destruct value; [|now apply plain_value_no_dollar].
  unfold shown. repeat (apply Forall_app; split);
    [repeat constructor; discriminate|exact Hk|repeat constructor; discriminate].
Qed.

Lemma shown_never_starts p key value :
  never_starts ("{"%char :: p) (str "{{" ++ key ++ str "}}") = true ->
  plain_value value ->
  never_starts ("{"%char :: p) (shown key value) = true.
Proof. intros Hk Hv. destruct value; [exact Hk|now apply never_starts_plain]. Qed.

(** X26.  For variable values without dollar and opening brace, the preview
    of each of the three templates is its body with every placeholder
    replaced by the value of its variable; the placeholder of a variable
    whose value is empty stays as it is. *)
Theorem preview_fills_templates (variables : Variables) (plainText : option jsstring) :
  plain_value (var_name variables) ->
  plain_value (var_terminal variables) ->
  plain_value (var_short_link variables) ->
  let name := shown (str "name") (var_name variables) in
  let terminal := shown (str "terminal") (var_terminal variables) in
  let short_link := shown (str "short_link") (var_short_link variables) in
  updatePreview (str "t1") variables plainText =
    Some (str "Hi " ++ name ++
          str ", welcome back. Your car is ready at bay B. Reply 1 for five mins, 2 for ten mins.") /\
  updatePreview (str "t2") variables plainText =
    Some (str "Hi " ++ name ++
          str ", we are running a few mins behind due to traffic at " ++ terminal ++
          str ". We will update you shortly.") /\
  updatePreview (str "t3") variables plainText =
    Some (str "Thanks " ++ name ++
          str " for using Star Parking. Share your experience here: " ++ short_link).
Proof.
  intros Hn Ht Hs name terminal short_link.
  assert (Dn : Forall (fun c => c <> "$"%char) name)
    by (apply shown_no_dollar; [repeat constructor; discriminate|exact Hn]).
  assert (Dt : Forall (fun c => c <> "$"%char) terminal)
    by (apply shown_no_dollar; [repeat constructor; discriminate|exact Ht]).
  assert (Ds : Forall (fun c => c <> "$"%char) short_link)
    by (apply shown_no_dollar; [repeat constructor; discriminate|exact Hs]).
  assert (Nt : never_starts (str "{{terminal}}") name = true)
    by (apply shown_never_starts; [reflexivity|exact Hn]).
  assert (Ns : never_starts (str "{{short_link}}") name = true)
    by (apply shown_never_starts; [reflexivity|exact Hn]).
  assert (Ts : never_starts (str "{{short_link}}") terminal = true)
    by (apply shown_never_starts; [reflexivity|exact Ht]).
  split; [|split].
  - transitivity
      (Some (replaceAll (str "{{short_link}}") short_link
               (replaceAll (str "{{terminal}}") terminal
                  (replaceAll (str "{{name}}") name
                     (str "Hi {{name}}, welcome back. Your car is ready at bay B. Reply 1 for five mins, 2 for ten mins.")))));
      [reflexivity|f_equal; now apply t1_filled].
  - transitivity
      (Some (replaceAll (str "{{short_link}}") short_link
               (replaceAll (str "{{terminal}}") terminal
                  (replaceAll (str "{{name}}") name
                     (str "Hi {{name}}, we are running a few mins behind due to traffic at {{terminal}}. We will update you shortly.")))));
      [reflexivity|f_equal; now apply t2_filled].
  - transitivity
      (Some (replaceAll (str "{{short_link}}") short_link
               (replaceAll (str "{{terminal}}") terminal
                  (replaceAll (str "{{name}}") name
                     (str "Thanks {{name}} for using Star Parking. Share your experience here: {{short_link}}")))));
      [reflexivity|f_equal; now apply t3_filled].
Qed.

(** The delay notice for Ann, before the terminal is filled in. *)
Lemma preview_fills_templates_witness :
  updatePreview (str "t2")
    {| var_name := str "Ann"; var_terminal := []; var_short_link := [] |} None =
  Some (str "Hi Ann, we are running a few mins behind due to traffic at {{terminal}}. We will update you shortly.").
Proof.
  refine (proj1 (proj2 (preview_fills_templates
            {| var_name := str "Ann"; var_terminal := []; var_short_link := [] |} None _ _ _)));
    repeat constructor; discriminate.
Defined.

(** ** The calendar *)

Lemma DaysInMonth_bounds y m : (28 <= DaysInMonth y m <= 31)%Z.
Proof.
  unfold DaysInMonth.
  destruct (m =? 1)%Z; [destruct (InLeapYear y); lia|].
  destruct ((m =? 3) || (m =? 5) || (m =? 8) || (m =? 10))%Z; lia.
Qed.

Lemma roll_in_range fuel y m d :
  (1 <= d <= DaysInMonth y m)%Z ->
  roll fuel y m d = {| year := y; month := m; day := d |}.
Proof.
  intros H. destruct fuel; [reflexivity|]. simpl.
  destruct (d <? 1)%Z eqn:E1; [apply Z.ltb_lt in E1; lia|].
  destruct (DaysInMonth y m <? d)%Z eqn:E2; [apply Z.ltb_lt in E2; lia|reflexivity].
Qed.

Lemma roll_after fuel y m d :
  (DaysInMonth y m < d)%Z ->
  (d - DaysInMonth y m <=
   DaysInMonth (fst (month_after y m)) (snd (month_after y m)))%Z ->
  roll (S fuel) y m d =
  {| year := fst (month_after y m); month := snd (month_after y m);
     day := d - DaysInMonth y m |}.
Proof.
  intros H1 H2. pose proof (DaysInMonth_bounds y m). simpl.
  destruct (d <? 1)%Z eqn:E1; [apply Z.ltb_lt in E1; lia|].
  destruct (DaysInMonth y m <? d)%Z eqn:E2; [|apply Z.ltb_ge in E2; lia].
  destruct (month_after y m) as [y' m']. simpl in *.
  apply roll_in_range. lia.
Qed.

Lemma roll_before fuel y m d :
  (-27 <= d < 1)%Z ->
  roll (S fuel) y m d =
  {| year := fst (month_before y m); month := snd (month_before y m);
     day := d + DaysInMonth (fst (month_before y m)) (snd (month_before y m)) |}.
Proof.
  intros H. simpl.
  destruct (d <? 1)%Z eqn:E1; [|apply Z.ltb_ge in E1; lia].
  destruct (month_before y m) as [y' m']. simpl.
  pose proof (DaysInMonth_bounds y' m'). apply roll_in_range. lia.
Qed.

Lemma month_cases m :
  (0 <= m <= 11)%Z ->
  (m = 0 \/ m = 1 \/ m = 2 \/ m = 3 \/ m = 4 \/ m = 5 \/
   m = 6 \/ m = 7 \/ m = 8 \/ m = 9 \/ m = 10 \/ m = 11)%Z.
Proof. lia. Qed.

Ltac each_month H :=
  apply month_cases in H;
  repeat (destruct H as [H|H]; [subst|]); subst.

(** [setMonth] with the month after and with the month before, as
    [MakeDay] sees them. *)
Lemma MakeDay_month_after y m d :
  (0 <= m <= 11)%Z ->
  MakeDay y (m + 1) d =
  roll (S (Z.to_nat (Z.abs d))) (fst (month_after y m)) (snd (month_after y m)) d.
Proof.
  intros H. unfold MakeDay. each_month H; cbn; rewrite ?Z.add_0_r; reflexivity.
Qed.

Lemma MakeDay_month_before y m d :
  (0 <= m <= 11)%Z ->
  MakeDay y (m - 1) d =
  roll (S (Z.to_nat (Z.abs d))) (fst (month_before y m)) (snd (month_before y m)) d.
Proof.
  intros H. unfold MakeDay. each_month H; cbn; rewrite ?Z.add_0_r; reflexivity.
Qed.

Lemma month_after_spec y m :
  (0 <= m <= 11)%Z ->
  (0 <= snd (month_after y m) <= 11)%Z /\
  month_before (fst (month_after y m)) (snd (month_after y m)) = (y, m).
Proof.
  intros H. unfold month_after, month_before.
  destruct (m =? 11)%Z eqn:E; cbn.
  - apply Z.eqb_eq in E. subst. split; [lia|]. f_equal. lia.
  - apply Z.eqb_neq in E. split; [lia|].
    destruct (m + 1 =? 0)%Z eqn:E'; [apply Z.eqb_eq in E'; lia|].
    f_equal. lia.
Qed.

Lemma month_before_spec y m :
  (0 <= m <= 11)%Z ->
  (0 <= snd (month_before y m) <= 11)%Z /\
  month_after (fst (month_before y m)) (snd (month_before y m)) = (y, m).
Proof.
  intros H. unfold month_after, month_before.
  destruct (m =? 0)%Z eqn:E; cbn.
  - apply Z.eqb_eq in E. subst. split; [lia|]. f_equal. lia.
  - apply Z.eqb_neq in E. split; [lia|].
    destruct (m - 1 =? 11)%Z eqn:E'; [apply Z.eqb_eq in E'; lia|].
    f_equal. lia.
Qed.

Lemma nextMonth_spec date :
  valid_date date ->
  nextMonth date =
    let after := month_after (year date) (month date) in
    if (day date <=? DaysInMonth (fst after) (snd after))%Z
    then {| year := fst after; month := snd after; day := day date |}
    else {| year := fst (month_after (fst after) (snd after));
            month := snd (month_after (fst after) (snd after));
            day := day date - DaysInMonth (fst after) (snd after) |}.
Proof.
  intros [Hm Hd]. unfold nextMonth, setMonth. rewrite MakeDay_month_after by exact Hm.
  cbv zeta.
  pose proof (DaysInMonth_bounds (year date) (month date)).
  pose proof (DaysInMonth_bounds (fst (month_after (year date) (month date)))
                (snd (month_after (year date) (month date)))).
  destruct (day date <=? _)%Z eqn:E.
  - apply Z.leb_le in E. apply roll_in_range. lia.
  - apply Z.leb_gt in E. apply roll_after; [exact E|].
    match goal with |- (_ <= DaysInMonth ?a ?b)%Z => pose proof (DaysInMonth_bounds a b) end.
    lia.
Qed.

Lemma prevMonth_spec date :
  valid_date date ->
  prevMonth date =
    let before := month_before (year date) (month date) in
    if (day date <=? DaysInMonth (fst before) (snd before))%Z
    then {| year := fst before; month := snd before; day := day date |}
    else {| year := year date; month := month date;
            day := day date - DaysInMonth (fst before) (snd before) |}.
Proof.
  intros [Hm Hd]. unfold prevMonth, setMonth. rewrite MakeDay_month_before by exact Hm.
  cbv zeta.
  pose proof (DaysInMonth_bounds (year date) (month date)).
  pose proof (DaysInMonth_bounds (fst (month_before (year date) (month date)))
                (snd (month_before (year date) (month date)))).
  destruct (month_before_spec (year date) (month date) Hm) as [_ Hback].
  destruct (day date <=? _)%Z eqn:E.
  - apply Z.leb_le in E. apply roll_in_range. lia.
  - apply Z.leb_gt in E. rewrite roll_after.
    + now rewrite Hback.
    + exact E.
    + rewrite Hback. cbn [fst snd]. lia.
Qed.

(** X27.  The month buttons use [setMonth] on a date that keeps its day of
    the month.  From a day the neighbouring month has, the calendar moves to
    that month; from a later day (a 29th, 30th or 31st) the next-month button
    skips a month and the previous-month button stays in the month shown.
    From a day up to the 28th each button undoes the other. *)
Theorem month_buttons_may_skip (date : CalendarDate) :
  valid_date date ->
  let after := month_after (year date) (month date) in
  let before := month_before (year date) (month date) in
  nextMonth date =
    (if (day date <=? DaysInMonth (fst after) (snd after))%Z
     then {| year := fst after; month := snd after; day := day date |}
     else {| year := fst (month_after (fst after) (snd after));
             month := snd (month_after (fst after) (snd after));
             day := day date - DaysInMonth (fst after) (snd after) |}) /\
  prevMonth date =
    (if (day date <=? DaysInMonth (fst before) (snd before))%Z
     then {| year := fst before; month := snd before; day := day date |}
     else {| year := year date; month := month date;
             day := day date - DaysInMonth (fst before) (snd before) |}) /\
  ((day date <= 28)%Z ->
   prevMonth (nextMonth date) = date /\ nextMonth (prevMonth date) = date).
Proof.
  intros Hv after before. split; [now apply nextMonth_spec|].
  split; [now apply prevMonth_spec|].
  intros H28. destruct Hv as [Hm Hd].
  destruct (month_after_spec (year date) (month date) Hm) as [Ha Hab].
  destruct (month_before_spec (year date) (month date) Hm) as [Hb Hba].
  pose proof (DaysInMonth_bounds (fst after) (snd after)) as Ba.
  pose proof (DaysInMonth_bounds (fst before) (snd before)) as Bb.
  pose proof (DaysInMonth_bounds (year date) (month date)) as B.
  assert (En : nextMonth date =
            {| year := fst after; month := snd after; day := day date |}).
  { rewrite nextMonth_spec by (split; assumption). cbv zeta. fold after.
    destruct (day date <=? _)%Z eqn:E; [reflexivity|apply Z.leb_gt in E; lia]. }
  assert (Ep : prevMonth date =
            {| year := fst before; month := snd before; day := day date |}).
  { rewrite prevMonth_spec by (split; assumption). cbv zeta. fold before.
    destruct (day date <=? _)%Z eqn:E; [reflexivity|apply Z.leb_gt in E; lia]. }
  split.
  - rewrite En, prevMonth_spec by (split; cbn; [exact Ha|lia]).
    cbn [year month day]. unfold after. rewrite Hab. cbn [fst snd].
    destruct (day date <=? _)%Z eqn:E; [now destruct date|apply Z.leb_gt in E; lia].
  - rewrite Ep, nextMonth_spec by (split; cbn; [exact Hb|lia]).
    cbn [year month day]. unfold before. rewrite Hba. cbn [fst snd].
    destruct (day date <=? _)%Z eqn:E; [now destruct date|apply Z.leb_gt in E; lia].
Qed.

(** On 31 January 2025 the next-month button shows March. *)
Lemma month_buttons_may_skip_witness :
  valid_date {| year := 2025; month := 0; day := 31 |} /\
  nextMonth {| year := 2025; month := 0; day := 31 |} =
    {| year := 2025; month := 2; day := 3 |}.
Proof.
  assert (H : valid_date {| year := 2025; month := 0; day := 31 |})
    by (split; cbn; lia).
  split; [exact H|].
  exact (proj1 (month_buttons_may_skip {| year := 2025; month := 0; day := 31 |} H)).
Defined.

Lemma MakeDay_same y m d :
  (0 <= m <= 11)%Z -> MakeDay y m d = roll (S (Z.to_nat (Z.abs d))) y m d.
Proof.
  intros H. unfold MakeDay.
  rewrite Z.div_small, Z.mod_small, Z.add_0_r by lia. reflexivity.
Qed.

Lemma getDay_range date : (0 <= getDay date <= 6)%Z.
Proof.
  unfold getDay.
  match goal with |- (0 <= ?a mod 7 <= 6)%Z => pose proof (Z.mod_pos_bound a 7) end.
  lia.
Qed.

(** X28.  The calendar grid always has 42 cells: the last days of the month
    before, as many as the weekday of the 1st counts from Sunday, each marked
    as other month; the days of the month from 1 on, of which the one of
    today's date is marked when the month shown is today's; and days counted
    from 1 again, marked as other month. *)
Theorem calendar_grid (date today : CalendarDate) :
  (0 <= month date <= 11)%Z ->
  let y := full_year (year date) in
  let first := getDay {| year := y; month := month date; day := 1 |} in
  let days := DaysInMonth y (month date) in
  let days_before :=
    DaysInMonth (fst (month_before y (month date))) (snd (month_before y (month date))) in
  (0 <= first <= 6)%Z /\
  renderCalendar date today =
    map (fun i => {| label := days_before - first + 1 + Z.of_nat i;
                     other_month := true; is_today := false |})
        (seq 0 (Z.to_nat first)) ++
    map (fun d => {| label := Z.of_nat d; other_month := false;
                     is_today := (year today =? year date)%Z && (month today =? month date)%Z
                                 && (Z.of_nat d =? day today)%Z |})
        (seq 1 (Z.to_nat days)) ++
    map (fun i => {| label := Z.of_nat i; other_month := true; is_today := false |})
        (seq 1 (42 - Z.to_nat first - Z.to_nat days)) /\
  length (renderCalendar date today) = 42.
Proof.
  intros Hm y first days days_before.
  pose proof (getDay_range {| year := y; month := month date; day := 1 |}) as Hf.
  fold first in Hf.
  pose proof (DaysInMonth_bounds y (month date)) as Hd. fold days in Hd.
  destruct (month_after_spec y (month date) Hm) as [Ha Hab].
  assert (E1 : new_Date (year date) (month date) 1 =
               {| year := y; month := month date; day := 1 |}).
  { unfold new_Date. fold (full_year (year date)). fold y.
    rewrite MakeDay_same by exact Hm. apply roll_in_range. lia. }
  assert (E2 : day (new_Date (year date) (month date + 1) 0) = days).
  { unfold new_Date. fold (full_year (year date)). fold y.
    rewrite MakeDay_month_after by exact Hm.
    rewrite roll_before by lia. cbn [day]. now rewrite Hab. }
  assert (E3 : forall i, i < Z.to_nat first ->
            day (new_Date (year date) (month date) (0 - (first - 1 - Z.of_nat i))) =
            (days_before - first + 1 + Z.of_nat i)%Z).
  { intros i Hi. unfold new_Date. fold (full_year (year date)). fold y.
    rewrite MakeDay_same by exact Hm.
    rewrite roll_before by lia. cbn [day]. fold days_before. lia. }
  assert (Eq : renderCalendar date today =
    map (fun i => {| label := days_before - first + 1 + Z.of_nat i;
                     other_month := true; is_today := false |})
        (seq 0 (Z.to_nat first)) ++
    map (fun d => {| label := Z.of_nat d; other_month := false;
                     is_today := (year today =? year date)%Z && (month today =? month date)%Z
                                 && (Z.of_nat d =? day today)%Z |})
        (seq 1 (Z.to_nat days)) ++
    map (fun i => {| label := Z.of_nat i; other_month := true; is_today := false |})
        (seq 1 (42 - Z.to_nat first - Z.to_nat days))).
  { unfold renderCalendar. cbv zeta. rewrite E1, E2. fold first.
    rewrite length_app, !length_map, !length_seq.
    rewrite <- Nat.sub_add_distr.
    f_equal. apply map_ext_in. intros i Hi. apply in_seq in Hi.
    rewrite E3 by lia. reflexivity. }
  split; [exact Hf|]. split; [exact Eq|].
  rewrite Eq, !length_app, !length_map, !length_seq. lia.
Qed.

(** November 2026 begins on a Sunday: no day of October is shown, then the
    30 days, then 12 days of December. *)
Lemma calendar_grid_witness :
  length (renderCalendar {| year := 2026; month := 10; day := 1 |}
                         {| year := 2026; month := 10; day := 1 |}) = 42.
Proof.
  refine (proj2 (proj2 (calendar_grid {| year := 2026; month := 10; day := 1 |}
                          {| year := 2026; month := 10; day := 1 |} _))).
  cbn. lia.
Defined.
